(** * forkphorus IO helpers: Throttler, Retry, Request and Loader

    A shallow embedding of [P.io] (the asynchronous loading core of
    forkphorus) together with the properties of its bounded executor, its
    retry loop, its request acceptance rule and its progress aggregator.

    JavaScript runs these classes on one cooperative thread: every promise
    reaction and every XHR / image callback is one atomic step.  The
    embedding therefore presents each class as a state record, each
    method or callback as a function on that record, and the event loop as
    a list of events folded over the state. *)

From Stdlib Require Import QArith Lqa.
From stdpp Require Import gmap list.

Open Scope Z_scope.

(** ** Throttler *)

Module Throttler.

(** The identity of an operation handed to [run] (a closure in the source).
    Both callers, [Request.load] and [Img.load], hand over
    [() => this.try(...)], an [async] function: calling it returns a
    promise and never throws. *)
Definition fn := nat.

(** How the promise returned by [fn()] settled, with its payload. *)
Inductive settlement :=
| Fulfilled (r : Z)
| Failed (e : Z).

(** The three fields of the class, followed by the observable history of
    the executor: the operations whose promise is still pending, the
    order in which operations were invoked, and the order in which the
    promises returned by [run] were resolved or rejected. *)
Record t := mk {
  maxConcurrentTasks : Z;
  concurrentTasks : Z;
  queue : list fn;
  inflight : list fn;
  started : list fn;
  completed : list (fn * settlement)
}.

(** [new Throttler()] with [maxConcurrentTasks] overridden to [m]. *)
Definition create (m : Z) : t := mk m 0 [] [] [] [].

(** [new Throttler()]: the limit defaults to 20. *)
Definition new : t := create 20.

(** [const requestThrottler = new Throttler();] *)
Definition requestThrottler : t := new.

(** The inner closure [run] of [Throttler.run]: it calls [fn()], whose
    promise is pending from then on. *)
Definition invoke (f : fn) (w : t) : t :=
  mk (maxConcurrentTasks w) (concurrentTasks w) (queue w)
     (inflight w ++ [f]) (started w ++ [f]) (completed w).

Definition startNextTask (w : t) : t :=
  if (length (queue w) =? 0)%nat then w
  else if concurrentTasks w >=? maxConcurrentTasks w then w
  else match queue w with
       | [] => w
       | f :: rest =>
           invoke f (mk (maxConcurrentTasks w) (concurrentTasks w + 1) rest
                        (inflight w) (started w) (completed w))
       end.

Definition run (f : fn) (w : t) : t :=
  if concurrentTasks w <? maxConcurrentTasks w then
    invoke f (mk (maxConcurrentTasks w) (concurrentTasks w + 1) (queue w)
                 (inflight w) (started w) (completed w))
  else
    mk (maxConcurrentTasks w) (concurrentTasks w) (queue w ++ [f])
       (inflight w) (started w) (completed w).

Fixpoint remove_first (f : fn) (l : list fn) : list fn :=
  match l with
  | [] => []
  | g :: l' => if (f =? g)%nat then l' else g :: remove_first f l'
  end.

(** The [.then] / [.catch] reaction attached to [fn()]: both branches
    decrement, start the next task, and then settle the outer promise. *)
Definition settled (f : fn) (s : settlement) (w : t) : t :=
  let w1 := mk (maxConcurrentTasks w) (concurrentTasks w - 1) (queue w)
               (remove_first f (inflight w)) (started w) (completed w) in
  let w2 := startNextTask w1 in
  mk (maxConcurrentTasks w2) (concurrentTasks w2) (queue w2)
     (inflight w2) (started w2) (completed w2 ++ [(f, s)]).

Inductive event :=
| Run (f : fn)
| Settle (f : fn) (s : settlement).

(** A promise can only settle while it is pending. *)
Definition step (w : t) (ev : event) : option t :=
  match ev with
  | Run f => Some (run f w)
  | Settle f s =>
      if bool_decide (f ∈ inflight w) then Some (settled f s w) else None
  end.

Fixpoint exec (w : t) (evs : list event) : option t :=
  match evs with
  | [] => Some w
  | ev :: evs' =>
      match step w ev with
      | Some w' => exec w' evs'
      | None => None
      end
  end.

(** The operations submitted by a trace, in submission order. *)
Fixpoint submitted (evs : list event) : list fn :=
  match evs with
  | [] => []
  | Run f :: evs' => f :: submitted evs'
  | Settle _ _ :: evs' => submitted evs'
  end.

End Throttler.

(** ** Retry *)

Module Retry.

Definition value := Z.
Definition error := Z.

(** What one call of [handle()] produced once awaited. *)
Inductive result :=
| Ok (v : value)
| Err (e : error).

(** How the promise of [try] settles. [Thrown None] is [throw undefined],
    the value of [lastErr] before any assignment. *)
Inductive settlement :=
| Resolved (v : value)
| Thrown (e : option error).

(** Everything [try] observes from outside during iteration [i]: the
    outcome of the call of [handle], whether [abort()] was called while
    that call was awaited, whether it was called during the backoff
    sleep, and the number drawn by [Math.random()]. *)
Record env := {
  handle : nat → result;
  abort_during_attempt : nat → bool;
  abort_during_sleep : nat → bool;
  random : nat → Q
}.

Inductive effect :=
| CallHandle (i : nat)
| Warn (attempt : nat) (retryIn : Q) (err : error)
| Sleep (ms : Q).

(** The [aborted] field, and the effects performed so far. *)
Record t := mk {
  aborted : bool;
  log : list effect
}.

Definition MAX_ATTEMPST : nat := 4.

(** [2 ** i * 500 * Math.random() + 50], over the rationals. *)
Definition retryIn (i : nat) (r : Q) : Q :=
  (inject_Z (2 ^ Z.of_nat i) * 500 * r + 50)%Q.

(** [abort()] *)
Definition abort (s : t) : t := mk true (log s).

(** [await handle()] in iteration [i]: the call is recorded, and [raised]
    tells whether [abort()] was called before the call settled. *)
Definition await_handle (i : nat) (raised : bool) (s : t) : t :=
  mk (aborted s || raised) (log s ++ [CallHandle i]).

(** [console.warn(...)], recorded with the attempt number it prints. *)
Definition warn (attempt : nat) (d : Q) (err : error) (s : t) : t :=
  mk (aborted s) (log s ++ [Warn attempt d err]).

(** Modelled from the spec: [P.utils.sleep] is defined in phosphorus.ts,
    which is not among the sources; the spec has the loop "sleep that
    long, then retry", so [await P.utils.sleep(ms)] is taken to resume
    after the delay without ever rejecting.  [raised] tells whether
    [abort()] was called during the sleep. *)
Definition sleep (ms : Q) (raised : bool) (s : t) : t :=
  mk (aborted s || raised) (log s ++ [Sleep ms]).

(** The [for] loop of [try] with [n] iterations left, at index [i]. *)
Fixpoint iterate (e : env) (n i : nat) (lastErr : option error) (s : t)
  : settlement * t :=
  match n with
  | O => (Thrown lastErr, s)
  | S n' =>
      let s1 := await_handle i (abort_during_attempt e i) s in
      match handle e i with
      | Ok v => (Resolved v, s1)
      | Err err =>
          if aborted s1 then (Thrown (Some err), s1)
          else
            let d := retryIn i (random e i) in
            iterate e n' (S i) (Some err)
              (sleep d (abort_during_sleep e i) (warn (i + 1) d err s1))
      end
  end.

Definition try_ (e : env) (s : t) : settlement * t :=
  iterate e MAX_ATTEMPST 0 None s.

(** The indices at which [handle] was called, in order. *)
Fixpoint calls (l : list effect) : list nat :=
  match l with
  | [] => []
  | CallHandle i :: l' => i :: calls l'
  | _ :: l' => calls l'
  end.

(** The backoff delays slept, in order. *)
Fixpoint sleeps (l : list effect) : list Q :=
  match l with
  | [] => []
  | Sleep d :: l' => d :: sleeps l'
  | _ :: l' => sleeps l'
  end.

End Retry.

(** ** Tasks *)

(** Objects live in a store and are named by references. *)
Abbreviation ref := nat (only parsing).

(** The [loader] field of [AbstractTask]: [undefined] until [setLoader] is
    called, a loader afterwards, [null] once [Loader.cleanup] has run. *)
Inductive loader_slot :=
| LUndefined
| LNull
| LRef (l : ref).

(** [if (this.loader)]: only a reference is truthy. *)
Definition truthy (s : loader_slot) : option ref :=
  match s with
  | LRef l => Some l
  | LUndefined | LNull => None
  end.

Record ProgressEvent := mkProgressEvent {
  lengthComputable : bool;
  total : Z;
  loaded : Z
}.

Module Request.

(** The fields of a [Request], those inherited from [AbstractTask] and
    [Retry] first.  [xhr] tells whether [this.xhr] holds a transfer; the
    [url] and the [responseType] only reach the transfer and the error
    messages and are left out. *)
Record t := mk {
  loader : loader_slot;
  aborted : bool;
  shouldIgnoreErrors : bool;
  workComputable : bool;
  totalWork : Z;
  completedWork : Z;
  complete : bool;
  status : Z;
  xhr : bool
}.

Definition acceptableResponseCodes : list Z := [0; 200].

(** [Array.prototype.indexOf]: the first index holding [x], or [-1]. *)
Fixpoint indexOf_from (l : list Z) (x : Z) (i : Z) : Z :=
  match l with
  | [] => -1
  | y :: l' => if y =? x then i else indexOf_from l' x (i + 1)
  end.

Definition indexOf (l : list Z) (x : Z) : Z := indexOf_from l x 0.

Definition new : t := mk LUndefined false false false 0 0 false 0 false.

Definition isComplete (r : t) : bool := complete r.
Definition isWorkComputable (r : t) : bool := workComputable r.
Definition getTotalWork (r : t) : Z := totalWork r.
Definition getCompletedWork (r : t) : Z := completedWork r.
Definition getStatus (r : t) : Z := status r.

Definition setLoader (s : loader_slot) (r : t) : t :=
  mk s (aborted r) (shouldIgnoreErrors r) (workComputable r) (totalWork r)
     (completedWork r) (complete r) (status r) (xhr r).

Definition ignoreErrors (r : t) : t :=
  mk (loader r) (aborted r) true (workComputable r) (totalWork r)
     (completedWork r) (complete r) (status r) (xhr r).

(** [abort()]: raises the flag; the boolean tells whether [xhr.abort()]
    is called. *)
Definition abort (r : t) : t * bool :=
  (mk (loader r) true (shouldIgnoreErrors r) (workComputable r) (totalWork r)
      (completedWork r) (complete r) (status r) (xhr r),
   xhr r).

(** The reasons for which the promise of one [_load] is rejected. *)
Inductive failure :=
| AbortedBeforeSend
| HttpError (status : Z)
| TransferError
| TransferAborted.

(** The call of [resolve] or [reject] made by a handler. *)
Inductive attempt :=
| Resolve (response : Z)
| Reject (f : failure).

(** [_load()] up to [xhr.send()]: rejected at once when aborted,
    otherwise a transfer is started and stored in [this.xhr]. *)
Definition _load (r : t) : t * option attempt :=
  if aborted r then (r, Some (Reject AbortedBeforeSend))
  else
    (mk (loader r) (aborted r) (shouldIgnoreErrors r) (workComputable r)
        (totalWork r) (completedWork r) (complete r) (status r) true,
     None).

(** [xhr.onload] *)
Definition onload (r : t) (xhr_status xhr_response : Z) : t * attempt :=
  let r' := mk (loader r) (aborted r) (shouldIgnoreErrors r) (workComputable r)
               (totalWork r) (completedWork r) (complete r) xhr_status (xhr r) in
  if negb (indexOf acceptableResponseCodes xhr_status =? -1)
     || shouldIgnoreErrors r'
  then (r', Resolve xhr_response)
  else (r', Reject (HttpError xhr_status)).

(** [xhr.onerror] *)
Definition onerror (r : t) : t * attempt := (r, Reject TransferError).

(** [xhr.onabort] *)
Definition onabort (r : t) : t * attempt :=
  (mk (loader r) true (shouldIgnoreErrors r) (workComputable r) (totalWork r)
      (completedWork r) (complete r) (status r) (xhr r),
   Reject TransferAborted).

(** The field updates of [updateProgress(event)]; the caller then runs
    [updateLoaderProgress]. *)
Definition updateProgress (r : t) (e : ProgressEvent) : t :=
  mk (loader r) (aborted r) (shouldIgnoreErrors r) (lengthComputable e)
     (total e) (loaded e) (complete r) (status r) (xhr r).

(** [xhr.onloadstart] *)
Definition onloadstart (r : t) (e : ProgressEvent) : t := updateProgress r e.

(** [xhr.onloadend] *)
Definition onloadend (r : t) (e : ProgressEvent) : t :=
  updateProgress
    (mk (loader r) (aborted r) (shouldIgnoreErrors r) (workComputable r)
        (totalWork r) (completedWork r) true (status r) false) e.

End Request.

Module Img.

(** The fields of an [Img], without its [src]. *)
Record t := mk {
  loader : loader_slot;
  aborted : bool;
  complete : bool
}.

Definition new : t := mk LUndefined false false.

Definition isComplete (i : t) : bool := complete i.
Definition setLoader (s : loader_slot) (i : t) : t := mk s (aborted i) (complete i).

(** [Retry.abort], inherited. *)
Definition abort (i : t) : t := mk (loader i) true (complete i).

(** [image.onload] *)
Definition onload (i : t) : t := mk (loader i) (aborted i) true.

End Img.

Module Manual.

(** The fields of a [Manual]; its [aborted] is a field of its own, not
    the one of [Retry]. *)
Record t := mk {
  loader : loader_slot;
  complete : bool;
  aborted : bool
}.

Definition new : t := mk LUndefined false false.

Definition isComplete (m : t) : bool := complete m.
Definition setLoader (s : loader_slot) (m : t) : t := mk s (complete m) (aborted m).
Definition abort (m : t) : t := mk (loader m) (complete m) true.

(** The field update of [markComplete()]. *)
Definition markComplete (m : t) : t := mk (loader m) true (aborted m).

End Manual.

(** The concrete classes implementing [Task] ([PromiseTask] is a [Manual]
    that marks itself complete when its promise resolves). *)
Inductive task :=
| TRequest (r : Request.t)
| TImg (i : Img.t)
| TManual (m : Manual.t).

(** The [Task] interface, dispatched on the class of the object. *)
Module Task.

Definition isComplete (T : task) : bool :=
  match T with
  | TRequest r => Request.isComplete r
  | TImg i => Img.isComplete i
  | TManual m => Manual.isComplete m
  end.

Definition getLoader (T : task) : loader_slot :=
  match T with
  | TRequest r => Request.loader r
  | TImg i => Img.loader i
  | TManual m => Manual.loader m
  end.

Definition setLoader (s : loader_slot) (T : task) : task :=
  match T with
  | TRequest r => TRequest (Request.setLoader s r)
  | TImg i => TImg (Img.setLoader s i)
  | TManual m => TManual (Manual.setLoader s m)
  end.

(** [abort()], with whether it reaches [xhr.abort()]. *)
Definition abort (T : task) : task * bool :=
  match T with
  | TRequest r => (TRequest (Request.abort r).1, (Request.abort r).2)
  | TImg i => (TImg (Img.abort i), false)
  | TManual m => (TManual (Manual.abort m), false)
  end.

End Task.

(** ** Loader *)

(** The fields of a [Loader]. *)
Record loader := mkLoader {
  _tasks : list ref;
  aborted : bool;
  error : bool
}.

(** What the classes do to the outside: the calls of the overridable
    [onprogress] hook, the calls of [abort()] on tasks, and the calls of
    [xhr.abort()]. *)
Inductive effect :=
| EProgress (l : ref) (progress : Q)
| EAbortCalled (t : ref)
| EXhrAbort (t : ref).

(** The store: every task and every loader allocated so far, and the
    effects performed so far. *)
Record heap := mkHeap {
  tasks : gmap nat task;
  loaders : gmap nat loader;
  effects : list effect
}.

Definition empty_heap : heap := mkHeap ∅ ∅ [].

Definition set_task (t : ref) (T : task) (h : heap) : heap :=
  mkHeap (<[t := T]> (tasks h)) (loaders h) (effects h).

Definition set_loader (l : ref) (L : loader) (h : heap) : heap :=
  mkHeap (tasks h) (<[l := L]> (loaders h)) (effects h).

Definition emit (e : effect) (h : heap) : heap :=
  mkHeap (tasks h) (loaders h) (effects h ++ [e]).

(** [task.isComplete()] through a reference. *)
Definition isComplete_at (h : heap) (t : ref) : bool :=
  match tasks h !! t with
  | Some T => Task.isComplete T
  | None => false
  end.

(** [for (const task of tasks) f(task)] *)
Fixpoint for_each (f : ref → heap → option heap) (ts : list ref) (h : heap)
  : option heap :=
  match ts with
  | [] => Some h
  | t :: ts' =>
      match f t h with
      | Some h' => for_each f ts' h'
      | None => None
      end
  end.

(** [task.abort()] through a reference, as far as the call of
    [xhr.abort()], which is recorded; the [abort] and [loadend] events
    that this call makes the browser dispatch are events of their own,
    [XhrAbort] and [XhrLoadEnd] below. *)
Definition task_abort (t : ref) (h : heap) : option heap :=
  match tasks h !! t with
  | Some T =>
      let h1 := set_task t (Task.abort T).1 (emit (EAbortCalled t) h) in
      Some (if (Task.abort T).2 then emit (EXhrAbort t) h1 else h1)
  | None => None
  end.

(** [task.setLoader(s)] through a reference. *)
Definition task_setLoader (s : loader_slot) (t : ref) (h : heap) : option heap :=
  match tasks h !! t with
  | Some T => Some (set_task t (Task.setLoader s T) h)
  | None => None
  end.

Module Loader.

Definition new : loader := mkLoader [] false false.

Definition finishedTasks (h : heap) (L : loader) : nat :=
  fold_left (λ finished t, if isComplete_at h t then S finished else finished)
            (_tasks L) 0%nat.

Definition calculateProgress (h : heap) (L : loader) : Q :=
  if aborted L then 1%Q
  else
    let totalTasks := length (_tasks L) in
    if (totalTasks =? 0)%nat then 0%Q
    else (inject_Z (Z.of_nat (finishedTasks h L))
          / inject_Z (Z.of_nat totalTasks))%Q.

(** [onprogress] is the empty hook that consumers override; the call is
    recorded. *)
Definition updateProgress (l : ref) (h : heap) : option heap :=
  match loaders h !! l with
  | Some L =>
      if error L then Some h
      else Some (emit (EProgress l (calculateProgress h L)) h)
  | None => None
  end.

Definition resetTasks (l : ref) (h : heap) : option heap :=
  match loaders h !! l with
  | Some L => updateProgress l (set_loader l (mkLoader [] (aborted L) (error L)) h)
  | None => None
  end.

Definition addTask (l t : ref) (h : heap) : option heap :=
  match loaders h !! l with
  | Some L =>
      task_setLoader (LRef l) t
        (set_loader l (mkLoader (_tasks L ++ [t]) (aborted L) (error L)) h)
  | None => None
  end.

Definition abort (l : ref) (h : heap) : option heap :=
  match loaders h !! l with
  | Some L =>
      for_each task_abort (_tasks L)
        (set_loader l (mkLoader (_tasks L) true (error L)) h)
  | None => None
  end.

Definition cleanup (l : ref) (h : heap) : option heap :=
  match loaders h !! l with
  | Some L =>
      match for_each (task_setLoader LNull) (_tasks L) h with
      | Some h' => Some (set_loader l (mkLoader [] (aborted L) (error L)) h')
      | None => None
      end
  | None => None
  end.

End Loader.

(** [AbstractTask.updateLoaderProgress], for a task whose [loader] field
    holds [s]. Calling a method of [null] or [undefined] would throw. *)
Definition updateLoaderProgress (s : loader_slot) (h : heap) : option heap :=
  match truthy s with
  | Some l => Loader.updateProgress l h
  | None => Some h
  end.

(** ** The event loop *)

(** Everything that can happen to the store: allocations, the calls a
    consumer makes on a loader or a task, and the callbacks fired by the
    browser for a transfer or an image.  [SetError] is a consumer writing
    the public [error] field, which no method writes; [StartLoad] is one
    call of [Request._load]; [MarkComplete] is also what a [PromiseTask]
    does when its promise resolves. *)
Inductive event :=
| NewLoader (l : ref)
| NewRequest (t : ref)
| NewImg (t : ref)
| NewManual (t : ref)
| AddTask (l t : ref)
| ResetTasks (l : ref)
| Abort (l : ref)
| Cleanup (l : ref)
| UpdateProgress (l : ref)
| SetError (l : ref) (b : bool)
| AbortTask (t : ref)
| MarkComplete (t : ref)
| ImgOnload (t : ref)
| IgnoreErrors (t : ref)
| StartLoad (t : ref)
| XhrLoadStart (t : ref) (e : ProgressEvent)
| XhrLoad (t : ref) (xhr_status xhr_response : Z)
| XhrError (t : ref)
| XhrAbort (t : ref)
| XhrLoadEnd (t : ref) (e : ProgressEvent).

Definition alloc_task (t : ref) (T : task) (h : heap) : option heap :=
  match tasks h !! t with
  | Some _ => None
  | None => Some (set_task t T h)
  end.

Definition with_request (t : ref) (h : heap)
    (k : Request.t → option heap) : option heap :=
  match tasks h !! t with
  | Some (TRequest r) => k r
  | _ => None
  end.

(** One turn of the event loop; [None] when the event cannot happen in
    this store (unknown reference, object of another class). *)
Definition step (h : heap) (ev : event) : option heap :=
  match ev with
  | NewLoader l =>
      match loaders h !! l with
      | Some _ => None
      | None => Some (set_loader l Loader.new h)
      end
  | NewRequest t => alloc_task t (TRequest Request.new) h
  | NewImg t => alloc_task t (TImg Img.new) h
  | NewManual t => alloc_task t (TManual Manual.new) h
  | AddTask l t => Loader.addTask l t h
  | ResetTasks l => Loader.resetTasks l h
  | Abort l => Loader.abort l h
  | Cleanup l => Loader.cleanup l h
  | UpdateProgress l => Loader.updateProgress l h
  | SetError l b =>
      match loaders h !! l with
      | Some L => Some (set_loader l (mkLoader (_tasks L) (aborted L) b) h)
      | None => None
      end
  | AbortTask t => task_abort t h
  | MarkComplete t =>
      match tasks h !! t with
      | Some (TManual m) =>
          let m' := Manual.markComplete m in
          updateLoaderProgress (Manual.loader m') (set_task t (TManual m') h)
      | _ => None
      end
  | ImgOnload t =>
      match tasks h !! t with
      | Some (TImg i) =>
          let i' := Img.onload i in
          updateLoaderProgress (Img.loader i') (set_task t (TImg i') h)
      | _ => None
      end
  | IgnoreErrors t =>
      with_request t h (λ r, Some (set_task t (TRequest (Request.ignoreErrors r)) h))
  | StartLoad t =>
      with_request t h (λ r, Some (set_task t (TRequest (Request._load r).1) h))
  | XhrLoadStart t e =>
      with_request t h (λ r,
        let r' := Request.onloadstart r e in
        updateLoaderProgress (Request.loader r') (set_task t (TRequest r') h))
  | XhrLoad t xhr_status xhr_response =>
      with_request t h (λ r,
        Some (set_task t (TRequest (Request.onload r xhr_status xhr_response).1) h))
  | XhrError t =>
      with_request t h (λ r, Some (set_task t (TRequest (Request.onerror r).1) h))
  | XhrAbort t =>
      with_request t h (λ r, Some (set_task t (TRequest (Request.onabort r).1) h))
  | XhrLoadEnd t e =>
      with_request t h (λ r,
        let r' := Request.onloadend r e in
        updateLoaderProgress (Request.loader r') (set_task t (TRequest r') h))
  end.

Fixpoint exec (h : heap) (evs : list event) : option heap :=
  match evs with
  | [] => Some h
  | ev :: evs' =>
      match step h ev with
      | Some h' => exec h' evs'
      | None => None
      end
  end.

(** The tasks on which [abort()] was called, in call order. *)
Fixpoint abort_calls (es : list effect) : list ref :=
  match es with
  | [] => []
  | EAbortCalled t :: es' => t :: abort_calls es'
  | _ :: es' => abort_calls es'
  end.

(** The values passed to the [onprogress] hook of loader [l], in order. *)
Fixpoint notifications (l : ref) (es : list effect) : list Q :=
  match es with
  | [] => []
  | EProgress l' p :: es' =>
      if (l' =? l)%nat then p :: notifications l es' else notifications l es'
  | _ :: es' => notifications l es'
  end.

(** * Specification vocabulary *)

Section ThrottlerVocabulary.
Import Throttler.

(** What every reachable state of a throttler with limit [m] satisfies:
    the counter is the number of pending promises, it stays below the
    limit, and an operation only waits in the queue when every slot is
    taken. *)
Definition throttler_inv (m : Z) (w : t) : Prop :=
  maxConcurrentTasks w = m ∧
  concurrentTasks w = Z.of_nat (length (inflight w)) ∧
  concurrentTasks w <= Z.max 0 m ∧
  (queue w ≠ [] → m <= concurrentTasks w).

(** With a single slot the promises settle in invocation order. *)
Definition serial (w : t) : Prop :=
  started w = (completed w).*1 ++ inflight w.

End ThrottlerVocabulary.

Section RetryVocabulary.
Import Retry.

(** The delays slept after the failures of iterations [i .. i+j-1]. *)
Definition delays (e : env) (i j : nat) : list Q :=
  (λ k, retryIn k (random e k)) <$> seq i j.

(** Iterations [i .. i+j-1] all fail, and the flag is not raised before
    any of these failures is caught: not while the call is awaited, and
    not during the sleep that precedes a later one of them. *)
Definition fail_unaborted (e : env) (i j : nat) : Prop :=
  ∀ k, (k < j)%nat →
    ∃ err, handle e (i + k) = Err err ∧
           abort_during_attempt e (i + k) = false ∧
           ((S k < j)%nat → abort_during_sleep e (i + k) = false).

(** What iteration [k] does when its call fails with [err] and the flag
    is unset: the call, the warning, then the sleep. *)
Definition failed_round (e : env) (k : nat) (err : error) : list effect :=
  [CallHandle k;
   Warn (k + 1) (retryIn k (random e k)) err;
   Sleep (retryIn k (random e k))].

(** What iterations [i .. i+j-1] do when each of them fails with the
    flag unset: one round after the other. *)
Fixpoint failed_rounds (e : env) (i j : nat) : list effect :=
  match j with
  | O => []
  | S j' =>
      match handle e i with
      | Err err => failed_round e i err
      | Ok _ => []
      end ++ failed_rounds e (S i) j'
  end.

End RetryVocabulary.

Section LoaderVocabulary.
Local Open Scope nat_scope.

(** Two stores agree on which tasks exist and which are complete. *)
Definition same_completion (h h' : heap) : Prop :=
  ∀ t, Task.isComplete <$> tasks h' !! t = Task.isComplete <$> tasks h !! t.

(** The [shouldIgnoreErrors] field of a task, when it is a request. *)
Definition ignore_flag (T : task) : option bool :=
  match T with
  | TRequest r => Some (Request.shouldIgnoreErrors r)
  | _ => None
  end.

(** Two stores hold the same requests with the same [shouldIgnoreErrors]. *)
Definition same_flags (h h' : heap) : Prop :=
  ∀ t, ignore_flag <$> tasks h' !! t = ignore_flag <$> tasks h !! t.

(** Tasks are never deallocated and never become incomplete again. *)
Definition completion_grows (h h' : heap) : Prop :=
  ∀ t T, tasks h !! t = Some T →
    ∃ T', tasks h' !! t = Some T' ∧
          (Task.isComplete T = true → Task.isComplete T' = true).

(** The task list of loader [l] after event [ev]. *)
Definition next_tasks (ev : event) (l : ref) (ts : list ref) : list ref :=
  match ev with
  | AddTask l' t => if l' =? l then ts ++ [t] else ts
  | ResetTasks l' | Cleanup l' => if l' =? l then [] else ts
  | _ => ts
  end.

(** Every reference held in a task list names an allocated task. *)
Definition valid_refs (h : heap) : Prop :=
  ∀ l L t, loaders h !! l = Some L → t ∈ _tasks L → is_Some (tasks h !! t).

(** The tasks on which [abort()] was called between two stores. *)
Definition new_abort_calls (h h' : heap) : list ref :=
  drop (length (abort_calls (effects h))) (abort_calls (effects h')).

(** One call of [abort()] on loader [l] calls [abort()] exactly once on
    every task registered at that moment. *)
Definition aborts_each_once (h : heap) (l : ref) : Prop :=
  ∀ L h', loaders h !! l = Some L → Loader.abort l h = Some h' →
    ∀ t, t ∈ _tasks L → count_occ Nat.eq_dec (new_abort_calls h h') t = 1.

(** A loader to which the same [Manual] task was added twice. *)
Definition twice_registered : heap :=
  mkHeap {[1 := TManual (Manual.mk (LRef 0) false false)]}
         {[0 := mkLoader [1; 1] false false]} [].

(** Event [ev] never lowers the progress computed by any loader. *)
Definition never_lowers_progress (ev : event) : Prop :=
  ∀ h h' l L L',
    step h ev = Some h' → loaders h !! l = Some L → loaders h' !! l = Some L' →
    (Loader.calculateProgress h L <= Loader.calculateProgress h' L')%Q.

(** A loader whose only task is complete, and a second task not yet
    registered. *)
Definition one_done : heap :=
  mkHeap {[1 := TManual (Manual.mk (LRef 0) true false);
           2 := TManual Manual.new]}
         {[0 := mkLoader [1] false false]} [EProgress 0 1%Q].

(** Some task in the list of [L] is complete: the progress computed by
    [L], when it is not aborted, is positive. *)
Definition some_complete (h : heap) (L : loader) : bool :=
  existsb (isComplete_at h) (_tasks L).

(** The events that lower the progress of a loader, judged in the store
    in which they happen: on a loader that is not aborted and lists a
    complete task, [resetTasks] and [cleanup], which empty the list, and
    the registration of a task that is not complete, which lengthens
    it. *)
Definition lowers_progress (h : heap) (ev : event) : bool :=
  match ev with
  | ResetTasks l | Cleanup l =>
      match loaders h !! l with
      | Some L => negb (aborted L) && some_complete h L
      | None => false
      end
  | AddTask l t =>
      match loaders h !! l with
      | Some L => negb (aborted L) && some_complete h L && negb (isComplete_at h t)
      | None => false
      end
  | _ => false
  end.

(** Every other event keeps the progress: completions, progress
    updates, [abort()], and also [resetTasks], [cleanup] and any
    registration on a loader that is aborted or lists no complete task,
    and the registration of a complete task. *)
Definition keeps_progress (h : heap) (ev : event) : bool :=
  negb (lowers_progress h ev).

(** Every event of the trace keeps the progress, each judged in the
    store in which it happens. *)
Fixpoint steady (h : heap) (evs : list event) : bool :=
  match evs with
  | [] => true
  | ev :: evs' =>
      keeps_progress h ev &&
      match step h ev with
      | Some h' => steady h' evs'
      | None => true
      end
  end.

(** C9 as stated: once [cleanup()] has run on a loader, no task that
    was ever registered on it still refers to it. *)
Definition detaches_every_registered : Prop :=
  ∀ evs h h' l t T,
    exec empty_heap evs = Some h → AddTask l t ∈ evs →
    step h (Cleanup l) = Some h' → tasks h' !! t = Some T →
    Task.getLoader T ≠ LRef l.

(** The callbacks through which a task of each class reports progress
    to its loader. *)
Definition progress_events (t : ref) (T : task) (e : ProgressEvent) : list event :=
  match T with
  | TRequest _ => [XhrLoadStart t e; XhrLoadEnd t e]
  | TImg _ => [ImgOnload t]
  | TManual _ => [MarkComplete t]
  end.

End LoaderVocabulary.

(** ** Request.load *)

(** [Request.load] runs [this.try(() => this._load())] (under the
    throttler): the loop of [Retry.try] with [_load] as its [handle].
    The flag that [try] tests after a failure is the [aborted] field that
    [_load] tests before sending and that [onabort] raises. *)
Module Load.

(** How the browser ends a transfer that was sent: with a response, with
    a network error, or aborted (by itself or through [xhr.abort()],
    which [Request.abort] calls on a transfer in flight). *)
Inductive transfer_end :=
| Loaded (xhr_status xhr_response : Z)
| Errored
| Aborted.

(** What one call of [_load] on a request that is not aborted runs
    into.  Either [xhr.open] throws, as it does on a URL that cannot be
    parsed: the exception leaves the promise executor before
    [this.xhr = xhr], so the promise of the attempt is rejected with it,
    the request is left as it was, nothing is sent and no event fires.
    Or the transfer is sent, and ends.  After [open] has returned, the
    other statements of the executor (the assignments and [send()] on
    an asynchronous request just opened) do not throw. *)
Inductive course :=
| OpenThrows
| Sent (x : transfer_end).

(** Everything one [load] meets from outside in iteration [i]: the
    course of its [_load], the progress events of [loadstart] and
    [loadend], whether [abort()] is called during the backoff sleep, and
    the number drawn by [Math.random()]. *)
Record env := {
  courses : nat → course;
  at_loadstart : nat → ProgressEvent;
  at_loadend : nat → ProgressEvent;
  abort_during_sleep : nat → bool;
  random : nat → Q
}.

(** The errors with which the promise of one [_load] is rejected: those
    passed to [reject], and the exception thrown by [xhr.open]. *)
Inductive failure :=
| Rejected (f : Request.failure)
| OpenError.

Inductive settlement :=
| Resolve (response : Z)
| Reject (f : failure).

Definition settle (a : Request.attempt) : settlement :=
  match a with
  | Request.Resolve response => Resolve response
  | Request.Reject f => Reject (Rejected f)
  end.

(** One call of [_load], from the test of [aborted] to [loadend]: the
    request once the transfer, if any, has ended, and how the promise of
    the attempt settled.  The handlers run in the order of the events:
    [loadstart], then one of [load], [error] and [abort], then [loadend];
    [loadend] does not touch the [aborted] flag that [try] reads. *)
Definition handle (r : Request.t) (c : course) (e0 e1 : ProgressEvent)
  : Request.t * settlement :=
  match Request._load r with
  | (r0, Some a) => (r0, settle a)
  | (r0, None) =>
      match c with
      | OpenThrows => (r, Reject OpenError)
      | Sent x =>
          let r1 := Request.onloadstart r0 e0 in
          let '(r2, a) :=
            match x with
            | Loaded xhr_status xhr_response =>
                Request.onload r1 xhr_status xhr_response
            | Errored => Request.onerror r1
            | Aborted => Request.onabort r1
            end in
          (Request.onloadend r2 e1, settle a)
      end
  end.

Inductive outcome :=
| Resolved (response : Z)
| Thrown (f : option failure).

Inductive effect :=
| Send (i : nat)
| Sleep (ms : Q).

(** Whether [xhr.send()] is reached. *)
Definition sent (c : course) : bool :=
  match c with
  | Sent _ => true
  | OpenThrows => false
  end.

(** The loop of [try] with [n] iterations left, at index [i], on request
    [r]; a transfer is sent unless [_load] finds the request aborted or
    [xhr.open] throws. *)
Fixpoint attempts (e : env) (n i : nat) (lastErr : option failure)
    (r : Request.t) (log : list effect) : outcome * Request.t * list effect :=
  match n with
  | O => (Thrown lastErr, r, log)
  | S n' =>
      let log1 :=
        if negb (Request.aborted r) && sent (courses e i)
        then log ++ [Send i] else log in
      let '(r1, a) := handle r (courses e i) (at_loadstart e i) (at_loadend e i) in
      match a with
      | Resolve response => (Resolved response, r1, log1)
      | Reject f =>
          if Request.aborted r1 then (Thrown (Some f), r1, log1)
          else
            let d := Retry.retryIn i (random e i) in
            let r2 := if abort_during_sleep e i then (Request.abort r1).1 else r1 in
            attempts e n' (S i) (Some f) r2 (log1 ++ [Sleep d])
      end
  end.

Definition load (e : env) (r : Request.t) : outcome * Request.t * list effect :=
  attempts e Retry.MAX_ATTEMPST 0 None r [].

(** The iterations in which a transfer was sent, in order. *)
Fixpoint sends (l : list effect) : list nat :=
  match l with
  | [] => []
  | Send i :: l' => i :: sends l'
  | _ :: l' => sends l'
  end.

(** The backoff delays slept, in order. *)
Fixpoint sleeps (l : list effect) : list Q :=
  match l with
  | [] => []
  | Sleep d :: l' => d :: sleeps l'
  | _ :: l' => sleeps l'
  end.

End Load.

(** ** Img.load *)

(** [Img.load] runs [this.try(() => this._load())] as well, but its
    [_load] does not look at [aborted]: every call creates an [Image]
    and, in a timeout, assigns its [src]. *)
Module ImgLoad.

(** What one [load] meets from outside in iteration [i]: whether the
    image requested fires [load] (or else [error]), whether [abort()] is
    called while it is awaited or during the backoff sleep, and the
    number drawn by [Math.random()]. *)
Record env := {
  loads : nat → bool;
  abort_during_attempt : nat → bool;
  abort_during_sleep : nat → bool;
  random : nat → Q
}.

(** The only rejection of [_load]: "Failed to load image". *)
Inductive failure := ImageError.

Inductive outcome :=
| Resolved
| Thrown (f : option failure).

Inductive effect :=
| Fetch (i : nat)
| Sleep (ms : Q).

(** One call of [_load] awaited: [image.onload] marks the task complete
    and resolves, [image.onerror] only rejects. *)
Definition handle (im : Img.t) (ok : bool) : Img.t * bool :=
  if ok then (Img.onload im, true) else (im, false).

(** The loop of [try] with [n] iterations left, at index [i]. *)
Fixpoint attempts (e : env) (n i : nat) (lastErr : option failure)
    (im : Img.t) (log : list effect) : outcome * Img.t * list effect :=
  match n with
  | O => (Thrown lastErr, im, log)
  | S n' =>
      let log1 := log ++ [Fetch i] in
      let im0 := if abort_during_attempt e i then Img.abort im else im in
      let '(im1, ok) := handle im0 (loads e i) in
      if ok then (Resolved, im1, log1)
      else if Img.aborted im1 then (Thrown (Some ImageError), im1, log1)
      else
        let d := Retry.retryIn i (random e i) in
        let im2 := if abort_during_sleep e i then Img.abort im1 else im1 in
        attempts e n' (S i) (Some ImageError) im2 (log1 ++ [Sleep d])
  end.

Definition load (e : env) (im : Img.t) : outcome * Img.t * list effect :=
  attempts e Retry.MAX_ATTEMPST 0 None im [].

(** The iterations in which an image was requested, in order. *)
Fixpoint fetches (l : list effect) : list nat :=
  match l with
  | [] => []
  | Fetch i :: l' => i :: fetches l'
  | _ :: l' => fetches l'
  end.

(** The backoff delays slept, in order. *)
Fixpoint sleeps (l : list effect) : list Q :=
  match l with
  | [] => []
  | Sleep d :: l' => d :: sleeps l'
  | _ :: l' => sleeps l'
  end.

End ImgLoad.

(** * Further vocabulary *)

Section RetryBudget.
Import Retry.

(** The sum of a list of delays. *)
Definition total_delay (l : list Q) : Q := fold_right Qplus 0%Q l.

(** The longest that [n] backoff sleeps can take from iteration [i] on:
    [2^k * 500 + 50] ms for each iteration [k]. *)
Fixpoint backoff_budget (n i : nat) : Q :=
  match n with
  | O => 0%Q
  | S n' => (inject_Z (2 ^ Z.of_nat i) * 500 + 50 + backoff_budget n' (S i))%Q
  end.

End RetryBudget.

Section StoreVocabulary.
Local Open Scope nat_scope.

(** A change of the fields of a request, an image or a manual task,
    applied to a task of that class and to no other. *)
Definition on_request (f : Request.t → Request.t) (T : task) : task :=
  match T with
  | TRequest r => TRequest (f r)
  | _ => T
  end.

Definition on_img (f : Img.t → Img.t) (T : task) : task :=
  match T with
  | TImg i => TImg (f i)
  | _ => T
  end.

Definition on_manual (f : Manual.t → Manual.t) (T : task) : task :=
  match T with
  | TManual m => TManual (f m)
  | _ => T
  end.

(** What event [ev], happening in store [h], does to the task [T] held
    at reference [t]. *)
Definition task_after (h : heap) (ev : event) (t : ref) (T : task) : task :=
  match ev with
  | AddTask l t0 => if decide (t0 = t) then Task.setLoader (LRef l) T else T
  | Abort l =>
      match loaders h !! l with
      | Some L => if bool_decide (t ∈ _tasks L) then (Task.abort T).1 else T
      | None => T
      end
  | Cleanup l =>
      match loaders h !! l with
      | Some L => if bool_decide (t ∈ _tasks L) then Task.setLoader LNull T else T
      | None => T
      end
  | AbortTask t0 => if decide (t0 = t) then (Task.abort T).1 else T
  | MarkComplete t0 =>
      if decide (t0 = t) then on_manual Manual.markComplete T else T
  | ImgOnload t0 => if decide (t0 = t) then on_img Img.onload T else T
  | IgnoreErrors t0 =>
      if decide (t0 = t) then on_request Request.ignoreErrors T else T
  | StartLoad t0 =>
      if decide (t0 = t) then on_request (λ r, (Request._load r).1) T else T
  | XhrLoadStart t0 e =>
      if decide (t0 = t) then on_request (λ r, Request.onloadstart r e) T else T
  | XhrLoad t0 xhr_status xhr_response =>
      if decide (t0 = t)
      then on_request (λ r, (Request.onload r xhr_status xhr_response).1) T
      else T
  | XhrError t0 =>
      if decide (t0 = t) then on_request (λ r, (Request.onerror r).1) T else T
  | XhrAbort t0 =>
      if decide (t0 = t) then on_request (λ r, (Request.onabort r).1) T else T
  | XhrLoadEnd t0 e =>
      if decide (t0 = t) then on_request (λ r, Request.onloadend r e) T else T
  | _ => T
  end.

(** The loader whose [updateProgress] event [ev] runs, if any: the one
    named by the call, or the one found in the [loader] field of the task
    whose callback fires. *)
Definition notified (h : heap) (ev : event) : option ref :=
  match ev with
  | UpdateProgress l | ResetTasks l => Some l
  | MarkComplete t | ImgOnload t | XhrLoadStart t _ | XhrLoadEnd t _ =>
      match tasks h !! t with
      | Some T => truthy (Task.getLoader T)
      | None => None
      end
  | _ => None
  end.

(** What [updateProgress] of loader [l] passes to the hook in store [h]:
    nothing when [error] is set, else the progress computed there. *)
Definition report (h : heap) (l : ref) : list Q :=
  match loaders h !! l with
  | Some L => if error L then [] else [Loader.calculateProgress h L]
  | None => []
  end.

(** The [aborted] flag of a task, whichever class declares it. *)
Definition task_aborted (T : task) : bool :=
  match T with
  | TRequest r => Request.aborted r
  | TImg i => Img.aborted i
  | TManual m => Manual.aborted m
  end.

(** The calls of [xhr.abort()], in call order. *)
Fixpoint xhr_aborts (es : list effect) : list ref :=
  match es with
  | [] => []
  | EXhrAbort t :: es' => t :: xhr_aborts es'
  | _ :: es' => xhr_aborts es'
  end.

(** Whether reference [t] holds a request with a transfer in [this.xhr]. *)
Definition transfer_in_flight (h : heap) (t : ref) : bool :=
  match tasks h !! t with
  | Some (TRequest r) => Request.xhr r
  | _ => false
  end.

(** What event [ev] does to the loader [L] held at reference [l]. *)
Definition loader_after (ev : event) (l : ref) (L : loader) : loader :=
  match ev with
  | AddTask l0 t =>
      if decide (l0 = l) then mkLoader (_tasks L ++ [t]) (aborted L) (error L) else L
  | ResetTasks l0 | Cleanup l0 =>
      if decide (l0 = l) then mkLoader [] (aborted L) (error L) else L
  | Abort l0 =>
      if decide (l0 = l) then mkLoader (_tasks L) true (error L) else L
  | SetError l0 b =>
      if decide (l0 = l) then mkLoader (_tasks L) (aborted L) b else L
  | _ => L
  end.

(** The callback that completes a task of each class. *)
Definition completion_event (t : ref) (T : task) (e : ProgressEvent) : event :=
  match T with
  | TRequest _ => XhrLoadEnd t e
  | TImg _ => ImgOnload t
  | TManual _ => MarkComplete t
  end.

(** A progress value that a hook may receive. *)
Definition in_unit_interval (p : Q) : Prop := (0 <= p <= 1)%Q.

(** What the work getters of a request return. *)
Definition work (r : Request.t) : bool * Z * Z :=
  (Request.isWorkComputable r, Request.getTotalWork r, Request.getCompletedWork r).

(** [step] takes the handlers one by one: [AbortTask] and [Abort] stop
    where [xhr.abort()] is called, and the [abort] and [loadend] events
    that this call makes the browser dispatch are the events [XhrAbort]
    and [XhrLoadEnd].  The browser dispatches them before [xhr.abort()]
    returns, when the transfer has been sent and has not ended; it
    dispatches nothing when the transfer has ended and only its
    [loadend] is still to come.  [this.xhr] is assigned in the same turn
    in which [xhr.send()] is called, so a transfer found there by
    another turn has been sent.  The definitions below put a call
    together with what it dispatches: they give the store that the
    caller of [abort()] finds when the call returns. *)

(** [task.abort()] from call to return.  [fires] is what [xhr.abort()],
    when it is called, makes the browser dispatch: [Some e] for [abort]
    followed by [loadend] with the event [e], [None] for nothing. *)
Definition abort_call (fires : option ProgressEvent) (t : ref) (h : heap)
  : option heap :=
  match step h (AbortTask t) with
  | Some h1 =>
      match fires with
      | Some e =>
          if transfer_in_flight h t
          then
            match step h1 (XhrAbort t) with
            | Some h2 => step h2 (XhrLoadEnd t e)
            | None => None
            end
          else Some h1
      | None => Some h1
      end
  | None => None
  end.

(** [Loader.abort()] from call to return: the loop of [Loader.abort]
    with every [task.abort()] run to its return. *)
Definition loader_abort_call (fires : ref → option ProgressEvent) (l : ref)
    (h : heap) : option heap :=
  match loaders h !! l with
  | Some L =>
      for_each (λ t, abort_call (fires t) t) (_tasks L)
        (set_loader l (mkLoader (_tasks L) true (error L)) h)
  | None => None
  end.

(** What a returned [abort()] leaves of a task: the raised flag, and for
    a request whose transfer was ended by [xhr.abort()] also what
    [onabort] and [onloadend] did. *)
Definition aborted_task (fires : option ProgressEvent) (T : task) : task :=
  match T, fires with
  | TRequest r, Some e =>
      if Request.xhr r
      then TRequest (Request.onloadend (Request.onabort (Request.abort r).1).1 e)
      else (Task.abort T).1
  | _, _ => (Task.abort T).1
  end.

Definition fired (fires : option ProgressEvent) : bool :=
  match fires with
  | Some _ => true
  | None => false
  end.

(** The entries of a task list at which [Loader.abort] reaches
    [xhr.abort()]: those whose request holds a transfer when its turn
    comes, that is, held one when the loop began and has not had it
    ended at an earlier entry, [seen] being the entries gone through. *)
Fixpoint xhr_abort_targets (fires : ref → option ProgressEvent) (h : heap)
    (seen ts : list ref) : list ref :=
  match ts with
  | [] => []
  | t :: ts' =>
      (if transfer_in_flight h t && negb (bool_decide (t ∈ seen) && fired (fires t))
       then [t] else [])
      ++ xhr_abort_targets fires h (t :: seen) ts'
  end.

(** The [loader] field of every task that has one names an allocated
    loader. *)
Definition bound_loaders (h : heap) : Prop :=
  ∀ t T l, tasks h !! t = Some T → Task.getLoader T = LRef l →
    is_Some (loaders h !! l).

End StoreVocabulary.

Section LoadVocabulary.


(** [onload] accepts a response with this status on request [r]. *)
Definition accepted (r : Request.t) (xhr_status : Z) : Prop :=
  xhr_status = 0 ∨ xhr_status = 200 ∨ Request.shouldIgnoreErrors r = true.


End LoadVocabulary.

(** * Properties *)

Section ThrottlerProperties.
Import Throttler.

(** One slot, three submissions, the first fails: completion follows
    submission order and the failure hands the slot to the next one. *)
Example throttler_single_slot :
  exec (create 1)
    [Run 1%nat; Run 2%nat; Run 3%nat; Settle 1%nat (Failed 7);
     Settle 2%nat (Fulfilled 8); Settle 3%nat (Fulfilled 9)] =
  Some (mk 1 0 [] [] [1%nat; 2%nat; 3%nat]
           [(1%nat, Failed 7); (2%nat, Fulfilled 8); (3%nat, Fulfilled 9)]).
Proof. reflexivity. Qed.

Example throttler_burst_of_three :
  exec (create 2) [Run 1%nat; Run 2%nat; Run 3%nat] =
  Some (mk 2 2 [3%nat] [1%nat; 2%nat] [1%nat; 2%nat] []).
Proof. reflexivity. Qed.

Lemma throttler_inv_create m : throttler_inv m (create m).
Proof. repeat split; simpl; try lia. intros H; contradiction. Qed.

Lemma remove_first_length f l :
  f ∈ l → length l = S (length (remove_first f l)).
Proof.
  induction l as [|g l IH]; intros Hin.
  - inversion Hin.
  - simpl. destruct (Nat.eqb_spec f g) as [->|Hne]; [reflexivity|].
    simpl. f_equal. apply IH.
    apply elem_of_cons in Hin as [?|?]; [contradiction|assumption].
Qed.

Lemma startNextTask_cases w :
  (queue w = [] ∧ startNextTask w = w) ∨
  (maxConcurrentTasks w <= concurrentTasks w ∧ startNextTask w = w) ∨
  (∃ q rest, queue w = q :: rest ∧
     concurrentTasks w < maxConcurrentTasks w ∧
     startNextTask w =
       mk (maxConcurrentTasks w) (concurrentTasks w + 1) rest
          (inflight w ++ [q]) (started w ++ [q]) (completed w)).
Proof.
  unfold startNextTask. destruct (queue w) as [|q rest] eqn:Hq; simpl.
  - left. split; reflexivity.
  - right. destruct (Z.geb_spec (concurrentTasks w) (maxConcurrentTasks w)).
    + left. split; [lia|reflexivity].
    + right. exists q, rest. split; [reflexivity|]. split; [lia|reflexivity].
Qed.

Lemma settled_cases f s w :
  (queue w = [] ∧
   settled f s w =
     mk (maxConcurrentTasks w) (concurrentTasks w - 1) (queue w)
        (remove_first f (inflight w)) (started w) (completed w ++ [(f, s)])) ∨
  (maxConcurrentTasks w <= concurrentTasks w - 1 ∧
   settled f s w =
     mk (maxConcurrentTasks w) (concurrentTasks w - 1) (queue w)
        (remove_first f (inflight w)) (started w) (completed w ++ [(f, s)])) ∨
  (∃ q rest, queue w = q :: rest ∧
     concurrentTasks w - 1 < maxConcurrentTasks w ∧
     settled f s w =
       mk (maxConcurrentTasks w) (concurrentTasks w - 1 + 1) rest
          (remove_first f (inflight w) ++ [q]) (started w ++ [q])
          (completed w ++ [(f, s)])).
Proof.
  unfold settled.
  destruct (startNextTask_cases
              (mk (maxConcurrentTasks w) (concurrentTasks w - 1) (queue w)
                  (remove_first f (inflight w)) (started w) (completed w)))
    as [[Hq ->]|[[Hfull ->]|(q & rest & Hq & Hlt & ->)]]; simpl in *.
  - left. split; [assumption|reflexivity].
  - right. left. split; [assumption|reflexivity].
  - right. right. exists q, rest. split; [assumption|]. split; [assumption|reflexivity].
Qed.

Lemma throttler_inv_step m w ev w' :
  throttler_inv m w → step w ev = Some w' → throttler_inv m w'.
Proof.
  intros (Hm & Hc & Hle & Hq) Hstep. destruct ev as [f|f s]; simpl in Hstep.
  - injection Hstep as <-. unfold run.
    destruct (Z.ltb_spec (concurrentTasks w) (maxConcurrentTasks w)) as [Hlt|Hge].
    + repeat split; simpl; try assumption.
      * rewrite length_app. simpl. lia.
      * lia.
      * intros Hne. specialize (Hq Hne). lia.
    + repeat split; simpl; try assumption. intros _. lia.
  - destruct (bool_decide_reflect (f ∈ inflight w)) as [Hin|]; [|discriminate].
    injection Hstep as <-.
    pose proof (remove_first_length _ _ Hin) as Hlen.
    destruct (settled_cases f s w) as [[Hq1 ->]|[[Hfull ->]|(q & rest & Hq1 & Hlt & ->)]];
      simpl in *.
    + repeat split; simpl; try assumption; try lia. intros Hne. contradiction.
    + lia.
    + repeat split; simpl; try assumption.
      * rewrite length_app. simpl. lia.
      * lia.
      * intros _. assert (queue w ≠ []) as Hne by (rewrite Hq1; discriminate).
        specialize (Hq Hne). lia.
Qed.

Lemma throttler_inv_exec m evs : ∀ w w',
  throttler_inv m w → exec w evs = Some w' → throttler_inv m w'.
Proof.
  induction evs as [|ev evs IH]; intros w w' Hinv Hex; simpl in Hex.
  - injection Hex as <-. assumption.
  - destruct (step w ev) as [w1|] eqn:Hstep; [|discriminate].
    eapply IH; [|eassumption]. eapply throttler_inv_step; eassumption.
Qed.

(** Operations are invoked in the order in which they were submitted:
    the invocation log followed by the queue is the submission log. *)
Lemma throttler_fifo_step m w ev w' :
  throttler_inv m w → step w ev = Some w' →
  started w' ++ queue w' = (started w ++ queue w) ++ submitted [ev].
Proof.
  intros (Hm & Hc & Hle & Hq) Hstep. destruct ev as [f|f s]; simpl in Hstep.
  - injection Hstep as <-. unfold run.
    destruct (Z.ltb_spec (concurrentTasks w) (maxConcurrentTasks w)) as [Hlt|Hge]; simpl.
    + destruct (queue w) as [|q rest] eqn:Hqw.
      * rewrite !app_nil_r. reflexivity.
      * assert (m <= concurrentTasks w) by (apply Hq; discriminate). lia.
    + rewrite app_assoc. reflexivity.
  - destruct (bool_decide_reflect (f ∈ inflight w)) as [Hin|]; [|discriminate].
    injection Hstep as <-.
    destruct (settled_cases f s w) as [[Hq1 ->]|[[Hfull ->]|(q & rest & Hq1 & Hlt & ->)]];
      simpl in *; rewrite ?app_nil_r; try reflexivity.
    rewrite Hq1. rewrite <- app_assoc. reflexivity.
Qed.

Lemma submitted_app evs1 evs2 :
  submitted (evs1 ++ evs2) = submitted evs1 ++ submitted evs2.
Proof.
  induction evs1 as [|[f|f s] evs1 IH]; simpl; [reflexivity| |assumption].
  rewrite IH. reflexivity.
Qed.

Lemma throttler_fifo_exec m evs : ∀ w w',
  throttler_inv m w → exec w evs = Some w' →
  started w' ++ queue w' = (started w ++ queue w) ++ submitted evs.
Proof.
  induction evs as [|ev evs IH]; intros w w' Hinv Hex; simpl in Hex.
  - injection Hex as <-. simpl. rewrite app_nil_r. reflexivity.
  - destruct (step w ev) as [w1|] eqn:Hstep; [|discriminate].
    rewrite (IH w1 w' (throttler_inv_step _ _ _ _ Hinv Hstep) Hex).
    rewrite (throttler_fifo_step _ _ _ _ Hinv Hstep).
    change (ev :: evs) with ([ev] ++ evs). rewrite submitted_app.
    rewrite <- !app_assoc. reflexivity.
Qed.

Lemma serial_step w ev w' :
  throttler_inv 1 w → serial w → step w ev = Some w' → serial w'.
Proof.
  unfold serial. intros (Hm & Hc & Hle & Hq) Hser Hstep.
  destruct ev as [f|f s]; simpl in Hstep.
  - injection Hstep as <-. unfold run.
    destruct (Z.ltb_spec (concurrentTasks w) (maxConcurrentTasks w)) as [Hlt|Hge]; simpl.
    + rewrite Hser. rewrite <- app_assoc. reflexivity.
    + assumption.
  - destruct (bool_decide_reflect (f ∈ inflight w)) as [Hin|]; [|discriminate].
    injection Hstep as <-.
    assert (inflight w = [f]) as Hone.
    { destruct (inflight w) as [|g [|g' l]] eqn:Hi; simpl in *.
      - inversion Hin.
      - apply list_elem_of_singleton in Hin. subst. reflexivity.
      - lia. }
    destruct (settled_cases f s w) as [[Hq1 ->]|[[Hfull ->]|(q & rest & Hq1 & Hlt & ->)]];
      simpl in *; rewrite Hone in *; simpl in *;
      rewrite ?Nat.eqb_refl, ?fmap_app; simpl; rewrite ?app_nil_r.
    + assumption.
    + assumption.
    + rewrite Hser. rewrite <- app_assoc. reflexivity.
Qed.

Lemma serial_exec evs : ∀ w w',
  throttler_inv 1 w → serial w → exec w evs = Some w' → serial w'.
Proof.
  induction evs as [|ev evs IH]; intros w w' Hinv Hser Hex; simpl in Hex.
  - injection Hex as <-. assumption.
  - destruct (step w ev) as [w1|] eqn:Hstep; [|discriminate].
    eapply (IH w1); [| |eassumption].
    + eapply throttler_inv_step; eassumption.
    + eapply serial_step; eassumption.
Qed.

Lemma throttler_reachable_inv m evs w :
  exec (create m) evs = Some w → throttler_inv m w.
Proof. apply throttler_inv_exec, throttler_inv_create. Qed.

(** C1. For every trace of submissions and settlements (successes and
    failures in any mix) run against a throttler created with a limit
    [m >= 0] (the shared [requestThrottler] has [m = 20]), the counter
    [concurrentTasks] is exactly the number of operations whose promise
    is pending, it never exceeds [maxConcurrentTasks], which stays [m],
    and it is never negative. *)
Theorem throttler_concurrency_bounded (m : Z) (evs : list event) (w : t) :
  0 <= m →
  exec (create m) evs = Some w →
  maxConcurrentTasks w = m ∧
  concurrentTasks w = Z.of_nat (length (inflight w)) ∧
  0 <= concurrentTasks w <= maxConcurrentTasks w.
Proof.
  intros Hm Hex.
  destruct (throttler_reachable_inv _ _ _ Hex) as (Hmax & Hc & Hle & _).
  split; [assumption|]. split; [assumption|]. lia.
Qed.

Lemma throttler_concurrency_bounded_witness :
  let w := mk 20 1 [] [2%nat] [1%nat; 2%nat] [(1%nat, Failed 7)] in
  exec requestThrottler [Run 1%nat; Run 2%nat; Settle 1%nat (Failed 7)] = Some w ∧
  maxConcurrentTasks w = 20 ∧
  concurrentTasks w = Z.of_nat (length (inflight w)) ∧
  0 <= concurrentTasks w <= maxConcurrentTasks w.
Proof.
  split; [reflexivity|].
  apply (throttler_concurrency_bounded 20
           [Run 1%nat; Run 2%nat; Settle 1%nat (Failed 7)]); [lia|reflexivity].
Defined.

(** C6. In every reachable throttler state, when a pending operation
    settles, fulfilled or failed alike, the reaction decrements the
    counter and, if the queue is non-empty, starts its head (so the head
    leaves the queue, is invoked, and the counter is back where it was);
    operations are invoked in submission order (the invocation log
    followed by the queue is the submission log); and with a limit of 1
    the operations complete in submission order. *)
Theorem throttler_settle_starts_next_fifo (m : Z) (evs : list event) (w : t) :
  exec (create m) evs = Some w →
  started w ++ queue w = submitted evs ∧
  (∀ f s, f ∈ inflight w →
     ∃ w', step w (Settle f s) = Some w' ∧
       completed w' = completed w ++ [(f, s)] ∧
       match queue w with
       | [] =>
           concurrentTasks w' = concurrentTasks w - 1 ∧ queue w' = [] ∧
           started w' = started w ∧
           inflight w' = remove_first f (inflight w)
       | q :: rest =>
           concurrentTasks w' = concurrentTasks w - 1 + 1 ∧ queue w' = rest ∧
           started w' = started w ++ [q] ∧
           inflight w' = remove_first f (inflight w) ++ [q]
       end) ∧
  (m = 1 → (completed w).*1 `prefix_of` submitted evs).
Proof.
  intros Hex.
  pose proof (throttler_reachable_inv _ _ _ Hex) as Hinv.
  pose proof (throttler_fifo_exec _ _ _ _ (throttler_inv_create m) Hex) as Hfifo.
  simpl in Hfifo. split; [assumption|]. split.
  - intros f s Hin. exists (settled f s w). split.
    { unfold step. rewrite bool_decide_eq_true_2 by assumption. reflexivity. }
    destruct Hinv as (Hmax & Hc & Hle & Hq).
    pose proof (remove_first_length _ _ Hin) as Hlen.
    destruct (settled_cases f s w) as [[Hq1 ->]|[[Hfull ->]|(q & rest & Hq1 & Hlt & ->)]];
      simpl.
    + rewrite Hq1. repeat split; reflexivity.
    + lia.
    + rewrite Hq1. repeat split; reflexivity.
  - intros ->.
    assert (serial w) as Hser.
    { eapply serial_exec; [apply throttler_inv_create| |exact Hex]. reflexivity. }
    rewrite <- Hfifo. unfold serial in Hser. rewrite Hser.
    rewrite <- app_assoc. apply prefix_app_r. reflexivity.
Qed.

Lemma throttler_settle_starts_next_fifo_witness :
  let evs := [Run 1%nat; Run 2%nat; Run 3%nat; Settle 1%nat (Failed 7)] in
  let w := mk 1 1 [3%nat] [2%nat] [1%nat; 2%nat] [(1%nat, Failed 7)] in
  exec (create 1) evs = Some w ∧
  started w ++ queue w = submitted evs ∧
  (∀ f s, f ∈ inflight w →
     ∃ w', step w (Settle f s) = Some w' ∧
       completed w' = completed w ++ [(f, s)] ∧
       concurrentTasks w' = concurrentTasks w - 1 + 1 ∧ queue w' = [] ∧
       started w' = started w ++ [3%nat] ∧
       inflight w' = remove_first f (inflight w) ++ [3%nat]) ∧
  (1 = 1 → (completed w).*1 `prefix_of` submitted evs).
Proof.
  split; [reflexivity|].
  exact (throttler_settle_starts_next_fifo 1
           [Run 1%nat; Run 2%nat; Run 3%nat; Settle 1%nat (Failed 7)]
           (mk 1 1 [3%nat] [2%nat] [1%nat; 2%nat] [(1%nat, Failed 7)]) eq_refl).
Defined.

End ThrottlerProperties.

Section RetryProperties.
Import Retry.

Example retry_fourth_attempt_succeeds :
  let e := Build_env (λ i, if (i <? 3)%nat then Err (Z.of_nat i) else Ok 42)
                     (λ _, false) (λ _, false) (λ _, 1 # 2) in
  fst (try_ e (mk false [])) = Resolved 42 ∧
  calls (log (snd (try_ e (mk false [])))) = [0; 1; 2; 3]%nat ∧
  Qred <$> sleeps (log (snd (try_ e (mk false [])))) = [300; 550; 1050]%Q.
Proof. vm_compute. repeat split. Qed.

(** Four failures: the fourth error is thrown after four calls; a backoff
    sleep follows every failure, the last one included. *)
Example retry_every_attempt_fails :
  let e := Build_env (λ i, Err (Z.of_nat i)) (λ _, false) (λ _, false) (λ _, 0%Q) in
  fst (try_ e (mk false [])) = Thrown (Some 3) ∧
  calls (log (snd (try_ e (mk false [])))) = [0; 1; 2; 3]%nat ∧
  Qred <$> sleeps (log (snd (try_ e (mk false [])))) = [50; 50; 50; 50]%Q.
Proof. vm_compute. repeat split. Qed.

(** Aborted before the first failure: one call, no sleep. *)
Example retry_aborted_up_front :
  let e := Build_env (λ i, Err (Z.of_nat i)) (λ _, false) (λ _, false) (λ _, 0%Q) in
  try_ e (abort (mk false [])) = (Thrown (Some 0), mk true [CallHandle 0]).
Proof. reflexivity. Qed.

Lemma calls_app l1 l2 : calls (l1 ++ l2) = calls l1 ++ calls l2.
Proof.
  induction l1 as [|[i|a d err|d] l1 IH]; simpl; rewrite ?IH; reflexivity.
Qed.

Lemma sleeps_app l1 l2 : sleeps (l1 ++ l2) = sleeps l1 ++ sleeps l2.
Proof.
  induction l1 as [|[i|a d err|d] l1 IH]; simpl; rewrite ?IH; reflexivity.
Qed.

Lemma fail_unaborted_tail e i j :
  fail_unaborted e i (S j) → fail_unaborted e (S i) j.
Proof.
  intros H k Hk. destruct (H (S k)) as (err & Hh & Ha & Hs); [lia|].
  replace (S i + k)%nat with (i + S k)%nat by lia.
  exists err. split; [assumption|]. split; [assumption|].
  intros Hlt. apply Hs. lia.
Qed.

Lemma iterate_retry e n i lastErr s err :
  handle e i = Err err →
  aborted s || abort_during_attempt e i = false →
  iterate e (S n) i lastErr s =
    iterate e n (S i) (Some err)
      (sleep (retryIn i (random e i)) (abort_during_sleep e i)
         (warn (i + 1) (retryIn i (random e i)) err
            (await_handle i (abort_during_attempt e i) s))).
Proof.
  intros Hh Hflag. cbn [iterate]. rewrite Hh.
  unfold await_handle at 1. cbn [aborted]. rewrite Hflag. reflexivity.
Qed.

Lemma iterate_after_failures e : ∀ j n i lastErr s,
  ((0 < j)%nat → aborted s = false) →
  fail_unaborted e i j →
  ∃ s' lastErr',
    iterate e (j + n) i lastErr s = iterate e n (i + j) lastErr' s' ∧
    calls (log s') = calls (log s) ++ seq i j ∧
    sleeps (log s') = sleeps (log s) ++ delays e i j ∧
    match j with
    | O => s' = s ∧ lastErr' = lastErr
    | S j' => aborted s' = abort_during_sleep e (i + j') ∧
              ∃ err, handle e (i + j') = Err err ∧ lastErr' = Some err
    end.
Proof.
  induction j as [|j IH]; intros n i lastErr s Hflag Hfail.
  - exists s, lastErr. rewrite Nat.add_0_r. simpl. rewrite !app_nil_r.
    repeat split; reflexivity.
  - destruct (Hfail 0%nat) as (err & Hh & Ha & Hs); [lia|].
    rewrite Nat.add_0_r in Hh, Ha, Hs.
    specialize (Hflag ltac:(lia)).
    pose (s2 := sleep (retryIn i (random e i)) (abort_during_sleep e i)
                  (warn (i + 1) (retryIn i (random e i)) err
                     (await_handle i (abort_during_attempt e i) s))).
    assert (aborted s2 = abort_during_sleep e i) as Ha2.
    { unfold s2. simpl. rewrite Hflag, Ha. reflexivity. }
    assert (calls (log s2) = calls (log s) ++ [i]) as Hc2.
    { unfold s2. simpl. rewrite !calls_app. simpl. rewrite !app_nil_r. reflexivity. }
    assert (sleeps (log s2) = sleeps (log s) ++ [retryIn i (random e i)]) as Hsl2.
    { unfold s2. simpl. rewrite !sleeps_app. simpl. rewrite !app_nil_r. reflexivity. }
    destruct (IH n (S i) (Some err) s2) as (s' & lastErr' & Hit & Hc & Hsl & Hlast).
    { intros Hj. rewrite Ha2. apply Hs. lia. }
    { apply fail_unaborted_tail. assumption. }
    exists s', lastErr'. split; [|split; [|split]].
    + change (S j + n)%nat with (S (j + n)).
      rewrite (iterate_retry e (j + n) i lastErr s err Hh) by (rewrite Hflag, Ha; reflexivity).
      fold s2. rewrite Hit. f_equal. lia.
    + rewrite Hc, Hc2, <- app_assoc. reflexivity.
    + rewrite Hsl, Hsl2, <- app_assoc. reflexivity.
    + destruct j as [|j'].
      * destruct Hlast as [-> ->]. rewrite Nat.add_0_r.
        split; [exact Ha2|]. exists err. split; [assumption|reflexivity].
      * replace (i + S j')%nat with (S i + j')%nat by lia. assumption.
Qed.

Lemma iterate_failed_rounds e : ∀ j n i lastErr s,
  ((0 < j)%nat → aborted s = false) →
  fail_unaborted e i j →
  ∃ s' lastErr',
    iterate e (j + n) i lastErr s = iterate e n (i + j) lastErr' s' ∧
    log s' = log s ++ failed_rounds e i j ∧
    match j with
    | O => s' = s ∧ lastErr' = lastErr
    | S j' => aborted s' = abort_during_sleep e (i + j') ∧
              ∃ err, handle e (i + j') = Err err ∧ lastErr' = Some err
    end.
Proof.
  induction j as [|j IH]; intros n i lastErr s Hflag Hfail.
  - exists s, lastErr. rewrite Nat.add_0_r. cbn [failed_rounds].
    rewrite app_nil_r. repeat split; reflexivity.
  - destruct (Hfail 0%nat) as (err & Hh & Ha & Hs); [lia|].
    rewrite Nat.add_0_r in Hh, Ha, Hs.
    specialize (Hflag ltac:(lia)).
    pose (s2 := sleep (retryIn i (random e i)) (abort_during_sleep e i)
                  (warn (i + 1) (retryIn i (random e i)) err
                     (await_handle i (abort_during_attempt e i) s))).
    assert (aborted s2 = abort_during_sleep e i) as Ha2.
    { unfold s2. simpl. rewrite Hflag, Ha. reflexivity. }
    assert (log s2 = log s ++ failed_round e i err) as Hl2.
    { unfold s2, failed_round. cbn [sleep warn await_handle log].
      rewrite <- !app_assoc. reflexivity. }
    destruct (IH n (S i) (Some err) s2) as (s' & lastErr' & Hit & Hl & Hlast).
    { intros Hj. rewrite Ha2. apply Hs. lia. }
    { apply fail_unaborted_tail. assumption. }
    exists s', lastErr'. split; [|split].
    + change (S j + n)%nat with (S (j + n)).
      rewrite (iterate_retry e (j + n) i lastErr s err Hh) by (rewrite Hflag, Ha; reflexivity).
      fold s2. rewrite Hit. f_equal. lia.
    + rewrite Hl, Hl2. cbn [failed_rounds]. rewrite Hh, <- app_assoc. reflexivity.
    + destruct j as [|j'].
      * destruct Hlast as [-> ->]. rewrite Nat.add_0_r.
        split; [exact Ha2|]. exists err. split; [assumption|reflexivity].
      * replace (i + S j')%nat with (S i + j')%nat by lia. assumption.
Qed.

Lemma calls_failed_rounds e : ∀ j i,
  fail_unaborted e i j → calls (failed_rounds e i j) = seq i j.
Proof.
  induction j as [|j IH]; intros i Hfail; [reflexivity|].
  destruct (Hfail 0%nat) as (err & Hh & _); [lia|]. rewrite Nat.add_0_r in Hh.
  cbn [failed_rounds]. rewrite Hh. cbn. f_equal.
  apply IH, fail_unaborted_tail, Hfail.
Qed.

Lemma sleeps_failed_rounds e : ∀ j i,
  fail_unaborted e i j → sleeps (failed_rounds e i j) = delays e i j.
Proof.
  induction j as [|j IH]; intros i Hfail; [reflexivity|].
  destruct (Hfail 0%nat) as (err & Hh & _); [lia|]. rewrite Nat.add_0_r in Hh.
  cbn [failed_rounds]. rewrite Hh. cbn. unfold delays. cbn. f_equal.
  apply IH, fail_unaborted_tail, Hfail.
Qed.

Lemma iterate_calls_bound e : ∀ n i lastErr s,
  (length (calls (log (snd (iterate e n i lastErr s)))) ≤
   length (calls (log s)) + n)%nat.
Proof.
  induction n as [|n IH]; intros i lastErr s; simpl.
  - lia.
  - destruct (handle e i) as [v|err]; simpl.
    + rewrite calls_app, length_app. simpl. lia.
    + destruct (aborted s || abort_during_attempt e i); simpl.
      * rewrite calls_app, length_app. simpl. lia.
      * etransitivity; [apply IH|]. simpl.
        rewrite !calls_app, !length_app. simpl. lia.
Qed.

Lemma retryIn_floor i r : (0 <= r)%Q → (50 <= retryIn i r)%Q.
Proof.
  intros Hr. unfold retryIn.
  rewrite <- (Qplus_0_l 50) at 1. apply Qplus_le_l.
  apply Qmult_le_0_compat; [|assumption].
  apply Qmult_le_0_compat; [|discriminate].
  change 0%Q with (inject_Z 0). rewrite <- Zle_Qle. apply Z.pow_nonneg. lia.
Qed.

Lemma iterate_ok e n i lastErr s v :
  handle e i = Ok v →
  iterate e (S n) i lastErr s =
    (Resolved v, mk (aborted s || abort_during_attempt e i)
                    (log s ++ [CallHandle i])).
Proof. intros Hh. cbn [iterate]. rewrite Hh. reflexivity. Qed.

Lemma delays_floor e i j :
  (∀ k, (0 <= random e k)%Q) → Forall (λ d, (50 <= d)%Q) (delays e i j).
Proof.
  intros Hr. unfold delays. apply Forall_fmap, Forall_forall.
  intros k _. simpl. apply retryIn_floor, Hr.
Qed.

(** C2. [try] calls [handle] at most 4 times.  When the call of
    iteration [i < 4] succeeds (iterations [0 .. i-1] having failed
    with the flag unset), [try] resolves with that value after exactly
    [i + 1] calls and exactly [i] sleeps, the [k]-th of
    [2^k * 500 * random + 50] ms, each at least 50 ms; and it does these
    things in this order: for each [k < i] the call of iteration [k],
    its warning, then the sleep of that delay, and only after the sleep
    of iteration [i - 1] the call of iteration [i], which is the last
    effect.  When all four calls fail with the flag unset, [try] rejects
    with the error of the fourth call, which was the last call. *)
Theorem retry_try_four_attempts (e : env) (s0 : t) :
  (∀ k, (0 <= random e k)%Q) →
  (length (calls (log (snd (try_ e s0)))) ≤ length (calls (log s0)) + 4)%nat ∧
  (∀ i v, (i < 4)%nat →
     ((0 < i)%nat → aborted s0 = false) → fail_unaborted e 0 i →
     handle e i = Ok v →
     fst (try_ e s0) = Resolved v ∧
     calls (log (snd (try_ e s0))) = calls (log s0) ++ seq 0 (S i) ∧
     sleeps (log (snd (try_ e s0))) =
       sleeps (log s0) ++
       ((λ k, (inject_Z (2 ^ Z.of_nat k) * 500 * random e k + 50)%Q) <$> seq 0 i) ∧
     length (delays e 0 i) = i ∧
     Forall (λ d, (50 <= d)%Q) (delays e 0 i) ∧
     log (snd (try_ e s0)) = log s0 ++ failed_rounds e 0 i ++ [CallHandle i]) ∧
  (aborted s0 = false → fail_unaborted e 0 4 →
     ∃ err, handle e 3 = Err err ∧
       fst (try_ e s0) = Thrown (Some err) ∧
       calls (log (snd (try_ e s0))) = calls (log s0) ++ [0; 1; 2; 3]%nat).
Proof.
  intros Hrand. split; [apply iterate_calls_bound|]. split.
  - intros i v Hi Hflag Hfail Hok.
    destruct (iterate_failed_rounds e i (4 - i) 0 None s0 Hflag Hfail)
      as (s' & lastErr' & Hit & Hl & _).
    unfold try_, MAX_ATTEMPST.
    replace 4%nat with (i + (4 - i))%nat at 1 2 3 4 by lia.
    rewrite Hit. destruct (4 - i)%nat as [|n] eqn:Hn; [lia|].
    change (0 + i)%nat with i. rewrite (iterate_ok e n i lastErr' s' v Hok).
    cbn [fst snd log]. rewrite Hl.
    split; [reflexivity|]. split; [|split; [|split; [|split]]].
    + rewrite !calls_app, (calls_failed_rounds e i 0 Hfail), seq_S, <- app_assoc.
      reflexivity.
    + rewrite !sleeps_app, (sleeps_failed_rounds e i 0 Hfail). cbn [sleeps].
      rewrite app_nil_r. reflexivity.
    + unfold delays. rewrite length_fmap, length_seq. reflexivity.
    + apply delays_floor, Hrand.
    + rewrite <- app_assoc. reflexivity.
  - intros Hflag Hfail.
    destruct (iterate_after_failures e 4 0 0 None s0 (λ _, Hflag) Hfail)
      as (s' & lastErr' & Hit & Hc & _ & _ & err & Hh & ->).
    exists err. split; [assumption|].
    unfold try_, MAX_ATTEMPST. change 4%nat with (4 + 0)%nat at 1 2.
    rewrite Hit. simpl. split; [reflexivity|]. assumption.
Qed.

Lemma retry_try_four_attempts_witness :
  let e := Build_env (λ i, if (i <? 3)%nat then Err (Z.of_nat i) else Ok 42)
                     (λ _, false) (λ _, false) (λ _, 1 # 2) in
  fst (try_ e (mk false [])) = Resolved 42 ∧
  calls (log (snd (try_ e (mk false [])))) = [0; 1; 2; 3]%nat ∧
  length (delays e 0 3) = 3%nat ∧
  Forall (λ d, (50 <= d)%Q) (delays e 0 3) ∧
  log (snd (try_ e (mk false []))) =
    [CallHandle 0; Warn 1 (retryIn 0 (1 # 2)) 0; Sleep (retryIn 0 (1 # 2));
     CallHandle 1; Warn 2 (retryIn 1 (1 # 2)) 1; Sleep (retryIn 1 (1 # 2));
     CallHandle 2; Warn 3 (retryIn 2 (1 # 2)) 2; Sleep (retryIn 2 (1 # 2));
     CallHandle 3].
Proof.
  intros e.
  assert (∀ k, (0 <= random e k)%Q) as Hrand by (intros k; discriminate).
  assert (fail_unaborted e 0 3) as Hfail.
  { intros k Hk. exists (Z.of_nat k).
    destruct k as [|[|[|k]]]; [| | |lia]; repeat split; reflexivity. }
  destruct (proj1 (proj2 (retry_try_four_attempts e (mk false []) Hrand))
              3%nat 42 ltac:(lia) (λ _, eq_refl) Hfail eq_refl)
    as (H1 & H2 & _ & H4 & H5 & H6).
  repeat split; assumption.
Defined.

(** C7. Whenever the call of an iteration fails while the [aborted]
    flag is set, the loop throws that very error at once, however many
    iterations remain: the only effect of the iteration is the call
    itself, with no warning, no sleep and no later call.  In particular
    [try] entered with the flag set throws the first failure, and a flag
    raised before the failure of iteration [i] is caught ends [try]
    after [i + 1] calls and [i] sleeps. *)
Theorem retry_abort_rethrows (e : env) :
  (∀ n i lastErr s err,
     handle e i = Err err →
     aborted s || abort_during_attempt e i = true →
     iterate e (S n) i lastErr s =
       (Thrown (Some err), mk true (log s ++ [CallHandle i]))) ∧
  (∀ s0 err,
     aborted s0 = true → handle e 0%nat = Err err →
     try_ e s0 = (Thrown (Some err), mk true (log s0 ++ [CallHandle 0%nat]))) ∧
  (∀ s0 i err, (i < 4)%nat →
     ((0 < i)%nat → aborted s0 = false) → fail_unaborted e 0 i →
     handle e i = Err err →
     match i with
     | O => aborted s0
     | S k => abort_during_sleep e k
     end || abort_during_attempt e i = true →
     fst (try_ e s0) = Thrown (Some err) ∧
     calls (log (snd (try_ e s0))) = calls (log s0) ++ seq 0 (S i) ∧
     sleeps (log (snd (try_ e s0))) = sleeps (log s0) ++ delays e 0 i ∧
     length (delays e 0 i) = i).
Proof.
  assert (∀ n i lastErr s err,
     handle e i = Err err →
     aborted s || abort_during_attempt e i = true →
     iterate e (S n) i lastErr s =
       (Thrown (Some err), mk true (log s ++ [CallHandle i]))) as Hloop.
  { intros n i lastErr s err Hh Hflag. cbn [iterate]. rewrite Hh.
    unfold await_handle. cbn [aborted]. rewrite Hflag. reflexivity. }
  split; [exact Hloop|]. split.
  - intros s0 err Ha Hh. apply Hloop; [assumption|]. rewrite Ha. reflexivity.
  - intros s0 i err Hi Hflag Hfail Hh Hset.
    destruct (iterate_after_failures e i (4 - i) 0 None s0 Hflag Hfail)
      as (s' & lastErr' & Hit & Hc & Hsl & Hlast).
    unfold try_, MAX_ATTEMPST.
    replace 4%nat with (i + (4 - i))%nat at 1 2 3 by lia.
    rewrite Hit. destruct (4 - i)%nat as [|n] eqn:Hn; [lia|].
    change (0 + i)%nat with i. rewrite (Hloop n i lastErr' s' err Hh).
    + cbn [fst snd log]. split; [reflexivity|]. split; [|split].
      * rewrite calls_app, Hc, seq_S, <- app_assoc. reflexivity.
      * rewrite sleeps_app, Hsl. cbn [sleeps]. rewrite app_nil_r. reflexivity.
      * unfold delays. rewrite length_fmap, length_seq. reflexivity.
    + destruct i as [|k].
      * destruct Hlast as [-> _]. assumption.
      * destruct Hlast as [-> _]. assumption.
Qed.

Lemma retry_abort_rethrows_witness :
  let e := Build_env (λ i, Err (Z.of_nat i))
                     (λ i, (i =? 1)%nat) (λ _, false) (λ _, 1 # 2) in
  fst (try_ e (mk false [])) = Thrown (Some 1) ∧
  calls (log (snd (try_ e (mk false [])))) = [0; 1]%nat ∧
  length (delays e 0 1) = 1%nat.
Proof.
  intros e.
  assert (fail_unaborted e 0 1) as Hfail.
  { intros k Hk. exists (Z.of_nat k).
    destruct k as [|k]; [|lia]. repeat split; try reflexivity. }
  destruct (proj2 (proj2 (retry_abort_rethrows e))
              (mk false []) 1%nat 1 ltac:(lia) (λ _, eq_refl) Hfail eq_refl eq_refl)
    as (H1 & H2 & _ & H4).
  repeat split; assumption.
Defined.

End RetryProperties.

Section RequestProperties.

Example request_404_rejected :
  (Request.onload Request.new 404 7).2 = Request.Reject (Request.HttpError 404).
Proof. reflexivity. Qed.

Example request_404_ignored :
  (Request.onload (Request.ignoreErrors Request.new) 404 7).2 = Request.Resolve 7.
Proof. reflexivity. Qed.

Lemma indexOf_acceptable (x : Z) :
  Request.indexOf Request.acceptableResponseCodes x ≠ -1 ↔ x = 0 ∨ x = 200.
Proof.
  unfold Request.indexOf, Request.acceptableResponseCodes.
  cbn [Request.indexOf_from].
  destruct (Z.eqb_spec 0 x) as [<-|H0]; [split; [auto|discriminate]|].
  destruct (Z.eqb_spec 200 x) as [<-|H200]; [split; [auto|discriminate]|].
  split; [intros H; contradiction H; reflexivity|]. intros [->| ->]; congruence.
Qed.

(** C8. The [onload] handler of a transfer records the status and
    resolves the attempt with the response exactly when the status is 0
    or 200 or [shouldIgnoreErrors] is set; otherwise it rejects with the
    HTTP error of that status.  [shouldIgnoreErrors] is unset in a new
    [Request] and set by [ignoreErrors()].  No other path of [_load]
    resolves: [onerror], [onabort] and a [_load] entered with the flag
    raised all reject. *)
Theorem request_onload_accepts (r : Request.t) (xhr_status xhr_response : Z) :
  ((Request.onload r xhr_status xhr_response).2 = Request.Resolve xhr_response ↔
   xhr_status = 0 ∨ xhr_status = 200 ∨ Request.shouldIgnoreErrors r = true) ∧
  ((Request.onload r xhr_status xhr_response).2 =
     Request.Reject (Request.HttpError xhr_status) ↔
   ¬ (xhr_status = 0 ∨ xhr_status = 200 ∨ Request.shouldIgnoreErrors r = true)) ∧
  Request.getStatus (Request.onload r xhr_status xhr_response).1 = xhr_status ∧
  Request.shouldIgnoreErrors Request.new = false ∧
  Request.shouldIgnoreErrors (Request.ignoreErrors r) = true ∧
  (Request.onerror r).2 = Request.Reject Request.TransferError ∧
  (Request.onabort r).2 = Request.Reject Request.TransferAborted ∧
  (Request._load r).2 =
    (if Request.aborted r then Some (Request.Reject Request.AbortedBeforeSend)
     else None).
Proof.
  pose proof (indexOf_acceptable xhr_status) as Hidx.
  unfold Request.onload. simpl Request.shouldIgnoreErrors.
  destruct (Z.eqb_spec (Request.indexOf Request.acceptableResponseCodes xhr_status) (-1))
    as [Heq|Hne]; simpl.
  - assert (¬ (xhr_status = 0 ∨ xhr_status = 200)) as Hcodes by (rewrite <- Hidx; tauto).
    clear Hidx Heq. destruct (Request.shouldIgnoreErrors r); simpl; split_and!;
      try reflexivity; try (unfold Request._load; case_match; reflexivity);
      intuition congruence.
  - assert (xhr_status = 0 ∨ xhr_status = 200) as Hcodes by (apply Hidx; assumption).
    clear Hidx Hne. split_and!;
      try reflexivity; try (unfold Request._load; case_match; reflexivity);
      intuition congruence.
Qed.

End RequestProperties.

Section LoaderProperties.
Local Open Scope nat_scope.

(** [run_trace h evs x] names [x] the store reached from [h] by [evs]. *)
Ltac run_trace h evs x :=
  let r := eval vm_compute in (exec h evs) in
  lazymatch r with
  | Some ?h' => pose (x := h')
  end.

Example loader_two_of_four :
  ∃ h L,
    exec empty_heap
      [NewLoader 0; NewManual 1; NewManual 2; NewImg 3; NewRequest 4;
       AddTask 0 1; AddTask 0 2; AddTask 0 3; AddTask 0 4;
       MarkComplete 1; XhrLoadEnd 4 (mkProgressEvent false 0 0)] = Some h ∧
    loaders h !! 0 = Some L ∧
    Qred (Loader.calculateProgress h L) = (1 # 2)%Q ∧
    Qred <$> notifications 0 (effects h) = [1 # 4; 1 # 2]%Q.
Proof. eexists _, _. vm_compute. repeat split. Qed.

(** The counting loop of [calculateProgress] counts the registered
    entries whose task is complete. *)
Lemma count_loop (h : heap) (ts : list ref) (n : nat) :
  fold_left (λ finished t, if isComplete_at h t then S finished else finished) ts n =
  n + length (List.filter (isComplete_at h) ts).
Proof.
  revert n. induction ts as [|t ts IH]; intros n; simpl; [lia|].
  rewrite IH. destruct (isComplete_at h t); simpl; lia.
Qed.

Lemma finishedTasks_filter (h : heap) (L : loader) :
  Loader.finishedTasks h L = length (List.filter (isComplete_at h) (_tasks L)).
Proof. unfold Loader.finishedTasks. rewrite count_loop. reflexivity. Qed.

Lemma filter_length_le {A} (f : A → bool) (l : list A) :
  length (List.filter f l) ≤ length l.
Proof. induction l as [|a l IH]; simpl; [lia|]. destruct (f a); simpl; lia. Qed.

Lemma notifications_app l es1 es2 :
  notifications l (es1 ++ es2) = notifications l es1 ++ notifications l es2.
Proof.
  induction es1 as [|[l' p|t|t] es1 IH]; simpl; rewrite ?IH; try reflexivity.
  destruct (l' =? l); reflexivity.
Qed.

Lemma abort_calls_app es1 es2 :
  abort_calls (es1 ++ es2) = abort_calls es1 ++ abort_calls es2.
Proof.
  induction es1 as [|[l' p|t|t] es1 IH]; simpl; rewrite ?IH; reflexivity.
Qed.

(** C3. [updateProgress] does nothing when [error] is set; otherwise it
    passes [calculateProgress] to the [onprogress] hook.  That value is 1
    for an aborted loader, 0 for a loader without tasks, and otherwise
    the number of registered tasks that are complete divided by the
    number of registered tasks: one half for 2 complete tasks out of 4.
    After [resetTasks()] a loader that is not aborted has no tasks and
    computes 0, which is what the hook receives unless [error] is set. *)
Theorem loader_updateProgress_ratio (h : heap) (l : ref) (L : loader) :
  loaders h !! l = Some L →
  (error L = true → Loader.updateProgress l h = Some h) ∧
  (error L = false →
     Loader.updateProgress l h =
       Some (emit (EProgress l (Loader.calculateProgress h L)) h)) ∧
  (aborted L = true → Loader.calculateProgress h L = 1%Q) ∧
  (aborted L = false → _tasks L = [] → Loader.calculateProgress h L = 0%Q) ∧
  (aborted L = false → _tasks L ≠ [] →
     Loader.calculateProgress h L =
       (inject_Z (Z.of_nat (length (List.filter (isComplete_at h) (_tasks L))))
        / inject_Z (Z.of_nat (length (_tasks L))))%Q) ∧
  (aborted L = false → length (_tasks L) = 4 →
     length (List.filter (isComplete_at h) (_tasks L)) = 2 →
     (Loader.calculateProgress h L == 1 # 2)%Q) ∧
  (aborted L = false →
     ∃ h', Loader.resetTasks l h = Some h' ∧
       loaders h' !! l = Some (mkLoader [] false (error L)) ∧
       Loader.calculateProgress h' (mkLoader [] false (error L)) = 0%Q ∧
       notifications l (effects h') =
         notifications l (effects h) ++ (if error L then [] else [0%Q])).
Proof.
  intros Hl. split_and!.
  - intros He. unfold Loader.updateProgress. rewrite Hl, He. reflexivity.
  - intros He. unfold Loader.updateProgress. rewrite Hl, He. reflexivity.
  - intros Ha. unfold Loader.calculateProgress. rewrite Ha. reflexivity.
  - intros Ha Ht. unfold Loader.calculateProgress. rewrite Ha, Ht. reflexivity.
  - intros Ha Ht. unfold Loader.calculateProgress. rewrite Ha.
    destruct (_tasks L) as [|t ts] eqn:Hts; [contradiction|].
    cbn [length Nat.eqb]. rewrite finishedTasks_filter, Hts. reflexivity.
  - intros Ha Hlen Hfin. unfold Loader.calculateProgress.
    rewrite Ha, Hlen, finishedTasks_filter, Hfin. reflexivity.
  - intros Ha. unfold Loader.resetTasks, Loader.updateProgress. rewrite Hl, Ha.
    cbn [loaders set_loader]. rewrite lookup_insert_eq. cbn [error].
    destruct (error L) eqn:He.
    + eexists. split; [reflexivity|]. cbn [loaders set_loader effects].
      rewrite lookup_insert_eq, app_nil_r. repeat split; reflexivity.
    + eexists. split; [reflexivity|]. cbn [loaders set_loader effects emit].
      rewrite lookup_insert_eq, notifications_app. cbn [notifications].
      rewrite Nat.eqb_refl. repeat split; reflexivity.
Qed.

Lemma loader_updateProgress_ratio_witness :
  ∃ h L,
    exec empty_heap
      [NewLoader 0; NewManual 1; NewManual 2; NewImg 3; NewRequest 4;
       AddTask 0 1; AddTask 0 2; AddTask 0 3; AddTask 0 4;
       MarkComplete 1; XhrLoadEnd 4 (mkProgressEvent false 0 0)] = Some h ∧
    loaders h !! 0 = Some L ∧
    (Loader.calculateProgress h L == 1 # 2)%Q.
Proof.
  eexists _, _. split; [vm_compute; reflexivity|]. split; [vm_compute; reflexivity|].
  refine (proj1 (proj2 (proj2 (proj2 (proj2 (proj2
            (loader_updateProgress_ratio _ 0 _ _)))))) _ _ _);
    vm_compute; reflexivity.
Defined.

(** *** Calls through references *)

Lemma isComplete_abort T : Task.isComplete (Task.abort T).1 = Task.isComplete T.
Proof. destruct T; reflexivity. Qed.

Lemma isComplete_setLoader s T :
  Task.isComplete (Task.setLoader s T) = Task.isComplete T.
Proof. destruct T; reflexivity. Qed.

Lemma getLoader_setLoader s T : Task.getLoader (Task.setLoader s T) = s.
Proof. destruct T; reflexivity. Qed.

Lemma setLoader_setLoader s T :
  Task.setLoader s (Task.setLoader s T) = Task.setLoader s T.
Proof. destruct T; reflexivity. Qed.

Lemma same_completion_isComplete_at h h' t :
  same_completion h h' → isComplete_at h' t = isComplete_at h t.
Proof.
  intros H. specialize (H t). unfold isComplete_at.
  destruct (tasks h' !! t), (tasks h !! t); simpl in H; congruence.
Qed.

Lemma same_completion_is_Some h h' t :
  same_completion h h' → is_Some (tasks h !! t) → is_Some (tasks h' !! t).
Proof.
  intros H [T HT]. specialize (H t). rewrite HT in H.
  destruct (tasks h' !! t); [eauto|discriminate].
Qed.

Lemma task_abort_spec t h h' :
  task_abort t h = Some h' →
  loaders h' = loaders h ∧
  abort_calls (effects h') = abort_calls (effects h) ++ [t] ∧
  (∀ l, notifications l (effects h') = notifications l (effects h)) ∧
  same_completion h h'.
Proof.
  unfold task_abort. destruct (tasks h !! t) as [T|] eqn:HT; [|discriminate].
  intros [= <-].
  assert (same_completion h (set_task t (Task.abort T).1 (emit (EAbortCalled t) h)))
    as Hsame.
  { intros t'. simpl. destruct (decide (t = t')) as [<-|Hne].
    - rewrite lookup_insert_eq, HT. simpl. rewrite isComplete_abort. reflexivity.
    - rewrite lookup_insert_ne by assumption. reflexivity. }
  destruct (Task.abort T).2; simpl;
    rewrite ?abort_calls_app; simpl; rewrite ?app_nil_r;
    (split_and!; [reflexivity|reflexivity| |exact Hsame]);
    intros l; rewrite ?notifications_app; simpl; rewrite ?app_nil_r; reflexivity.
Qed.

Lemma for_each_task_abort_spec ts : ∀ h h',
  for_each task_abort ts h = Some h' →
  loaders h' = loaders h ∧
  abort_calls (effects h') = abort_calls (effects h) ++ ts ∧
  (∀ l, notifications l (effects h') = notifications l (effects h)) ∧
  same_completion h h'.
Proof.
  induction ts as [|t ts IH]; intros h h' Hfe; simpl in Hfe.
  - injection Hfe as <-. rewrite app_nil_r. split_and!; try reflexivity.
    intros t. reflexivity.
  - destruct (task_abort t h) as [h1|] eqn:H1; [|discriminate].
    destruct (task_abort_spec _ _ _ H1) as (Hl1 & Ha1 & Hn1 & Hc1).
    destruct (IH _ _ Hfe) as (Hl & Ha & Hn & Hc).
    split_and!.
    + congruence.
    + rewrite Ha, Ha1, <- app_assoc. reflexivity.
    + intros l. rewrite Hn, Hn1. reflexivity.
    + intros t'. rewrite Hc, Hc1. reflexivity.
Qed.

Lemma for_each_task_abort_total ts : ∀ h,
  (∀ t, t ∈ ts → is_Some (tasks h !! t)) →
  is_Some (for_each task_abort ts h).
Proof.
  induction ts as [|t ts IH]; intros h Hvalid; simpl; [eauto|].
  destruct (Hvalid t) as [T HT]; [left|].
  destruct (task_abort t h) as [h1|] eqn:H1.
  - apply IH. intros t' Hin.
    destruct (task_abort_spec _ _ _ H1) as (_ & _ & _ & Hc).
    eapply same_completion_is_Some; [exact Hc|]. apply Hvalid. right. assumption.
  - unfold task_abort in H1. rewrite HT in H1. discriminate.
Qed.

Lemma task_setLoader_spec s t h h' :
  task_setLoader s t h = Some h' →
  loaders h' = loaders h ∧ effects h' = effects h ∧
  is_Some (tasks h !! t) ∧
  tasks h' = <[t := default (TManual Manual.new) (Task.setLoader s <$> tasks h !! t)]> (tasks h) ∧
  same_completion h h'.
Proof.
  unfold task_setLoader. destruct (tasks h !! t) as [T|] eqn:HT; [|discriminate].
  intros [= <-]. simpl. split_and!; try reflexivity; [eauto|].
  intros t'. simpl. destruct (decide (t = t')) as [<-|Hne].
  - rewrite lookup_insert_eq, HT. simpl. rewrite isComplete_setLoader. reflexivity.
  - rewrite lookup_insert_ne by assumption. reflexivity.
Qed.

Lemma for_each_setLoader_spec s ts : ∀ h h',
  for_each (task_setLoader s) ts h = Some h' →
  loaders h' = loaders h ∧ effects h' = effects h ∧
  same_completion h h' ∧
  (∀ t, tasks h' !! t =
        if bool_decide (t ∈ ts) then Task.setLoader s <$> tasks h !! t
        else tasks h !! t).
Proof.
  induction ts as [|t ts IH]; intros h h' Hfe; simpl in Hfe.
  - injection Hfe as <-. split_and!; try reflexivity. intros t. reflexivity.
  - destruct (task_setLoader s t h) as [h1|] eqn:H1; [|discriminate].
    destruct (task_setLoader_spec _ _ _ _ H1) as (Hl1 & He1 & [T HT] & Ht1 & Hc1).
    destruct (IH _ _ Hfe) as (Hl & He & Hc & Ht).
    split_and!; [congruence|congruence| |].
    + intros t'. rewrite Hc, Hc1. reflexivity.
    + intros t'. rewrite Ht, Ht1, HT. simpl.
      destruct (decide (t' = t)) as [->|Hne].
      * rewrite lookup_insert_eq, HT. simpl. rewrite setLoader_setLoader.
        rewrite (bool_decide_eq_true_2 (t ∈ t :: ts)) by left.
        destruct (bool_decide (t ∈ ts)); reflexivity.
      * rewrite lookup_insert_ne by congruence.
        destruct (bool_decide_reflect (t' ∈ ts)) as [Hin|Hnin].
        -- rewrite bool_decide_eq_true_2 by (right; assumption). reflexivity.
        -- rewrite bool_decide_eq_false_2; [reflexivity|].
           intros Hin. apply elem_of_cons in Hin as [?|?]; contradiction.
Qed.

Lemma for_each_setLoader_total s ts : ∀ h,
  (∀ t, t ∈ ts → is_Some (tasks h !! t)) →
  is_Some (for_each (task_setLoader s) ts h).
Proof.
  induction ts as [|t ts IH]; intros h Hvalid; simpl; [eauto|].
  destruct (Hvalid t) as [T HT]; [left|].
  destruct (task_setLoader s t h) as [h1|] eqn:H1.
  - apply IH. intros t' Hin.
    destruct (task_setLoader_spec _ _ _ _ H1) as (_ & _ & _ & _ & Hc).
    eapply same_completion_is_Some; [exact Hc|]. apply Hvalid. right. assumption.
  - unfold task_setLoader in H1. rewrite HT in H1. discriminate.
Qed.

(** *** One turn of the event loop *)

Lemma updateProgress_frame l h h' :
  Loader.updateProgress l h = Some h' →
  tasks h' = tasks h ∧ loaders h' = loaders h.
Proof.
  unfold Loader.updateProgress. destruct (loaders h !! l) as [L|]; [|discriminate].
  destruct (error L); intros [= <-]; split; reflexivity.
Qed.

Lemma updateLoaderProgress_frame s h h' :
  updateLoaderProgress s h = Some h' →
  tasks h' = tasks h ∧ loaders h' = loaders h.
Proof.
  unfold updateLoaderProgress. destruct (truthy s) as [l|].
  - apply updateProgress_frame.
  - intros [= <-]. split; reflexivity.
Qed.

Lemma completion_grows_refl h h' : tasks h' = tasks h → completion_grows h h'.
Proof. intros Heq t T HT. exists T. rewrite Heq. split; [assumption|auto]. Qed.

Lemma completion_grows_trans h1 h2 h3 :
  completion_grows h1 h2 → completion_grows h2 h3 → completion_grows h1 h3.
Proof.
  intros H12 H23 t T HT. destruct (H12 _ _ HT) as (T2 & HT2 & Hc2).
  destruct (H23 _ _ HT2) as (T3 & HT3 & Hc3). exists T3. split; [assumption|auto].
Qed.

Lemma completion_grows_same h h' : same_completion h h' → completion_grows h h'.
Proof.
  intros Hs t T HT. specialize (Hs t). rewrite HT in Hs.
  destruct (tasks h' !! t) as [T'|]; [|discriminate].
  exists T'. split; [reflexivity|]. simpl in Hs. congruence.
Qed.

Lemma completion_grows_update t T T' h h' :
  tasks h !! t = Some T →
  (Task.isComplete T = true → Task.isComplete T' = true) →
  tasks h' = <[t := T']> (tasks h) →
  completion_grows h h'.
Proof.
  intros HT Hc Heq t0 T0 HT0. rewrite Heq.
  destruct (decide (t = t0)) as [<-|Hne].
  - rewrite lookup_insert_eq. exists T'. split; [reflexivity|].
    assert (T0 = T) as -> by congruence. exact Hc.
  - rewrite lookup_insert_ne by assumption. exists T0. split; [assumption|auto].
Qed.

Lemma completion_grows_alloc t T' h h' :
  tasks h !! t = None →
  tasks h' = <[t := T']> (tasks h) →
  completion_grows h h'.
Proof.
  intros HT Heq t0 T0 HT0. rewrite Heq.
  destruct (decide (t = t0)) as [<-|Hne]; [congruence|].
  rewrite lookup_insert_ne by assumption. exists T0. split; [assumption|auto].
Qed.

Lemma completion_grows_isComplete_at h h' t :
  completion_grows h h' → isComplete_at h t = true → isComplete_at h' t = true.
Proof.
  intros Hg. unfold isComplete_at. destruct (tasks h !! t) as [T|] eqn:HT; [|discriminate].
  destruct (Hg _ _ HT) as (T' & -> & Hc). exact Hc.
Qed.

Lemma step_completion_grows h ev h' :
  step h ev = Some h' → completion_grows h h'.
Proof.
  intros Hstep. destruct ev; simpl in Hstep;
    unfold alloc_task, with_request, Loader.addTask, Loader.resetTasks,
           Loader.abort, Loader.cleanup in Hstep;
    repeat case_match; simplify_eq;
    try (apply completion_grows_refl; reflexivity);
    try (eapply completion_grows_alloc; [eassumption|reflexivity]).
  - (* AddTask *)
    apply task_setLoader_spec in Hstep as (_ & _ & _ & _ & Hs).
    eapply completion_grows_trans; [|apply completion_grows_same; exact Hs].
    apply completion_grows_refl. reflexivity.
  - (* ResetTasks *)
    apply updateProgress_frame in Hstep as [Ht _].
    apply completion_grows_refl. rewrite Ht. reflexivity.
  - (* Abort *)
    apply for_each_task_abort_spec in Hstep as (_ & _ & _ & Hs).
    eapply completion_grows_trans; [|apply completion_grows_same; exact Hs].
    apply completion_grows_refl. reflexivity.
  - (* Cleanup *)
    match goal with H : for_each _ _ _ = Some _ |- _ =>
      apply for_each_setLoader_spec in H as (_ & _ & Hs & _) end.
    eapply completion_grows_trans; [apply completion_grows_same; exact Hs|].
    apply completion_grows_refl. reflexivity.
  - (* UpdateProgress *)
    apply updateProgress_frame in Hstep as [Ht _].
    apply completion_grows_refl. assumption.
  - (* AbortTask *)
    apply task_abort_spec in Hstep as (_ & _ & _ & Hs).
    apply completion_grows_same. assumption.
  - (* MarkComplete *)
    apply updateLoaderProgress_frame in Hstep as [Ht _].
    eapply completion_grows_update; [eassumption| |exact Ht]. reflexivity.
  - (* ImgOnload *)
    apply updateLoaderProgress_frame in Hstep as [Ht _].
    eapply completion_grows_update; [eassumption| |exact Ht]. reflexivity.
  - (* IgnoreErrors *)
    eapply completion_grows_update; [eassumption| |reflexivity]. auto.
  - (* StartLoad *)
    eapply completion_grows_update; [eassumption| |reflexivity].
    simpl. unfold Request._load. case_match; auto.
  - (* XhrLoadStart *)
    apply updateLoaderProgress_frame in Hstep as [Ht _].
    eapply completion_grows_update; [eassumption| |exact Ht]. auto.
  - (* XhrLoad *)
    eapply completion_grows_update; [eassumption| |reflexivity].
    simpl. unfold Request.onload. case_match; auto.
  - (* XhrError *)
    eapply completion_grows_update; [eassumption| |reflexivity]. auto.
  - (* XhrAbort *)
    eapply completion_grows_update; [eassumption| |reflexivity]. auto.
  - (* XhrLoadEnd *)
    apply updateLoaderProgress_frame in Hstep as [Ht _].
    eapply completion_grows_update; [eassumption| |exact Ht]. reflexivity.
Qed.

Lemma loader_kept l L h h' :
  loaders h !! l = Some L → loaders h' = loaders h →
  ∃ L', loaders h' !! l = Some L' ∧ aborted L' = aborted L ∧ _tasks L' = _tasks L.
Proof. intros HL ->. exists L. auto. Qed.

Lemma loader_written l0 L0 ts' a' l L h h' :
  loaders h !! l0 = Some L0 →
  loaders h !! l = Some L →
  loaders h' = <[l0 := mkLoader ts' a' (error L0)]> (loaders h) →
  ∃ L', loaders h' !! l = Some L' ∧
        aborted L' = (if l0 =? l then a' else aborted L) ∧
        _tasks L' = (if l0 =? l then ts' else _tasks L).
Proof.
  intros HL0 HL ->. destruct (Nat.eqb_spec l0 l) as [->|Hne].
  - rewrite lookup_insert_eq. eexists. split; [reflexivity|]. split; reflexivity.
  - rewrite lookup_insert_ne by assumption. exists L. auto.
Qed.

Lemma step_loader h ev h' l L :
  step h ev = Some h' → loaders h !! l = Some L →
  ∃ L', loaders h' !! l = Some L' ∧
        (aborted L = true → aborted L' = true) ∧
        _tasks L' = next_tasks ev l (_tasks L).
Proof.
  intros Hstep HL.
  assert (∀ h1, loaders h1 = loaders h →
            ∃ L', loaders h1 !! l = Some L' ∧
                  (aborted L = true → aborted L' = true) ∧ _tasks L' = _tasks L)
    as Hkept.
  { intros h1 H1. destruct (loader_kept l L h h1 HL H1) as (L' & ? & Ha & ?).
    exists L'. rewrite Ha. auto. }
  destruct ev; simpl in Hstep;
    unfold alloc_task, with_request, Loader.addTask, Loader.resetTasks,
           Loader.abort, Loader.cleanup in Hstep;
    repeat case_match; simplify_eq; simpl next_tasks;
    try (apply Hkept; reflexivity).
  - (* NewLoader *)
    exists L. simpl. rewrite lookup_insert_ne by congruence. auto.
  - (* AddTask *)
    apply task_setLoader_spec in Hstep as (Hl & _).
    match goal with H0 : loaders h !! ?l0 = Some ?L0 |- context [?l0 =? l] =>
      destruct (loader_written l0 L0 (_tasks L0 ++ [t]) (aborted L0) l L h h' H0 HL Hl)
        as (L' & HL' & Ha & Ht) end.
    exists L'. split; [assumption|]. rewrite Ha, Ht.
    destruct (Nat.eqb_spec l0 l) as [->|Hne]; simplify_eq; auto.
  - (* ResetTasks *)
    apply updateProgress_frame in Hstep as (_ & Hl).
    match goal with H0 : loaders h !! ?l0 = Some ?L0 |- context [?l0 =? l] =>
      destruct (loader_written l0 L0 [] (aborted L0) l L h h' H0 HL Hl)
        as (L' & HL' & Ha & Ht) end.
    exists L'. split; [assumption|]. rewrite Ha, Ht.
    destruct (Nat.eqb_spec l0 l) as [->|Hne]; simplify_eq; auto.
  - (* Abort *)
    apply for_each_task_abort_spec in Hstep as (Hl & _).
    match goal with H0 : loaders h !! ?l0 = Some ?L0 |- _ =>
      destruct (loader_written l0 L0 (_tasks L0) true l L h h' H0 HL Hl)
        as (L' & HL' & Ha & Ht) end.
    exists L'. split; [assumption|]. rewrite Ha, Ht.
    destruct (Nat.eqb_spec l0 l) as [->|Hne]; simplify_eq; auto.
  - (* Cleanup *)
    match goal with H : for_each _ _ _ = Some ?h1 |- _ =>
      apply for_each_setLoader_spec in H as (Hl & _);
      rewrite <- Hl in *
    end.
    match goal with H0 : loaders ?h1 !! ?l0 = Some ?L0 |- context [?l0 =? l] =>
      destruct (loader_written l0 L0 [] (aborted L0) l L h1
                  (set_loader l0 (mkLoader [] (aborted L0) (error L0)) h1)
                  H0 HL eq_refl)
        as (L' & HL' & Ha & Ht) end.
    exists L'. split; [assumption|]. rewrite Ha, Ht.
    destruct (Nat.eqb_spec l0 l) as [->|Hne]; simplify_eq; auto.
  - (* UpdateProgress *)
    apply updateProgress_frame in Hstep as (_ & Hl). apply Hkept. assumption.
  - (* SetError *)
    simpl. destruct (decide (l0 = l)) as [->|Hne].
    + rewrite lookup_insert_eq. eexists. split; [reflexivity|].
      simplify_eq. simpl. auto.
    + rewrite lookup_insert_ne by assumption. exists L. auto.
  - (* AbortTask *)
    apply task_abort_spec in Hstep as (Hl & _). apply Hkept. assumption.
  - (* MarkComplete *)
    apply updateLoaderProgress_frame in Hstep as (_ & Hl). apply Hkept. assumption.
  - (* ImgOnload *)
    apply updateLoaderProgress_frame in Hstep as (_ & Hl). apply Hkept. assumption.
  - (* XhrLoadStart *)
    apply updateLoaderProgress_frame in Hstep as (_ & Hl). apply Hkept. assumption.
  - (* XhrLoadEnd *)
    apply updateLoaderProgress_frame in Hstep as (_ & Hl). apply Hkept. assumption.
Qed.

Lemma step_loader_new h ev h' l :
  step h ev = Some h' → loaders h !! l = None →
  loaders h' !! l = None ∨ loaders h' !! l = Some Loader.new.
Proof.
  intros Hstep HL.
  assert (∀ h1, loaders h1 = loaders h → loaders h1 !! l = None ∨
                                          loaders h1 !! l = Some Loader.new) as Hkept.
  { intros h1 ->. left. assumption. }
  assert (∀ h1 l0 L0 L1, loaders h !! l0 = Some L0 →
            loaders h1 = <[l0 := L1]> (loaders h) →
            loaders h1 !! l = None ∨ loaders h1 !! l = Some Loader.new) as Hwritten.
  { intros h1 l0 L0 L1 H0 ->. left.
    rewrite lookup_insert_ne by congruence. assumption. }
  destruct ev; simpl in Hstep;
    unfold alloc_task, with_request, Loader.addTask, Loader.resetTasks,
           Loader.abort, Loader.cleanup in Hstep;
    repeat case_match; simplify_eq;
    try (apply Hkept; reflexivity);
    try (eapply Hwritten; [eassumption|reflexivity]).
  - (* NewLoader *)
    simpl. destruct (decide (l0 = l)) as [->|Hne].
    + right. apply lookup_insert_eq.
    + left. rewrite lookup_insert_ne by assumption. assumption.
  - (* AddTask *)
    apply task_setLoader_spec in Hstep as (Hl & _).
    eapply Hwritten; [eassumption|exact Hl].
  - (* ResetTasks *)
    apply updateProgress_frame in Hstep as (_ & Hl).
    eapply Hwritten; [eassumption|exact Hl].
  - (* Abort *)
    apply for_each_task_abort_spec in Hstep as (Hl & _).
    eapply Hwritten; [eassumption|exact Hl].
  - (* Cleanup *)
    match goal with H : for_each _ _ _ = Some ?h1 |- _ =>
      apply for_each_setLoader_spec in H as (Hl & _) end.
    eapply Hwritten; [eassumption|]. simpl. rewrite Hl. reflexivity.
  - (* UpdateProgress *)
    apply updateProgress_frame in Hstep as (_ & Hl). apply Hkept. assumption.
  - (* AbortTask *)
    apply task_abort_spec in Hstep as (Hl & _). apply Hkept. assumption.
  - (* MarkComplete *)
    apply updateLoaderProgress_frame in Hstep as (_ & Hl). apply Hkept. assumption.
  - (* ImgOnload *)
    apply updateLoaderProgress_frame in Hstep as (_ & Hl). apply Hkept. assumption.
  - (* XhrLoadStart *)
    apply updateLoaderProgress_frame in Hstep as (_ & Hl). apply Hkept. assumption.
  - (* XhrLoadEnd *)
    apply updateLoaderProgress_frame in Hstep as (_ & Hl). apply Hkept. assumption.
Qed.

Lemma addTask_needs_task h l t h' :
  step h (AddTask l t) = Some h' → is_Some (tasks h !! t).
Proof.
  simpl. unfold Loader.addTask. destruct (loaders h !! l) as [L|]; [|discriminate].
  intros Hs. apply task_setLoader_spec in Hs as (_ & _ & Hsome & _). exact Hsome.
Qed.

Lemma valid_refs_empty : valid_refs empty_heap.
Proof. intros l L t HL. simpl in HL. rewrite lookup_empty in HL. discriminate. Qed.

Lemma valid_refs_step h ev h' :
  step h ev = Some h' → valid_refs h → valid_refs h'.
Proof.
  intros Hstep Hvalid l L' t HL' Hin.
  pose proof (step_completion_grows _ _ _ Hstep) as Hgrow.
  assert (∀ t0, is_Some (tasks h !! t0) → is_Some (tasks h' !! t0)) as Hkeep.
  { intros t0 [T HT]. destruct (Hgrow _ _ HT) as (T' & HT' & _). eauto. }
  destruct (loaders h !! l) as [L|] eqn:HL.
  - destruct (step_loader _ _ _ _ _ Hstep HL) as (L'' & HL'' & _ & Ht).
    assert (L'' = L') as -> by congruence. rewrite Ht in Hin.
    destruct ev; simpl in Hin;
      try (apply Hkeep; eapply Hvalid; eassumption).
    + destruct (l0 =? l).
      * apply elem_of_app in Hin as [Hin|Hin].
        -- apply Hkeep. eapply Hvalid; eassumption.
        -- apply list_elem_of_singleton in Hin as ->.
           apply Hkeep. eapply addTask_needs_task. eassumption.
      * apply Hkeep. eapply Hvalid; eassumption.
    + destruct (l0 =? l); [inversion Hin|].
      apply Hkeep. eapply Hvalid; eassumption.
    + destruct (l0 =? l); [inversion Hin|].
      apply Hkeep. eapply Hvalid; eassumption.
  - destruct (step_loader_new _ _ _ _ Hstep HL) as [Hn|Hn]; [congruence|].
    assert (L' = Loader.new) as -> by congruence. inversion Hin.
Qed.

Lemma valid_refs_exec evs : ∀ h h',
  exec h evs = Some h' → valid_refs h → valid_refs h'.
Proof.
  induction evs as [|ev evs IH]; intros h h' Hex Hvalid; simpl in Hex.
  - injection Hex as <-. assumption.
  - destruct (step h ev) as [h1|] eqn:Hstep; [|discriminate].
    eapply IH; [eassumption|]. eapply valid_refs_step; eassumption.
Qed.

Lemma exec_completion_grows evs : ∀ h h',
  exec h evs = Some h' → completion_grows h h'.
Proof.
  induction evs as [|ev evs IH]; intros h h' Hex; simpl in Hex.
  - injection Hex as <-. apply completion_grows_refl. reflexivity.
  - destruct (step h ev) as [h1|] eqn:Hstep; [|discriminate].
    eapply completion_grows_trans; [eapply step_completion_grows; eassumption|].
    apply IH. assumption.
Qed.

Lemma exec_aborted_stays evs : ∀ h h' l L,
  exec h evs = Some h' → loaders h !! l = Some L → aborted L = true →
  ∃ L', loaders h' !! l = Some L' ∧ aborted L' = true.
Proof.
  induction evs as [|ev evs IH]; intros h h' l L Hex HL Ha; simpl in Hex.
  - injection Hex as <-. eauto.
  - destruct (step h ev) as [h1|] eqn:Hstep; [|discriminate].
    destruct (step_loader _ _ _ _ _ Hstep HL) as (L1 & HL1 & Ha1 & _).
    eapply IH; [eassumption|eassumption|auto].
Qed.

(** *** The error-ignoring flag *)

Lemma ignore_flag_abort T : ignore_flag (Task.abort T).1 = ignore_flag T.
Proof. destruct T; reflexivity. Qed.

Lemma ignore_flag_setLoader s T : ignore_flag (Task.setLoader s T) = ignore_flag T.
Proof. destruct T; reflexivity. Qed.

Lemma shouldIgnoreErrors_load r :
  Request.shouldIgnoreErrors (Request._load r).1 = Request.shouldIgnoreErrors r.
Proof. unfold Request._load. destruct (Request.aborted r); reflexivity. Qed.

Lemma shouldIgnoreErrors_onload r xhr_status xhr_response :
  Request.shouldIgnoreErrors (Request.onload r xhr_status xhr_response).1 =
  Request.shouldIgnoreErrors r.
Proof. unfold Request.onload. case_match; reflexivity. Qed.

Lemma same_flags_eq h h' : tasks h' = tasks h → same_flags h h'.
Proof. intros Heq t. rewrite Heq. reflexivity. Qed.

Lemma same_flags_update t T T' h h' :
  tasks h !! t = Some T → ignore_flag T' = ignore_flag T →
  tasks h' = <[t := T']> (tasks h) → same_flags h h'.
Proof.
  intros HT Hf Heq t0. rewrite Heq. destruct (decide (t = t0)) as [<-|Hne].
  - rewrite lookup_insert_eq, HT. simpl. rewrite Hf. reflexivity.
  - rewrite lookup_insert_ne by assumption. reflexivity.
Qed.

Lemma task_abort_flags t h h' : task_abort t h = Some h' → same_flags h h'.
Proof.
  unfold task_abort. destruct (tasks h !! t) as [T|] eqn:HT; [|discriminate].
  intros [= <-]. eapply same_flags_update; [exact HT|apply ignore_flag_abort|].
  destruct (Task.abort T).2; reflexivity.
Qed.

Lemma task_setLoader_flags s t h h' :
  task_setLoader s t h = Some h' → same_flags h h'.
Proof.
  unfold task_setLoader. destruct (tasks h !! t) as [T|] eqn:HT; [|discriminate].
  intros [= <-]. eapply same_flags_update; [exact HT|apply ignore_flag_setLoader|].
  reflexivity.
Qed.

Lemma for_each_flags f :
  (∀ t h h', f t h = Some h' → same_flags h h') →
  ∀ ts h h', for_each f ts h = Some h' → same_flags h h'.
Proof.
  intros Hf. induction ts as [|t ts IH]; intros h h' Hfe; simpl in Hfe.
  - injection Hfe as <-. intros t. reflexivity.
  - destruct (f t h) as [h1|] eqn:H1; [|discriminate].
    intros t0. rewrite (IH _ _ Hfe t0). apply (Hf _ _ _ H1).
Qed.

(** [shouldIgnoreErrors] is raised by [ignoreErrors()] and by nothing
    else, and nothing lowers it: at any time it tells whether the caller
    has called [ignoreErrors()] on the request before. *)
Lemma step_shouldIgnoreErrors h ev h' t r r' :
  step h ev = Some h' →
  tasks h !! t = Some (TRequest r) → tasks h' !! t = Some (TRequest r') →
  (Request.shouldIgnoreErrors r' = true ↔
   Request.shouldIgnoreErrors r = true ∨ ev = IgnoreErrors t).
Proof.
  intros Hstep HT HT'.
  assert (same_flags h h' →
            (Request.shouldIgnoreErrors r' = true ↔
             Request.shouldIgnoreErrors r = true)) as Hsame.
  { intros Hs. specialize (Hs t). rewrite HT, HT' in Hs.
    simpl in Hs. injection Hs as ->. reflexivity. }
  assert (∀ t0 T1, tasks h !! t0 = None → tasks h' = <[t0 := T1]> (tasks h) →
            (Request.shouldIgnoreErrors r' = true ↔
             Request.shouldIgnoreErrors r = true)) as Hfresh.
  { intros t0 T1 H0 Heq. rewrite Heq in HT'.
    rewrite lookup_insert_ne in HT' by congruence.
    assert (r' = r) as -> by congruence. reflexivity. }
  assert (∀ P : Prop, ev ≠ IgnoreErrors t → (P ↔ Request.shouldIgnoreErrors r = true) →
            (P ↔ Request.shouldIgnoreErrors r = true ∨ ev = IgnoreErrors t))
    as Hother by (intros P Hne HP; tauto).
  destruct ev; simpl in Hstep;
    unfold alloc_task, with_request, Loader.addTask, Loader.resetTasks,
           Loader.abort, Loader.cleanup in Hstep;
    repeat case_match; simplify_eq.
  all: try (apply Hother; [discriminate|]).
  all: try (apply Hsame, same_flags_eq; reflexivity).
  all: try (eapply Hfresh; [eassumption|reflexivity]).
  all: try (apply updateProgress_frame in Hstep as (Ht & _);
            apply Hsame, same_flags_eq; exact Ht).
  all: try (apply updateLoaderProgress_frame in Hstep as (Ht & _);
            apply Hsame; simpl in Ht;
            refine (same_flags_update _ _ _ _ _ _ _ Ht); [eassumption|reflexivity]).
  - (* AddTask *)
    apply Hsame. intros x. exact (task_setLoader_flags _ _ _ _ Hstep x).
  - (* Abort *)
    apply Hsame. intros x.
    exact (for_each_flags _ task_abort_flags _ _ _ Hstep x).
  - (* Cleanup *)
    apply Hsame. intros x.
    match goal with H : for_each _ _ _ = Some ?h1 |- _ =>
      exact (for_each_flags _ (task_setLoader_flags LNull) _ _ _ H x) end.
  - (* AbortTask *)
    apply Hsame. exact (task_abort_flags _ _ _ Hstep).
  - (* IgnoreErrors *)
    simpl in HT'. destruct (decide (t0 = t)) as [->|Hne].
    + rewrite lookup_insert_eq in HT'. injection HT' as <-. simpl. tauto.
    + rewrite lookup_insert_ne in HT' by assumption.
      assert (r' = r) as -> by congruence.
      split; [auto|]. intros [?|?]; [assumption|congruence].
  - (* StartLoad *)
    apply Hsame. eapply (same_flags_update t0 (TRequest r0)); [eassumption| |reflexivity].
    simpl. rewrite shouldIgnoreErrors_load. reflexivity.
  - (* XhrLoad *)
    apply Hsame. eapply (same_flags_update t0 (TRequest r0)); [eassumption| |reflexivity].
    simpl. rewrite shouldIgnoreErrors_onload. reflexivity.
  - (* XhrError *)
    apply Hsame. eapply (same_flags_update t0 (TRequest r0)); [eassumption| |reflexivity].
    reflexivity.
  - (* XhrAbort *)
    apply Hsame. eapply (same_flags_update t0 (TRequest r0)); [eassumption| |reflexivity].
    reflexivity.
Qed.

(** *** Abort *)

(** C4, as stated, fails: [addTask] pushes onto an array without looking
    for the task in it, so a task added twice is held twice, and one
    [abort()] of the loader calls its [abort()] twice. *)
Lemma loader_abort_twice_on_duplicate :
  exec empty_heap [NewLoader 0; NewManual 1; AddTask 0 1; AddTask 0 1]
    = Some twice_registered ∧
  loaders twice_registered !! 0 = Some (mkLoader [1; 1] false false) ∧
  (∃ h', Loader.abort 0 twice_registered = Some h' ∧
         new_abort_calls twice_registered h' = [1; 1]) ∧
  ¬ aborts_each_once twice_registered 0.
Proof.
  split; [vm_compute; reflexivity|]. split; [vm_compute; reflexivity|]. split.
  - eexists. split; vm_compute; reflexivity.
  - intros Hclaim.
    specialize (Hclaim (mkLoader [1; 1] false false) _ eq_refl eq_refl 1).
    vm_compute in Hclaim. specialize (Hclaim ltac:(left)). discriminate.
Qed.

Lemma calculateProgress_aborted h L :
  aborted L = true → Loader.calculateProgress h L = 1%Q.
Proof. intros Ha. unfold Loader.calculateProgress. rewrite Ha. reflexivity. Qed.

(** C4, amended. In every reachable store, [abort()] on a loader sets
    [aborted], keeps the task list, and calls [abort()] once for each
    entry of the task list, in order: a task is aborted as many times as
    it was added, so exactly once when the list holds it once.  From that
    moment on the loader computes a progress of 1, at once and after any
    later events, whatever the state of its tasks. *)
Theorem loader_abort_cascade (evs : list event) (h : heap) (l : ref) (L : loader) :
  exec empty_heap evs = Some h →
  loaders h !! l = Some L →
  ∃ h', Loader.abort l h = Some h' ∧
    loaders h' !! l = Some (mkLoader (_tasks L) true (error L)) ∧
    new_abort_calls h h' = _tasks L ∧
    (∀ t, count_occ Nat.eq_dec (new_abort_calls h h') t =
          count_occ Nat.eq_dec (_tasks L) t) ∧
    (NoDup (_tasks L) →
     ∀ t, t ∈ _tasks L → count_occ Nat.eq_dec (new_abort_calls h h') t = 1) ∧
    Loader.calculateProgress h' (mkLoader (_tasks L) true (error L)) = 1%Q ∧
    (∀ evs' h'', exec h' evs' = Some h'' →
       ∃ L'', loaders h'' !! l = Some L'' ∧ Loader.calculateProgress h'' L'' = 1%Q).
Proof.
  intros Hex HL.
  pose proof (valid_refs_exec _ _ _ Hex valid_refs_empty) as Hvalid.
  unfold Loader.abort. rewrite HL.
  destruct (for_each_task_abort_total (_tasks L)
              (set_loader l (mkLoader (_tasks L) true (error L)) h))
    as [h' Hfe].
  { intros t Hin. simpl. eapply Hvalid; eassumption. }
  exists h'. split; [assumption|].
  destruct (for_each_task_abort_spec _ _ _ Hfe) as (Hl & Hcalls & _ & _).
  simpl in Hl, Hcalls.
  assert (loaders h' !! l = Some (mkLoader (_tasks L) true (error L))) as HL'.
  { rewrite Hl. apply lookup_insert_eq. }
  assert (new_abort_calls h h' = _tasks L) as Hnew.
  { unfold new_abort_calls. rewrite Hcalls. apply drop_app_length. }
  split_and!.
  - assumption.
  - assumption.
  - intros t. rewrite Hnew. reflexivity.
  - intros Hnd t Hin. rewrite Hnew.
    apply NoDup_ListNoDup in Hnd. apply list_elem_of_In in Hin.
    apply NoDup_count_occ'; assumption.
  - reflexivity.
  - intros evs' h'' Hex'.
    destruct (exec_aborted_stays _ _ _ _ _ Hex' HL' eq_refl) as (L'' & HL'' & Ha).
    exists L''. split; [assumption|]. apply calculateProgress_aborted. assumption.
Qed.

Lemma loader_abort_cascade_witness :
  ∃ h h',
    exec empty_heap [NewLoader 0; NewManual 1; NewRequest 2; AddTask 0 1;
                     AddTask 0 2; StartLoad 2] = Some h ∧
    Loader.abort 0 h = Some h' ∧
    new_abort_calls h h' = [1; 2] ∧
    effects h' = [EAbortCalled 1; EAbortCalled 2; EXhrAbort 2].
Proof.
  eexists _.
  destruct (loader_abort_cascade
              [NewLoader 0; NewManual 1; NewRequest 2; AddTask 0 1;
               AddTask 0 2; StartLoad 2] _ 0 (mkLoader [1; 2] false false)
              ltac:(vm_compute; reflexivity) ltac:(vm_compute; reflexivity))
    as (h' & Habort & _ & Hnew & _).
  exists h'. split; [vm_compute; reflexivity|]. split; [exact Habort|].
  split; [exact Hnew|].
  vm_compute in Habort. injection Habort as <-. reflexivity.
Defined.

(** *** Progress over time *)

(** C5, as stated, fails: registering a task that is not complete
    lowers the progress from 1 to 1/2. *)
Lemma loader_addTask_lowers_progress :
  exec empty_heap [NewLoader 0; NewManual 1; NewManual 2; AddTask 0 1;
                   MarkComplete 1] = Some one_done ∧
  Loader.calculateProgress one_done (mkLoader [1] false false) = 1%Q ∧
  (∃ h', step one_done (AddTask 0 2) = Some h' ∧
         loaders h' !! 0 = Some (mkLoader [1; 2] false false) ∧
         Qred (Loader.calculateProgress h' (mkLoader [1; 2] false false)) = (1 # 2)%Q) ∧
  ¬ never_lowers_progress (AddTask 0 2).
Proof.
  split; [vm_compute; reflexivity|].
  split; [vm_compute; reflexivity|]. split.
  - eexists. vm_compute. repeat split.
  - intros Hclaim.
    specialize (Hclaim one_done _ 0 (mkLoader [1] false false)
                  (mkLoader [1; 2] false false) eq_refl eq_refl eq_refl).
    vm_compute in Hclaim. apply Hclaim. reflexivity.
Qed.

Lemma ratio_le (a b c d : nat) :
  0 < b → 0 < d → a * d ≤ c * b →
  (inject_Z (Z.of_nat a) / inject_Z (Z.of_nat b) <=
   inject_Z (Z.of_nat c) / inject_Z (Z.of_nat d))%Q.
Proof.
  intros Hb Hd Hle.
  apply Qle_shift_div_l; [change 0%Q with (inject_Z 0); rewrite <- Zlt_Qlt; lia|].
  unfold Qdiv. rewrite <- Qmult_assoc, (Qmult_comm (/ _)), Qmult_assoc.
  apply Qle_shift_div_r; [change 0%Q with (inject_Z 0); rewrite <- Zlt_Qlt; lia|].
  rewrite <- !inject_Z_mult, <- Zle_Qle. lia.
Qed.

Lemma ratio_le_1 (a b : nat) :
  0 < b → a ≤ b → (inject_Z (Z.of_nat a) / inject_Z (Z.of_nat b) <= 1)%Q.
Proof.
  intros Hb Hle.
  apply Qle_shift_div_r; [change 0%Q with (inject_Z 0); rewrite <- Zlt_Qlt; lia|].
  rewrite Qmult_1_l, <- Zle_Qle. lia.
Qed.

Lemma ratio_nonneg (a b : nat) :
  0 < b → (0 <= inject_Z (Z.of_nat a) / inject_Z (Z.of_nat b))%Q.
Proof.
  intros Hb.
  apply Qle_shift_div_l; [change 0%Q with (inject_Z 0); rewrite <- Zlt_Qlt; lia|].
  rewrite Qmult_0_l. change 0%Q with (inject_Z 0). rewrite <- Zle_Qle. lia.
Qed.

Lemma filter_length_mono {A} (f g : A → bool) (l : list A) :
  (∀ x, f x = true → g x = true) →
  length (List.filter f l) ≤ length (List.filter g l).
Proof.
  intros Hfg. induction l as [|x l IH]; simpl; [lia|].
  destruct (f x) eqn:Hf.
  - rewrite (Hfg _ Hf). simpl. lia.
  - destruct (g x); simpl; lia.
Qed.

(** Progress is a fraction of the registered tasks. *)
Lemma calculateProgress_range h L :
  (0 <= Loader.calculateProgress h L <= 1)%Q.
Proof.
  unfold Loader.calculateProgress. destruct (aborted L); [split; discriminate|].
  destruct (_tasks L) as [|t ts] eqn:Hts; [split; discriminate|].
  cbn [length Nat.eqb]. rewrite finishedTasks_filter, Hts. split.
  - apply ratio_nonneg. lia.
  - apply ratio_le_1; [lia|]. exact (filter_length_le (isComplete_at h) (t :: ts)).
Qed.

Lemma ratio_pos (a b : nat) :
  0 < a → 0 < b → (0 < inject_Z (Z.of_nat a) / inject_Z (Z.of_nat b))%Q.
Proof.
  intros Ha Hb.
  apply Qlt_shift_div_l; [change 0%Q with (inject_Z 0); rewrite <- Zlt_Qlt; lia|].
  rewrite Qmult_0_l. change 0%Q with (inject_Z 0). rewrite <- Zlt_Qlt. lia.
Qed.

Lemma ratio_lt (a b c d : nat) :
  0 < b → 0 < d → a * d < c * b →
  (inject_Z (Z.of_nat a) / inject_Z (Z.of_nat b) <
   inject_Z (Z.of_nat c) / inject_Z (Z.of_nat d))%Q.
Proof.
  intros Hb Hd Hlt.
  apply Qlt_shift_div_l; [change 0%Q with (inject_Z 0); rewrite <- Zlt_Qlt; lia|].
  unfold Qdiv. rewrite <- Qmult_assoc, (Qmult_comm (/ _)), Qmult_assoc.
  apply Qlt_shift_div_r; [change 0%Q with (inject_Z 0); rewrite <- Zlt_Qlt; lia|].
  rewrite <- !inject_Z_mult, <- Zlt_Qlt. lia.
Qed.

Lemma none_complete_filter (h : heap) (ts : list ref) :
  existsb (isComplete_at h) ts = false → List.filter (isComplete_at h) ts = [].
Proof.
  induction ts as [|t ts IH]; cbn; [reflexivity|].
  destruct (isComplete_at h t); cbn; [discriminate|exact IH].
Qed.

Lemma some_complete_filter (h : heap) (ts : list ref) :
  existsb (isComplete_at h) ts = true → 0 < length (List.filter (isComplete_at h) ts).
Proof.
  induction ts as [|t ts IH]; cbn; [discriminate|].
  destruct (isComplete_at h t); cbn; [lia|exact IH].
Qed.

(** Without a complete task in the list, the progress is the least
    there is. *)
Lemma calculateProgress_least h L h' L' :
  aborted L = false → some_complete h L = false →
  (Loader.calculateProgress h L <= Loader.calculateProgress h' L')%Q.
Proof.
  intros Ha Hnone. eapply Qle_trans; [|apply (calculateProgress_range h' L')].
  unfold Loader.calculateProgress. rewrite Ha, finishedTasks_filter.
  unfold some_complete in Hnone. rewrite (none_complete_filter _ _ Hnone).
  destruct (length (_tasks L) =? 0); [apply Qle_refl|].
  cbn [length Z.of_nat inject_Z]. unfold Qdiv. rewrite Qmult_0_l. apply Qle_refl.
Qed.

Lemma step_progress_monotone h ev h' l L L' :
  keeps_progress h ev = true →
  step h ev = Some h' → loaders h !! l = Some L → loaders h' !! l = Some L' →
  (Loader.calculateProgress h L <= Loader.calculateProgress h' L')%Q.
Proof.
  intros Hkeep Hstep HL HL'.
  destruct (step_loader _ _ _ _ _ Hstep HL) as (L1 & HL1 & Ha & Ht).
  assert (L1 = L') as -> by congruence.
  pose proof (step_completion_grows _ _ _ Hstep) as Hgrow.
  assert (∀ t, isComplete_at h t = true → isComplete_at h' t = true) as Hmono.
  { intros t. apply completion_grows_isComplete_at. assumption. }
  destruct (aborted L') eqn:Ha'.
  { rewrite (calculateProgress_aborted h' L' Ha'). apply calculateProgress_range. }
  destruct (aborted L) eqn:HaL; [specialize (Ha eq_refl); discriminate|].
  destruct (some_complete h L) eqn:Hsome;
    [|by apply calculateProgress_least].
  unfold Loader.calculateProgress. rewrite Ha', HaL, !finishedTasks_filter, Ht.
  assert (∀ ts, (if length ts =? 0 then 0%Q
                 else inject_Z (Z.of_nat (length (List.filter (isComplete_at h) ts)))
                      / inject_Z (Z.of_nat (length ts))) <=
                (if length ts =? 0 then 0%Q
                 else inject_Z (Z.of_nat (length (List.filter (isComplete_at h') ts)))
                      / inject_Z (Z.of_nat (length ts))))%Q as Hsame.
  { intros [|t ts]; [discriminate|]. cbn [length Nat.eqb].
    apply ratio_le; [lia|lia|]. apply Nat.mul_le_mono_r.
    apply filter_length_mono. assumption. }
  unfold keeps_progress in Hkeep.
  destruct ev; cbn [lowers_progress] in Hkeep; simpl next_tasks; try apply Hsame.
  - destruct (Nat.eqb_spec l0 l) as [->|Hne]; [|apply Hsame].
    rewrite HL, HaL, Hsome in Hkeep. cbn in Hkeep.
    destruct (isComplete_at h t) eqn:Hc; [|discriminate].
    rewrite List.filter_app, !length_app. simpl List.filter.
    rewrite (Hmono _ Hc). cbn [length].
    replace (length (_tasks L) + 1 =? 0) with false by (symmetry; apply Nat.eqb_neq; lia).
    destruct (_tasks L) as [|t0 ts] eqn:Hts.
    + cbn [length Nat.eqb]. apply ratio_nonneg. lia.
    + cbn [length Nat.eqb].
      pose proof (filter_length_le (isComplete_at h) (t0 :: ts)) as Hle.
      pose proof (filter_length_mono (isComplete_at h) (isComplete_at h') (t0 :: ts) Hmono)
        as Hle'.
      cbn [length] in Hle. apply ratio_le; [lia|lia|]. nia.
  - destruct (Nat.eqb_spec l0 l) as [->|Hne]; [|apply Hsame].
    rewrite HL, HaL, Hsome in Hkeep. discriminate.
  - destruct (Nat.eqb_spec l0 l) as [->|Hne]; [|apply Hsame].
    rewrite HL, HaL, Hsome in Hkeep. discriminate.
Qed.

Lemma step_lowers_progress h ev h' :
  lowers_progress h ev = true → step h ev = Some h' →
  ∃ l L L', loaders h !! l = Some L ∧ loaders h' !! l = Some L' ∧
    (Loader.calculateProgress h' L' < Loader.calculateProgress h L)%Q.
Proof.
  intros Hlow Hstep.
  assert (Hpos : ∀ L, aborted L = false → some_complete h L = true →
            (0 < Loader.calculateProgress h L)%Q).
  { intros L Ha Hsome. unfold Loader.calculateProgress.
    rewrite Ha, finishedTasks_filter.
    pose proof (some_complete_filter _ _ Hsome) as Hc.
    pose proof (filter_length_le (isComplete_at h) (_tasks L)) as Hle.
    destruct (Nat.eqb_spec (length (_tasks L)) 0) as [H0|_]; [lia|].
    apply ratio_pos; lia. }
  destruct ev; cbn [lowers_progress] in Hlow; try discriminate.
  - destruct (loaders h !! l) as [L|] eqn:HL; [|discriminate].
    destruct (aborted L) eqn:Ha; [discriminate|].
    destruct (some_complete h L) eqn:Hsome; [|discriminate].
    destruct (isComplete_at h t) eqn:Hc; [discriminate|].
    cbn [step] in Hstep. unfold Loader.addTask in Hstep. rewrite HL in Hstep.
    apply task_setLoader_spec in Hstep as (Hl & _ & _ & _ & Hsame).
    exists l, L, (mkLoader (_tasks L ++ [t]) (aborted L) (error L)).
    split; [done|]. split; [rewrite Hl; cbn; apply lookup_insert_eq|].
    assert (Hcomp : ∀ x, isComplete_at h' x = isComplete_at h x).
    { intros x. by rewrite (same_completion_isComplete_at _ _ x Hsame). }
    unfold Loader.calculateProgress. cbn [aborted _tasks]. rewrite Ha.
    rewrite !finishedTasks_filter. cbn [_tasks].
    rewrite (List.filter_ext _ _ Hcomp), List.filter_app, !length_app.
    cbn [List.filter]. rewrite Hc. cbn [length].
    pose proof (some_complete_filter _ _ Hsome) as Hpos'.
    pose proof (filter_length_le (isComplete_at h) (_tasks L)) as Hle.
    replace (length (_tasks L) + 1 =? 0) with false by (symmetry; apply Nat.eqb_neq; lia).
    destruct (Nat.eqb_spec (length (_tasks L)) 0) as [H0|_]; [lia|].
    apply ratio_lt; [lia|lia|nia].
  - destruct (loaders h !! l) as [L|] eqn:HL; [|discriminate].
    destruct (aborted L) eqn:Ha; [discriminate|].
    destruct (some_complete h L) eqn:Hsome; [|discriminate].
    cbn [step] in Hstep. unfold Loader.resetTasks in Hstep. rewrite HL in Hstep.
    apply updateProgress_frame in Hstep as (_ & Hl).
    exists l, L, (mkLoader [] (aborted L) (error L)).
    split; [done|]. split; [rewrite Hl; cbn; apply lookup_insert_eq|].
    replace (Loader.calculateProgress h' _) with 0%Q
      by (unfold Loader.calculateProgress; cbn; by rewrite Ha).
    by apply Hpos.
  - destruct (loaders h !! l) as [L|] eqn:HL; [|discriminate].
    destruct (aborted L) eqn:Ha; [discriminate|].
    destruct (some_complete h L) eqn:Hsome; [|discriminate].
    cbn [step] in Hstep. unfold Loader.cleanup in Hstep. rewrite HL in Hstep.
    destruct (for_each _ _ h) as [h1|]; [|discriminate]. injection Hstep as <-.
    exists l, L, (mkLoader [] (aborted L) (error L)).
    split; [done|]. split; [cbn; apply lookup_insert_eq|].
    replace (Loader.calculateProgress _ (mkLoader [] _ _)) with 0%Q
      by (unfold Loader.calculateProgress; cbn; by rewrite Ha).
    by apply Hpos.
Qed.

Lemma exec_progress_monotone evs : ∀ h h' l L L',
  steady h evs = true →
  exec h evs = Some h' → loaders h !! l = Some L → loaders h' !! l = Some L' →
  (Loader.calculateProgress h L <= Loader.calculateProgress h' L')%Q.
Proof.
  induction evs as [|ev evs IH]; intros h h' l L L' Hsteady Hex HL HL'.
  - simpl in Hex. injection Hex as <-. assert (L' = L) as -> by congruence.
    apply Qle_refl.
  - simpl in Hex, Hsteady. destruct (step h ev) as [h1|] eqn:Hstep; [|discriminate].
    apply andb_prop in Hsteady as [Hkeep Hsteady].
    destruct (step_loader _ _ _ _ _ Hstep HL) as (L1 & HL1 & _).
    eapply Qle_trans.
    + eapply step_progress_monotone; eassumption.
    + eapply IH; eassumption.
Qed.

(** C5, amended. Along every sequence of events none of which lowers
    the progress, the progress computed by a loader never decreases; it
    always lies between 0 and 1.  The events that lower it are exactly
    these, on a loader that is not aborted and lists a complete task:
    [resetTasks] and [cleanup], which bring it back to 0, and the
    registration of a task that is not complete; each of them makes the
    progress of its loader strictly smaller.  Registrations on a loader
    that lists no complete task, or that is aborted, keep the progress,
    as do registrations of complete tasks.  [abort()] forces the
    progress to 1. *)
Theorem loader_progress_monotone
    (evs : list event) (h h' : heap) (l : ref) (L L' : loader) :
  steady h evs = true →
  exec h evs = Some h' →
  loaders h !! l = Some L → loaders h' !! l = Some L' →
  (Loader.calculateProgress h L <= Loader.calculateProgress h' L')%Q ∧
  (0 <= Loader.calculateProgress h L <= 1)%Q ∧
  (aborted L' = false →
   ∀ h'' L'', step h' (ResetTasks l) = Some h'' → loaders h'' !! l = Some L'' →
     Loader.calculateProgress h'' L'' = 0%Q) ∧
  (∀ h'' L'', step h' (Abort l) = Some h'' → loaders h'' !! l = Some L'' →
     Loader.calculateProgress h'' L'' = 1%Q) ∧
  (∀ h0 ev h1, lowers_progress h0 ev = true → step h0 ev = Some h1 →
     ∃ l0 L0 L1, loaders h0 !! l0 = Some L0 ∧ loaders h1 !! l0 = Some L1 ∧
       (Loader.calculateProgress h1 L1 < Loader.calculateProgress h0 L0)%Q).
Proof.
  intros Hsteady Hex HL HL'. split; [|split; [|split; [|split]]].
  - eapply exec_progress_monotone; eassumption.
  - apply calculateProgress_range.
  - intros Ha h'' L'' Hstep HL''.
    destruct (step_loader _ _ _ _ _ Hstep HL') as (L1 & HL1 & _ & Ht).
    assert (L1 = L'') as -> by congruence.
    simpl in Ht. rewrite Nat.eqb_refl in Ht.
    simpl in Hstep. unfold Loader.resetTasks in Hstep. rewrite HL' in Hstep.
    apply updateProgress_frame in Hstep as (_ & Hl).
    rewrite Hl in HL''. simpl in HL''. rewrite lookup_insert_eq in HL''.
    injection HL'' as <-. unfold Loader.calculateProgress. simpl. rewrite Ha.
    reflexivity.
  - intros h'' L'' Hstep HL''.
    cbn [step] in Hstep. unfold Loader.abort in Hstep. rewrite HL' in Hstep.
    apply for_each_task_abort_spec in Hstep as (Hl & _).
    rewrite Hl in HL''. cbn in HL''. rewrite lookup_insert_eq in HL''.
    injection HL'' as <-. reflexivity.
  - intros h0 ev h1. apply step_lowers_progress.
Qed.

Lemma loader_progress_monotone_witness :
  ∃ h h' L L',
    exec empty_heap [NewLoader 0; NewManual 1; NewManual 2] = Some h ∧
    steady h [AddTask 0 1; AddTask 0 2; MarkComplete 1; UpdateProgress 0;
              MarkComplete 2; Abort 0] = true ∧
    exec h [AddTask 0 1; AddTask 0 2; MarkComplete 1; UpdateProgress 0;
            MarkComplete 2; Abort 0] = Some h' ∧
    loaders h !! 0 = Some L ∧ loaders h' !! 0 = Some L' ∧
    (Loader.calculateProgress h L <= Loader.calculateProgress h' L')%Q.
Proof.
  eexists _, _, _, _.
  split; [vm_compute; reflexivity|]. split; [vm_compute; reflexivity|].
  split; [vm_compute; reflexivity|].
  split; [vm_compute; reflexivity|]. split; [vm_compute; reflexivity|].
  refine (proj1 (loader_progress_monotone
                   [AddTask 0 1; AddTask 0 2; MarkComplete 1; UpdateProgress 0;
                    MarkComplete 2; Abort 0]
                   _ _ 0 _ _ _ _ _ _)); vm_compute; reflexivity.
Defined.

(** *** Cleanup *)

Lemma set_loader_same l L h :
  loaders h !! l = Some L → set_loader l L h = h.
Proof.
  intros HL. destruct h as [ts ls es]. unfold set_loader. simpl in *.
  rewrite insert_id by assumption. reflexivity.
Qed.

Lemma progress_event_silent t T e ev h :
  tasks h !! t = Some T → Task.getLoader T = LNull →
  ev ∈ progress_events t T e →
  ∃ h', step h ev = Some h' ∧ effects h' = effects h ∧ loaders h' = loaders h.
Proof.
  intros HT Hnull Hin. destruct T as [r|i|m]; simpl in Hin, Hnull.
  - apply elem_of_cons in Hin as [->|Hin];
      [|apply list_elem_of_singleton in Hin as ->];
      simpl; unfold with_request; rewrite HT; simpl; rewrite Hnull; simpl;
      eexists; split; reflexivity || (split; reflexivity).
  - apply list_elem_of_singleton in Hin as ->.
    simpl. rewrite HT. simpl. rewrite Hnull. simpl.
    eexists. split; [reflexivity|]. split; reflexivity.
  - apply list_elem_of_singleton in Hin as ->.
    simpl. rewrite HT. simpl. rewrite Hnull. simpl.
    eexists. split; [reflexivity|]. split; reflexivity.
Qed.

(** C9, as stated, fails: [cleanup] unbinds the tasks that are in the
    list when it runs, and [resetTasks] empties the list without
    unbinding.  A task registered and then dropped by [resetTasks] still
    refers to the loader after [cleanup()], and its completion calls the
    [onprogress] hook of the loader again. *)
Lemma loader_cleanup_misses_dropped_task :
  (∃ h h' h'' T,
     exec empty_heap [NewLoader 0; NewManual 1; AddTask 0 1; ResetTasks 0] = Some h ∧
     step h (Cleanup 0) = Some h' ∧
     loaders h' !! 0 = Some (mkLoader [] false false) ∧
     tasks h' !! 1 = Some T ∧ Task.getLoader T = LRef 0 ∧
     step h' (MarkComplete 1) = Some h'' ∧
     notifications 0 (effects h'') = notifications 0 (effects h') ++ [0%Q]) ∧
  ¬ detaches_every_registered.
Proof.
  split.
  - eexists _, _, _, _. vm_compute. repeat split.
  - intros Hclaim.
    assert (∃ h h' T,
              exec empty_heap [NewLoader 0; NewManual 1; AddTask 0 1; ResetTasks 0]
                = Some h ∧
              step h (Cleanup 0) = Some h' ∧
              tasks h' !! 1 = Some T ∧ Task.getLoader T = LRef 0)
      as (h & h' & T & Hex & Hstep & HT & Href).
    { eexists _, _, _. vm_compute. repeat split. }
    refine (Hclaim _ h h' 0 1 T Hex _ Hstep HT Href).
    set_solver.
Qed.

(** C9, amended. In every reachable store, whatever the state of the
    loader and of its tasks, [cleanup()] succeeds, empties the task
    list, and leaves [null] in the [loader] field of every task that was
    in the list; a later progress callback of such a task then runs
    without throwing, calls no [onprogress] hook and changes no loader.
    It touches no task outside the list, so a task dropped from the list
    earlier keeps its [loader] field.  A second [cleanup()] changes
    nothing. *)
Theorem loader_cleanup_detaches (evs : list event) (h : heap) (l : ref) (L : loader) :
  exec empty_heap evs = Some h →
  loaders h !! l = Some L →
  ∃ h', Loader.cleanup l h = Some h' ∧
    loaders h' !! l = Some (mkLoader [] (aborted L) (error L)) ∧
    effects h' = effects h ∧
    (∀ t, t ∈ _tasks L →
       ∃ T, tasks h' !! t = Some T ∧ Task.getLoader T = LNull ∧
         updateLoaderProgress (Task.getLoader T) h' = Some h' ∧
         ∀ e ev, ev ∈ progress_events t T e →
           ∃ h'', step h' ev = Some h'' ∧ effects h'' = effects h' ∧
                  loaders h'' = loaders h') ∧
    (∀ t, t ∉ _tasks L → tasks h' !! t = tasks h !! t) ∧
    Loader.cleanup l h' = Some h'.
Proof.
  intros Hex HL.
  pose proof (valid_refs_exec _ _ _ Hex valid_refs_empty) as Hvalid.
  unfold Loader.cleanup at 1. rewrite HL.
  destruct (for_each_setLoader_total LNull (_tasks L) h) as [h1 Hfe].
  { intros t Hin. eapply Hvalid; eassumption. }
  rewrite Hfe. eexists. split; [reflexivity|].
  destruct (for_each_setLoader_spec _ _ _ _ Hfe) as (Hl & He & _ & Ht).
  split_and!.
  - simpl. apply lookup_insert_eq.
  - simpl. assumption.
  - intros t Hin. destruct (Hvalid _ _ _ HL Hin) as [T HT].
    exists (Task.setLoader LNull T).
    assert (tasks (set_loader l (mkLoader [] (aborted L) (error L)) h1) !! t =
            Some (Task.setLoader LNull T)) as HT'.
    { simpl. rewrite Ht, bool_decide_eq_true_2 by assumption. rewrite HT. reflexivity. }
    split; [exact HT'|]. split; [apply getLoader_setLoader|].
    split; [rewrite getLoader_setLoader; reflexivity|].
    intros e ev Hev.
    eapply progress_event_silent; [exact HT'|apply getLoader_setLoader|exact Hev].
  - intros t Hnin. simpl. rewrite Ht, bool_decide_eq_false_2 by assumption.
    reflexivity.
  - unfold Loader.cleanup. simpl. rewrite lookup_insert_eq. simpl.
    f_equal. apply set_loader_same. simpl. apply lookup_insert_eq.
Qed.

Lemma loader_cleanup_detaches_witness :
  ∃ h h',
    exec empty_heap [NewLoader 0; NewManual 1; NewRequest 2; AddTask 0 1;
                     AddTask 0 2; StartLoad 2; Abort 0] = Some h ∧
    Loader.cleanup 0 h = Some h' ∧
    loaders h' !! 0 = Some (mkLoader [] true false) ∧
    Loader.cleanup 0 h' = Some h'.
Proof.
  eexists _.
  destruct (loader_cleanup_detaches
              [NewLoader 0; NewManual 1; NewRequest 2; AddTask 0 1;
               AddTask 0 2; StartLoad 2; Abort 0] _ 0 (mkLoader [1; 2] true false)
              ltac:(vm_compute; reflexivity) ltac:(vm_compute; reflexivity))
    as (h' & Hclean & HL & _ & _ & _ & Hidem).
  exists h'. split; [vm_compute; reflexivity|]. split; [exact Hclean|].
  split; [exact HL|exact Hidem].
Defined.

(** *** Completion of a request *)

Example request_404_counts_as_complete :
  ∃ h L,
    exec empty_heap
      [NewLoader 0; NewRequest 1; AddTask 0 1; StartLoad 1;
       XhrLoadStart 1 (mkProgressEvent false 0 0); XhrLoad 1 404%Z 0%Z;
       XhrLoadEnd 1 (mkProgressEvent false 0 0)] = Some h ∧
    loaders h !! 0 = Some L ∧
    isComplete_at h 1 = true ∧
    Loader.calculateProgress h L = 1%Q ∧
    notifications 0 (effects h) = [0; 1]%Q.
Proof. eexists _, _. vm_compute. repeat split. Qed.

Lemma loadend_completes h t e h' :
  step h (XhrLoadEnd t e) = Some h' → isComplete_at h' t = true.
Proof.
  simpl. unfold with_request.
  destruct (tasks h !! t) as [[r|i|m]|] eqn:HT; try discriminate.
  intros Hs. apply updateLoaderProgress_frame in Hs as (Ht & _).
  unfold isComplete_at. rewrite Ht. simpl. rewrite lookup_insert_eq. reflexivity.
Qed.

Lemma filter_In_length {A} (f : A → bool) (l : list A) (x : A) :
  In x (List.filter f l) → 1 ≤ length (List.filter f l).
Proof. destruct (List.filter f l); simpl; [contradiction|lia]. Qed.

(** C10. Once [loadend] has fired for a request, whatever happened to
    the transfer before (a refused status, an error, an abort) and
    whatever happens afterwards, [isComplete()] is true; every loader
    holding the request therefore counts it among its finished tasks:
    if it is not aborted its progress is positive, and it is 1 when the
    request is its only task. *)
Theorem request_complete_after_loadend
    (h1 h2 h3 : heap) (t : ref) (e : ProgressEvent) (evs : list event) :
  step h1 (XhrLoadEnd t e) = Some h2 →
  exec h2 evs = Some h3 →
  isComplete_at h2 t = true ∧
  isComplete_at h3 t = true ∧
  ∀ l L, loaders h3 !! l = Some L → t ∈ _tasks L →
    In t (List.filter (isComplete_at h3) (_tasks L)) ∧
    1 ≤ Loader.finishedTasks h3 L ∧
    (aborted L = false → (0 < Loader.calculateProgress h3 L)%Q) ∧
    (_tasks L = [t] → Loader.calculateProgress h3 L = 1%Q).
Proof.
  intros Hend Hex.
  pose proof (loadend_completes _ _ _ _ Hend) as Hc2.
  assert (isComplete_at h3 t = true) as Hc3.
  { eapply completion_grows_isComplete_at; [|exact Hc2].
    eapply exec_completion_grows. eassumption. }
  split; [assumption|]. split; [assumption|].
  intros l L HL Hin.
  assert (In t (List.filter (isComplete_at h3) (_tasks L))) as Hfin.
  { apply filter_In. split; [apply list_elem_of_In; assumption|assumption]. }
  pose proof (filter_In_length _ _ _ Hfin) as Hone.
  split_and!.
  - assumption.
  - rewrite finishedTasks_filter. assumption.
  - intros Ha. unfold Loader.calculateProgress. rewrite Ha.
    destruct (_tasks L) as [|t0 ts] eqn:Hts; [inversion Hin|].
    cbn [length Nat.eqb]. rewrite finishedTasks_filter, Hts.
    apply ratio_pos; lia.
  - intros Hts. unfold Loader.calculateProgress, Loader.finishedTasks.
    rewrite Hts. simpl. rewrite Hc3. destruct (aborted L); reflexivity.
Qed.

Lemma request_complete_after_loadend_witness :
  ∃ h1 h2 h3,
    exec empty_heap
      [NewLoader 0; NewRequest 1; NewManual 2; AddTask 0 1; AddTask 0 2;
       StartLoad 1; XhrLoad 1 404%Z 0%Z] = Some h1 ∧
    step h1 (XhrLoadEnd 1 (mkProgressEvent false 0 0)) = Some h2 ∧
    exec h2 [StartLoad 1; AbortTask 1; XhrAbort 1] = Some h3 ∧
    isComplete_at h3 1 = true ∧
    Qlt 0 (Loader.calculateProgress h3 (mkLoader [1; 2] false false)).
Proof.
  run_trace empty_heap
    [NewLoader 0; NewRequest 1; NewManual 2; AddTask 0 1; AddTask 0 2;
     StartLoad 1; XhrLoad 1 404%Z 0%Z] h1.
  run_trace h1 [XhrLoadEnd 1 (mkProgressEvent false 0 0)] h2.
  run_trace h2 [StartLoad 1; AbortTask 1; XhrAbort 1] h3.
  exists h1, h2, h3.
  split; [vm_compute; reflexivity|]. split; [vm_compute; reflexivity|].
  split; [vm_compute; reflexivity|].
  destruct (request_complete_after_loadend h1 h2 h3 1 (mkProgressEvent false 0 0)
              [StartLoad 1; AbortTask 1; XhrAbort 1]
              ltac:(vm_compute; reflexivity) ltac:(vm_compute; reflexivity))
    as (_ & Hc & Hl).
  split; [exact Hc|].
  apply (Hl 0 (mkLoader [1; 2] false false));
    [vm_compute; reflexivity|left|reflexivity].
Defined.

End LoaderProperties.

(** * Further properties *)

Section ThrottlerAccounting.
Import Throttler.

Lemma remove_first_perm f l : f ∈ l → l ≡ₚ f :: remove_first f l.
Proof.
  induction l as [|g l IH]; intros Hin.
  - inversion Hin.
  - simpl. destruct (Nat.eqb_spec f g) as [->|Hne]; [reflexivity|].
    apply elem_of_cons in Hin as [?|Hin]; [contradiction|].
    rewrite (IH Hin) at 1. apply Permutation_swap.
Qed.

(** Every operation that was invoked is either still pending or has
    completed, and none is counted twice. *)
Lemma started_accounted_step w ev w' :
  step w ev = Some w' →
  started w ≡ₚ (completed w).*1 ++ inflight w →
  started w' ≡ₚ (completed w').*1 ++ inflight w'.
Proof.
  intros Hstep Hacc. destruct ev as [f|f s]; simpl in Hstep.
  - injection Hstep as <-. unfold run.
    destruct (concurrentTasks w <? maxConcurrentTasks w); simpl; [|assumption].
    rewrite Hacc, <- app_assoc. reflexivity.
  - destruct (bool_decide_reflect (f ∈ inflight w)) as [Hin|]; [|discriminate].
    injection Hstep as <-.
    assert (started w ≡ₚ ((completed w).*1 ++ [f]) ++ remove_first f (inflight w))
      as Hmoved.
    { rewrite Hacc, (remove_first_perm f (inflight w) Hin) at 1.
      rewrite <- app_assoc. reflexivity. }
    destruct (settled_cases f s w) as [[Hq1 ->]|[[Hfull ->]|(q & rest & Hq1 & Hlt & ->)]];
      simpl; rewrite fmap_app; simpl; try exact Hmoved.
    rewrite Hmoved, !app_assoc. reflexivity.
Qed.

Lemma started_accounted_exec evs : ∀ w w',
  exec w evs = Some w' →
  started w ≡ₚ (completed w).*1 ++ inflight w →
  started w' ≡ₚ (completed w').*1 ++ inflight w'.
Proof.
  induction evs as [|ev evs IH]; intros w w' Hex Hacc; simpl in Hex.
  - injection Hex as <-. assumption.
  - destruct (step w ev) as [w1|] eqn:Hstep; [|discriminate].
    eapply IH; [eassumption|]. eapply started_accounted_step; eassumption.
Qed.

(** X1. [run] loses no operation and runs none twice: at every moment the
    operations submitted so far are, up to order, those completed, those
    pending and those waiting in the queue. *)
Theorem throttler_no_operation_lost (m : Z) (evs : list event) (w : t) :
  exec (create m) evs = Some w →
  submitted evs ≡ₚ (completed w).*1 ++ inflight w ++ queue w.
Proof.
  intros Hex.
  pose proof (throttler_fifo_exec _ _ _ _ (throttler_inv_create m) Hex) as Hfifo.
  simpl in Hfifo. rewrite <- Hfifo.
  rewrite (started_accounted_exec _ _ _ Hex) by reflexivity.
  rewrite <- app_assoc. reflexivity.
Qed.

Lemma throttler_no_operation_lost_witness :
  let evs := [Run 1%nat; Run 2%nat; Run 3%nat; Settle 2%nat (Failed 7)] in
  let w := mk 2 2 [] [1%nat; 3%nat] [1%nat; 2%nat; 3%nat] [(2%nat, Failed 7)] in
  exec (create 2) evs = Some w ∧
  submitted evs ≡ₚ (completed w).*1 ++ inflight w ++ queue w.
Proof.
  split; [reflexivity|].
  exact (throttler_no_operation_lost 2
           [Run 1%nat; Run 2%nat; Run 3%nat; Settle 2%nat (Failed 7)]
           (mk 2 2 [] [1%nat; 3%nat] [1%nat; 2%nat; 3%nat] [(2%nat, Failed 7)])
           eq_refl).
Defined.

(** X2. The executor never idles while work is waiting: with a limit
    [m >= 0], an operation is queued only while exactly [m] operations
    are pending; so with [m >= 1], once nothing is pending the queue is
    empty and everything submitted has completed. *)
Theorem throttler_work_conserving (m : Z) (evs : list event) (w : t) :
  0 <= m →
  exec (create m) evs = Some w →
  (queue w ≠ [] → concurrentTasks w = m ∧ Z.of_nat (length (inflight w)) = m) ∧
  (0 < m → inflight w = [] →
     queue w = [] ∧ started w = submitted evs ∧
     (completed w).*1 ≡ₚ submitted evs).
Proof.
  intros Hm Hex.
  destruct (throttler_reachable_inv _ _ _ Hex) as (Hmax & Hc & Hle & Hq).
  pose proof (throttler_fifo_exec _ _ _ _ (throttler_inv_create m) Hex) as Hfifo.
  simpl in Hfifo. split.
  - intros Hne. specialize (Hq Hne). split; lia.
  - intros Hpos Hidle.
    assert (queue w = []) as Hempty.
    { destruct (queue w) as [|q rest] eqn:Hqw; [reflexivity|].
      assert (m <= concurrentTasks w) by (apply Hq; discriminate).
      rewrite Hidle in Hc. simpl in Hc. lia. }
    rewrite Hempty, app_nil_r in Hfifo. split; [assumption|]. split; [assumption|].
    rewrite <- Hfifo.
    rewrite (started_accounted_exec _ _ _ Hex) by reflexivity.
    rewrite Hidle, app_nil_r. reflexivity.
Qed.

Lemma throttler_work_conserving_witness :
  let evs := [Run 1%nat; Run 2%nat; Settle 1%nat (Fulfilled 5);
              Settle 2%nat (Failed 7)] in
  let w := mk 1 0 [] [] [1%nat; 2%nat] [(1%nat, Fulfilled 5); (2%nat, Failed 7)] in
  exec (create 1) evs = Some w ∧
  queue w = [] ∧ started w = submitted evs ∧ (completed w).*1 ≡ₚ submitted evs.
Proof.
  split; [reflexivity|].
  exact (proj2 (throttler_work_conserving 1
           [Run 1%nat; Run 2%nat; Settle 1%nat (Fulfilled 5); Settle 2%nat (Failed 7)]
           (mk 1 0 [] [] [1%nat; 2%nat] [(1%nat, Fulfilled 5); (2%nat, Failed 7)])
           ltac:(lia) eq_refl) ltac:(lia) eq_refl).
Defined.

(** X3. A limit of zero or less blocks the executor for good:
    [concurrentTasks < maxConcurrentTasks] never holds, so every
    operation is queued, none is ever invoked, and no promise returned by
    [run] ever settles. *)
Theorem throttler_blocked_without_slots (m : Z) (evs : list event) (w : t) :
  m <= 0 →
  exec (create m) evs = Some w →
  queue w = submitted evs ∧ started w = [] ∧ inflight w = [] ∧
  completed w = [] ∧ concurrentTasks w = 0 ∧
  ∀ f s, step w (Settle f s) = None.
Proof.
  intros Hm Hex.
  destruct (throttler_reachable_inv _ _ _ Hex) as (Hmax & Hc & Hle & Hq).
  assert (inflight w = []) as Hidle.
  { destruct (inflight w); [reflexivity|]. simpl in Hc. lia. }
  pose proof (started_accounted_exec _ _ _ Hex (reflexivity _)) as Hacc.
  rewrite Hidle, app_nil_r in Hacc.
  assert (started w = []) as Hnone.
  { clear - Hex Hm. revert Hex.
    assert (∀ evs w0 w1, maxConcurrentTasks w0 <= 0 → concurrentTasks w0 = 0 →
              inflight w0 = [] → started w0 = [] →
              exec w0 evs = Some w1 → started w1 = []) as Hgen.
    { clear. induction evs as [|ev evs IH]; intros w0 w1 Hmax Hc Hi Hs Hex; simpl in Hex.
      - injection Hex as <-. assumption.
      - destruct ev as [f|f s]; simpl in Hex.
        + apply (IH (run f w0)); try assumption; unfold run;
            destruct (Z.ltb_spec (concurrentTasks w0) (maxConcurrentTasks w0));
            simpl; try lia; assumption.
        + rewrite Hi in Hex. rewrite bool_decide_eq_false_2 in Hex by inversion 1.
          discriminate. }
    apply Hgen; simpl; try reflexivity. assumption. }
  pose proof (throttler_fifo_exec _ _ _ _ (throttler_inv_create m) Hex) as Hfifo.
  simpl in Hfifo. rewrite Hnone in Hfifo. simpl in Hfifo.
  split; [assumption|]. split; [assumption|]. split; [assumption|].
  rewrite Hnone in Hacc. split.
  { destruct (completed w); [reflexivity|]. apply Permutation_nil_l in Hacc.
    discriminate. }
  split.
  { rewrite Hc, Hidle. reflexivity. }
  intros f s. simpl. rewrite Hidle.
  rewrite bool_decide_eq_false_2 by inversion 1. reflexivity.
Qed.

Lemma throttler_blocked_without_slots_witness :
  let w := mk 0 0 [1%nat; 2%nat] [] [] [] in
  exec (create 0) [Run 1%nat; Run 2%nat] = Some w ∧
  queue w = [1%nat; 2%nat] ∧ started w = [] ∧
  step w (Settle 1%nat (Fulfilled 0)) = None.
Proof.
  split; [reflexivity|].
  destruct (throttler_blocked_without_slots 0 [Run 1%nat; Run 2%nat]
              (mk 0 0 [1%nat; 2%nat] [] [] []) ltac:(lia) eq_refl)
    as (Hq & Hs & _ & _ & _ & Hstuck).
  split; [exact Hq|]. split; [exact Hs|]. apply Hstuck.
Defined.

End ThrottlerAccounting.

Section RetryOutcomes.
Import Retry.

(** Unless no iteration is left, the loop ends on a call of [handle] and
    returns what that call produced; the calls made are consecutive. *)
Lemma iterate_outcome e : ∀ n i lastErr s,
  (n = 0%nat ∧ iterate e n i lastErr s = (Thrown lastErr, s)) ∨
  ∃ j, (j < n)%nat ∧
    calls (log (snd (iterate e n i lastErr s))) = calls (log s) ++ seq i (S j) ∧
    match fst (iterate e n i lastErr s) with
    | Resolved v => handle e (i + j) = Ok v
    | Thrown x => ∃ err, handle e (i + j) = Err err ∧ x = Some err
    end.
Proof.
  induction n as [|n IH]; intros i lastErr s; [left; split; reflexivity|].
  right. cbn [iterate]. destruct (handle e i) as [v|err] eqn:Hh.
  - exists 0%nat. rewrite Nat.add_0_r. cbn [fst snd await_handle log].
    rewrite calls_app. split; [lia|]. split; [reflexivity|assumption].
  - destruct (aborted (await_handle i (abort_during_attempt e i) s)) eqn:Ha.
    + exists 0%nat. rewrite Nat.add_0_r. cbn [fst snd await_handle log].
      rewrite calls_app. split; [lia|]. split; [reflexivity|]. eauto.
    + set (s2 := sleep _ _ _).
      assert (calls (log s2) = calls (log s) ++ [i]) as Hc2.
      { unfold s2. simpl. rewrite !calls_app. simpl. rewrite !app_nil_r. reflexivity. }
      destruct (IH (S i) (Some err) s2) as [[-> ->]|(j & Hj & Hc & Hres)].
      * exists 0%nat. rewrite Nat.add_0_r. cbn [fst snd].
        split; [lia|]. split; [exact Hc2|]. eauto.
      * exists (S j). split; [lia|]. split.
        -- rewrite Hc, Hc2, <- app_assoc. reflexivity.
        -- replace (i + S j)%nat with (S i + j)%nat by lia. exact Hres.
Qed.

(** X4. [try] only hands back what [handle] produced: it resolves with the
    value, or throws the error, of its last call of [handle], which is
    one of at most four consecutive calls; it never throws the
    [undefined] that [lastErr] starts with. *)
Theorem retry_outcome_is_last_call (e : env) (s : t) :
  ∃ i, (i < 4)%nat ∧
    calls (log (snd (try_ e s))) = calls (log s) ++ seq 0 (S i) ∧
    match fst (try_ e s) with
    | Resolved v => handle e i = Ok v
    | Thrown x => ∃ err, handle e i = Err err ∧ x = Some err
    end.
Proof.
  unfold try_, MAX_ATTEMPST.
  destruct (iterate_outcome e 4 0 None s) as [[Hn _]|(j & Hj & Hc & Hres)];
    [discriminate|].
  exists j. split; [assumption|]. split; assumption.
Qed.

(** X5. When every attempt fails, the rejection is delivered only after a
    fourth backoff sleep: the loop sleeps after the last failure as it
    does after the others, and only then throws.  Everything [try] did
    is four rounds of call, warning and sleep, in this order, so the
    last thing it does before throwing the fourth error is to sleep
    [2^3 * 500 * random + 50] ms. *)
Theorem retry_exhaustion_sleeps_four_times (e : env) (s0 : t) :
  aborted s0 = false → fail_unaborted e 0 4 →
  ∃ err0 err1 err2 err3,
    handle e 3 = Err err3 ∧
    fst (try_ e s0) = Thrown (Some err3) ∧
    log (snd (try_ e s0)) =
      log s0 ++
      [CallHandle 0; Warn 1 (retryIn 0 (random e 0)) err0; Sleep (retryIn 0 (random e 0));
       CallHandle 1; Warn 2 (retryIn 1 (random e 1)) err1; Sleep (retryIn 1 (random e 1));
       CallHandle 2; Warn 3 (retryIn 2 (random e 2)) err2; Sleep (retryIn 2 (random e 2));
       CallHandle 3; Warn 4 (retryIn 3 (random e 3)) err3; Sleep (retryIn 3 (random e 3))].
Proof.
  intros Hflag Hfail.
  destruct (iterate_failed_rounds e 4 0 0 None s0 (λ _, Hflag) Hfail)
    as (s' & lastErr' & Hit & Hl & _ & err3 & Hh3 & ->).
  destruct (Hfail 0%nat) as (err0 & Hh0 & _); [lia|].
  destruct (Hfail 1%nat) as (err1 & Hh1 & _); [lia|].
  destruct (Hfail 2%nat) as (err2 & Hh2 & _); [lia|].
  cbn [Nat.add] in Hh0, Hh1, Hh2, Hh3.
  exists err0, err1, err2, err3. split; [assumption|].
  unfold try_, MAX_ATTEMPST. change 4%nat with (4 + 0)%nat at 1 2.
  rewrite Hit. cbn [iterate fst snd]. split; [reflexivity|].
  rewrite Hl. cbn [failed_rounds]. rewrite Hh0, Hh1, Hh2, Hh3.
  unfold failed_round. cbn [app Nat.add]. reflexivity.
Qed.

Lemma retry_exhaustion_sleeps_four_times_witness :
  let e := Build_env (λ i, Err (Z.of_nat i)) (λ _, false) (λ _, false) (λ _, 1 # 2) in
  ∃ l err, log (snd (try_ e (mk false []))) =
             l ++ [CallHandle 3; Warn 4 (retryIn 3 (1 # 2)) err; Sleep (retryIn 3 (1 # 2))].
Proof.
  intros e.
  assert (fail_unaborted e 0 4) as Hfail.
  { intros k Hk. exists (Z.of_nat k). repeat split; reflexivity. }
  destruct (retry_exhaustion_sleeps_four_times e (mk false []) eq_refl Hfail)
    as (err0 & err1 & err2 & err3 & _ & _ & Hl).
  exists [CallHandle 0; Warn 1 (retryIn 0 (1 # 2)) err0; Sleep (retryIn 0 (1 # 2));
          CallHandle 1; Warn 2 (retryIn 1 (1 # 2)) err1; Sleep (retryIn 1 (1 # 2));
          CallHandle 2; Warn 3 (retryIn 2 (1 # 2)) err2; Sleep (retryIn 2 (1 # 2))],
         err3.
  exact Hl.
Defined.

Lemma total_delay_app l1 l2 : (total_delay (l1 ++ l2) == total_delay l1 + total_delay l2)%Q.
Proof.
  induction l1 as [|x l1 IH]; simpl.
  - rewrite Qplus_0_l. reflexivity.
  - rewrite IH, Qplus_assoc. reflexivity.
Qed.

Lemma power_positive i : (0 < inject_Z (2 ^ Z.of_nat i))%Q.
Proof. change 0%Q with (inject_Z 0). rewrite <- Zlt_Qlt. apply Z.pow_pos_nonneg; lia. Qed.

Lemma retryIn_ceiling i r :
  (r <= 1)%Q → (retryIn i r <= inject_Z (2 ^ Z.of_nat i) * 500 + 50)%Q.
Proof.
  intros Hr. unfold retryIn. apply Qplus_le_l.
  rewrite <- (Qmult_1_r (inject_Z (2 ^ Z.of_nat i) * 500)) at 2.
  apply Qmult_le_l; [|assumption].
  pose proof (power_positive i). lra.
Qed.

Lemma backoff_budget_nonneg n : ∀ i, (0 <= backoff_budget n i)%Q.
Proof.
  induction n as [|n IH]; intros i; simpl; [lra|].
  pose proof (power_positive i). pose proof (IH (S i)). lra.
Qed.

Lemma iterate_budget e :
  (∀ k, (random e k <= 1)%Q) →
  ∀ n i lastErr s,
    (total_delay (sleeps (log (snd (iterate e n i lastErr s)))) <=
     total_delay (sleeps (log s)) + backoff_budget n i)%Q.
Proof.
  intros Hrand. induction n as [|n IH]; intros i lastErr s.
  - simpl. lra.
  - pose proof (backoff_budget_nonneg (S n) i) as Hpos.
    cbn [iterate]. destruct (handle e i) as [v|err].
    + cbn [snd await_handle log]. rewrite sleeps_app. simpl sleeps.
      rewrite app_nil_r. lra.
    + destruct (aborted (await_handle i (abort_during_attempt e i) s)).
      * cbn [snd await_handle log]. rewrite sleeps_app. simpl sleeps.
        rewrite app_nil_r. lra.
      * eapply Qle_trans; [apply IH|].
        cbn [sleep warn await_handle log]. rewrite !sleeps_app. simpl sleeps.
        rewrite !app_nil_r, total_delay_app. simpl total_delay.
        pose proof (retryIn_ceiling i (random e i) (Hrand i)).
        cbn [backoff_budget]. lra.
Qed.

(** X6. Exponential backoff bounds the time [try] spends sleeping: whatever
    [handle] does and whenever [abort()] is called, the delays of one
    [try] add up to at most 500 * (1 + 2 + 4 + 8) + 4 * 50 = 7700 ms, as
    [Math.random()] never exceeds 1. *)
Theorem retry_total_backoff_bounded (e : env) (s : t) :
  (∀ k, (random e k <= 1)%Q) →
  (total_delay (sleeps (log (snd (try_ e s)))) <= total_delay (sleeps (log s)) + 7700)%Q.
Proof.
  intros Hrand. unfold try_, MAX_ATTEMPST.
  eapply Qle_trans; [apply iterate_budget; assumption|].
  apply Qplus_le_r. vm_compute. discriminate.
Qed.

Lemma retry_total_backoff_bounded_witness :
  let e := Build_env (λ i, Err (Z.of_nat i)) (λ _, false) (λ _, false) (λ _, 1%Q) in
  (total_delay (sleeps (log (snd (try_ e (mk false [])))) ) <= 0 + 7700)%Q.
Proof.
  intros e.
  apply (retry_total_backoff_bounded e (mk false [])).
  intros k. apply Qle_refl.
Defined.

End RetryOutcomes.

Section StoreSteps.
Local Open Scope nat_scope.

Lemma abort_abort T : (Task.abort (Task.abort T).1).1 = (Task.abort T).1.
Proof. destruct T; reflexivity. Qed.

Lemma task_abort_tasks t h h' :
  task_abort t h = Some h' →
  ∃ T, tasks h !! t = Some T ∧ tasks h' = <[t := (Task.abort T).1]> (tasks h).
Proof.
  unfold task_abort. destruct (tasks h !! t) as [T|] eqn:HT; [|discriminate].
  intros [= <-]. exists T. split; [reflexivity|].
  destruct (Task.abort T).2; reflexivity.
Qed.

Lemma for_each_task_abort_tasks ts : ∀ h h',
  for_each task_abort ts h = Some h' →
  ∀ t, tasks h' !! t =
       if bool_decide (t ∈ ts) then (λ T, (Task.abort T).1) <$> tasks h !! t
       else tasks h !! t.
Proof.
  induction ts as [|t0 ts IH]; intros h h' Hfe t; simpl in Hfe.
  - injection Hfe as <-. reflexivity.
  - destruct (task_abort t0 h) as [h1|] eqn:H1; [|discriminate].
    destruct (task_abort_tasks _ _ _ H1) as (T0 & HT0 & Ht1).
    rewrite (IH _ _ Hfe t), Ht1.
    destruct (decide (t = t0)) as [->|Hne].
    + rewrite lookup_insert_eq, HT0. simpl. rewrite abort_abort.
      rewrite (bool_decide_eq_true_2 (t0 ∈ t0 :: ts)) by left.
      destruct (bool_decide (t0 ∈ ts)); reflexivity.
    + rewrite lookup_insert_ne by congruence.
      destruct (bool_decide_reflect (t ∈ ts)) as [Hin|Hnin].
      * rewrite bool_decide_eq_true_2 by (right; assumption). reflexivity.
      * rewrite bool_decide_eq_false_2; [reflexivity|].
        intros Hin. apply elem_of_cons in Hin as [?|?]; contradiction.
Qed.

Lemma lookup_written (ts : gmap nat task) t0 t T T' :
  ts !! t = Some T →
  (t0 = t → T' = T) →
  <[t0 := T']> ts !! t = Some T.
Proof.
  intros HT Heq. destruct (decide (t0 = t)) as [->|Hne].
  - rewrite lookup_insert_eq, (Heq eq_refl). reflexivity.
  - rewrite lookup_insert_ne by assumption. assumption.
Qed.

(** One turn of the event loop changes a task exactly as [task_after]
    says, and deallocates none. *)
Lemma step_task h ev h' t T :
  step h ev = Some h' → tasks h !! t = Some T →
  tasks h' !! t = Some (task_after h ev t T).
Proof.
  intros Hstep HT.
  destruct ev; simpl in Hstep; cbn [task_after];
    unfold alloc_task, with_request, Loader.addTask, Loader.resetTasks,
           Loader.abort, Loader.cleanup in Hstep;
    repeat case_match; simplify_eq;
    try (match goal with H : updateLoaderProgress _ _ = Some _ |- _ =>
           apply updateLoaderProgress_frame in H as (-> & _) end);
    try (match goal with H : Loader.updateProgress _ _ = Some _ |- _ =>
           apply updateProgress_frame in H as (-> & _) end);
    simpl; try assumption;
    try (apply lookup_written; [assumption|intros ->; congruence]);
    try (rewrite lookup_insert_eq; congruence);
    try (rewrite lookup_insert_ne by assumption; assumption).
  - (* AddTask, this task *)
    apply task_setLoader_spec in Hstep as (_ & _ & _ & -> & _). simpl.
    rewrite lookup_insert_eq, HT. reflexivity.
  - (* AddTask, another task *)
    apply task_setLoader_spec in Hstep as (_ & _ & _ & -> & _). simpl.
    rewrite lookup_insert_ne by assumption. assumption.
  - (* Abort, a registered task *)
    rewrite (for_each_task_abort_tasks _ _ _ Hstep t). simpl.
    match goal with H : bool_decide _ = true |- _ => rewrite H end.
    rewrite HT. reflexivity.
  - (* Abort, another task *)
    rewrite (for_each_task_abort_tasks _ _ _ Hstep t). simpl.
    match goal with H : bool_decide _ = false |- _ => rewrite H end.
    assumption.
  - (* Cleanup, a registered task *)
    match goal with H : for_each _ _ _ = Some _ |- _ =>
      apply for_each_setLoader_spec in H as (_ & _ & _ & Ht) end.
    rewrite Ht.
    match goal with H : bool_decide _ = true |- _ => rewrite H end.
    rewrite HT. reflexivity.
  - (* Cleanup, another task *)
    match goal with H : for_each _ _ _ = Some _ |- _ =>
      apply for_each_setLoader_spec in H as (_ & _ & _ & Ht) end.
    rewrite Ht.
    match goal with H : bool_decide _ = false |- _ => rewrite H end.
    assumption.
  - (* AbortTask, this task *)
    apply task_abort_tasks in Hstep as (T0 & HT0 & ->).
    rewrite lookup_insert_eq. congruence.
  - (* AbortTask, another task *)
    apply task_abort_tasks in Hstep as (T0 & HT0 & ->).
    rewrite lookup_insert_ne by assumption. assumption.
Qed.

Lemma decide_Some {A} (a b : nat) (x y : A) :
  (if decide (Some a = Some b) then x else y) = (if decide (a = b) then x else y).
Proof. repeat case_decide; congruence. Qed.

Lemma updateProgress_notification l0 h0 h' l :
  Loader.updateProgress l0 h0 = Some h' →
  notifications l (effects h') =
  notifications l (effects h0) ++ (if decide (l0 = l) then report h' l else []).
Proof.
  unfold Loader.updateProgress, report.
  destruct (loaders h0 !! l0) as [L0|] eqn:HL0; [|discriminate].
  destruct (error L0) eqn:He; intros [= <-].
  - destruct (decide (l0 = l)) as [<-|Hne]; [|rewrite app_nil_r; reflexivity].
    rewrite HL0, He, app_nil_r. reflexivity.
  - cbn [emit effects loaders]. rewrite notifications_app. cbn [notifications].
    destruct (decide (l0 = l)) as [<-|Hne].
    + rewrite Nat.eqb_refl, HL0, He. reflexivity.
    + apply Nat.eqb_neq in Hne. rewrite Hne. reflexivity.
Qed.

Lemma updateLoaderProgress_notification s h0 h' l :
  updateLoaderProgress s h0 = Some h' →
  notifications l (effects h') =
  notifications l (effects h0) ++
  (if decide (truthy s = Some l) then report h' l else []).
Proof.
  unfold updateLoaderProgress. destruct (truthy s) as [l0|].
  - intros Hup. rewrite (updateProgress_notification _ _ _ l Hup).
    destruct (decide (l0 = l)) as [->|Hne].
    + rewrite decide_True by reflexivity. reflexivity.
    + rewrite decide_False by congruence. reflexivity.
  - intros [= <-]. rewrite decide_False by discriminate.
    rewrite app_nil_r. reflexivity.
Qed.

(** One turn of the event loop calls the hook of a loader at most once:
    the loader is the one [notified] names, and the value is the progress
    it computes in the store the turn leaves behind. *)
Lemma step_notification h ev h' l :
  step h ev = Some h' →
  notifications l (effects h') =
  notifications l (effects h) ++
  (if decide (notified h ev = Some l) then report h' l else []).
Proof.
  intros Hstep.
  destruct ev; simpl in Hstep; cbn [notified];
    unfold alloc_task, with_request, Loader.addTask, Loader.resetTasks,
           Loader.abort, Loader.cleanup in Hstep;
    repeat (match type of Hstep with
            | context [match ?x with _ => _ end] => destruct x eqn:?
            end; try discriminate);
    try (injection Hstep as <-);
    rewrite ?decide_False by discriminate;
    try (rewrite app_nil_r; reflexivity).
  - (* AddTask *)
    apply task_setLoader_spec in Hstep as (_ & -> & _). rewrite app_nil_r. reflexivity.
  - (* ResetTasks *)
    rewrite decide_Some. exact (updateProgress_notification _ _ _ l Hstep).
  - (* Abort *)
    apply for_each_task_abort_spec in Hstep as (_ & _ & Hn & _).
    rewrite app_nil_r. apply Hn.
  - (* Cleanup *)
    match goal with H : for_each _ _ _ = Some _ |- _ =>
      apply for_each_setLoader_spec in H as (_ & He & _) end.
    cbn [set_loader effects]. rewrite He, app_nil_r. reflexivity.
  - (* UpdateProgress *)
    rewrite decide_Some. exact (updateProgress_notification _ _ _ l Hstep).
  - (* AbortTask *)
    apply task_abort_spec in Hstep as (_ & _ & Hn & _).
    rewrite app_nil_r. apply Hn.
  - (* MarkComplete *)
    exact (updateLoaderProgress_notification _ _ _ l Hstep).
  - (* ImgOnload *)
    exact (updateLoaderProgress_notification _ _ _ l Hstep).
  - (* XhrLoadStart *)
    exact (updateLoaderProgress_notification _ _ _ l Hstep).
  - (* XhrLoadEnd *)
    exact (updateLoaderProgress_notification _ _ _ l Hstep).
Qed.

Lemma loaders_written (ls : gmap nat loader) l0 l L0 L L1 :
  ls !! l0 = Some L0 → ls !! l = Some L →
  <[l0 := L1]> ls !! l = Some (if decide (l0 = l) then L1 else L).
Proof.
  intros H0 HL. destruct (decide (l0 = l)) as [->|Hne].
  - apply lookup_insert_eq.
  - rewrite lookup_insert_ne by assumption. assumption.
Qed.

(** One turn of the event loop changes a loader exactly as
    [loader_after] says, and deallocates none. *)
Lemma step_loader_exact h ev h' l L :
  step h ev = Some h' → loaders h !! l = Some L →
  loaders h' !! l = Some (loader_after ev l L).
Proof.
  intros Hstep HL.
  destruct ev; simpl in Hstep; cbn [loader_after];
    unfold alloc_task, with_request, Loader.addTask, Loader.resetTasks,
           Loader.abort, Loader.cleanup in Hstep;
    repeat (match type of Hstep with
            | context [match ?x with _ => _ end] => destruct x eqn:?
            end; try discriminate);
    try (injection Hstep as <-);
    try (match goal with H : updateLoaderProgress _ _ = Some _ |- _ =>
           apply updateLoaderProgress_frame in H as (_ & ->) end);
    try assumption.
  - (* NewLoader *)
    simpl. rewrite lookup_insert_ne by congruence. assumption.
  - (* AddTask *)
    apply task_setLoader_spec in Hstep as (-> & _). simpl.
    rewrite (loaders_written _ _ _ _ _ _ Heqo HL).
    destruct (decide (l0 = l)) as [->|]; [|reflexivity]. congruence.
  - (* ResetTasks *)
    apply updateProgress_frame in Hstep as (_ & ->). simpl.
    rewrite (loaders_written _ _ _ _ _ _ Heqo HL).
    destruct (decide (l0 = l)) as [->|]; [|reflexivity]. congruence.
  - (* Abort *)
    apply for_each_task_abort_spec in Hstep as (-> & _). simpl.
    rewrite (loaders_written _ _ _ _ _ _ Heqo HL).
    destruct (decide (l0 = l)) as [->|]; [|reflexivity]. congruence.
  - (* Cleanup *)
    match goal with H : for_each _ _ _ = Some _ |- _ =>
      apply for_each_setLoader_spec in H as (Hl & _) end.
    simpl. rewrite Hl. rewrite (loaders_written _ _ _ _ _ _ Heqo HL).
    destruct (decide (l0 = l)) as [->|]; [|reflexivity]. congruence.
  - (* UpdateProgress *)
    apply updateProgress_frame in Hstep as (_ & ->). assumption.
  - (* SetError *)
    simpl. rewrite (loaders_written _ _ _ _ _ _ Heqo HL).
    destruct (decide (l0 = l)) as [->|]; [|reflexivity]. congruence.
  - (* AbortTask *)
    apply task_abort_spec in Hstep as (-> & _). assumption.
Qed.

End StoreSteps.

(** [run_events h evs x] names [x] the store reached from [h] by [evs]. *)
Ltac run_events h evs x :=
  let r := eval vm_compute in (exec h evs) in
  lazymatch r with
  | Some ?h' => pose (x := h')
  end.

Section HookProperties.
Local Open Scope nat_scope.

Lemma report_in_unit_interval h l : Forall in_unit_interval (report h l).
Proof.
  unfold report. destruct (loaders h !! l) as [L|]; [|constructor].
  destruct (error L); constructor; [|constructor].
  apply calculateProgress_range.
Qed.

Lemma exec_notifications_in_unit_interval evs : ∀ h h' l,
  exec h evs = Some h' →
  Forall in_unit_interval (notifications l (effects h)) →
  Forall in_unit_interval (notifications l (effects h')).
Proof.
  induction evs as [|ev evs IH]; intros h h' l Hex Hok; simpl in Hex.
  - injection Hex as <-. assumption.
  - destruct (step h ev) as [h1|] eqn:Hstep; [|discriminate].
    apply (IH h1 h' l Hex). rewrite (step_notification _ _ _ l Hstep).
    apply Forall_app. split; [assumption|].
    case_decide; [apply report_in_unit_interval|constructor].
Qed.

(** X7. Whatever is done to loaders and tasks, every value a loader passes to
    its [onprogress] hook lies between 0 and 1. *)
Theorem loader_hook_receives_fractions (evs : list event) (h : heap) (l : ref) :
  exec empty_heap evs = Some h →
  Forall in_unit_interval (notifications l (effects h)).
Proof.
  intros Hex. apply (exec_notifications_in_unit_interval evs empty_heap h l Hex).
  constructor.
Qed.

Lemma loader_hook_receives_fractions_witness :
  ∃ h,
    exec empty_heap [NewLoader 0; NewManual 1; NewImg 2; AddTask 0 1; AddTask 0 2;
                     MarkComplete 1; ResetTasks 0; Abort 0; UpdateProgress 0] = Some h ∧
    Qred <$> notifications 0 (effects h) = [1 # 2; 0; 1]%Q ∧
    Forall in_unit_interval (notifications 0 (effects h)).
Proof.
  run_events empty_heap
    [NewLoader 0; NewManual 1; NewImg 2; AddTask 0 1; AddTask 0 2;
     MarkComplete 1; ResetTasks 0; Abort 0; UpdateProgress 0] h.
  exists h. split; [vm_compute; reflexivity|]. split; [vm_compute; reflexivity|].
  apply (loader_hook_receives_fractions
           [NewLoader 0; NewManual 1; NewImg 2; AddTask 0 1; AddTask 0 2;
            MarkComplete 1; ResetTasks 0; Abort 0; UpdateProgress 0] h 0).
  vm_compute. reflexivity.
Defined.

(** X8. While [error] is set on a loader its hook stays silent: as long as
    nobody writes [false] into the flag, no call on the loader and no
    callback of its tasks reaches [onprogress], and the flag stays set. *)
Theorem loader_error_silences_hook
    (evs : list event) (h h' : heap) (l : ref) (L : loader) :
  exec h evs = Some h' →
  loaders h !! l = Some L → error L = true →
  SetError l false ∉ evs →
  notifications l (effects h') = notifications l (effects h) ∧
  ∃ L', loaders h' !! l = Some L' ∧ error L' = true.
Proof.
  revert h L. induction evs as [|ev evs IH]; intros h L Hex HL He Hnot; simpl in Hex.
  - injection Hex as <-. split; [reflexivity|eauto].
  - destruct (step h ev) as [h1|] eqn:Hstep; [|discriminate].
    pose proof (step_loader_exact _ _ _ _ _ Hstep HL) as HL1.
    assert (error (loader_after ev l L) = true) as He1.
    { destruct ev; cbn [loader_after]; try assumption;
        case_decide; try assumption; subst.
      destruct b; [reflexivity|]. exfalso. apply Hnot. left. }
    destruct (IH h1 _ Hex HL1 He1) as (Hn & HL').
    { intros Hin. apply Hnot. right. assumption. }
    split; [|exact HL'].
    rewrite Hn, (step_notification _ _ _ l Hstep).
    case_decide; [|apply app_nil_r].
    unfold report. rewrite HL1, He1. apply app_nil_r.
Qed.

Lemma loader_error_silences_hook_witness :
  ∃ h h',
    exec empty_heap [NewLoader 0; NewManual 1; AddTask 0 1; SetError 0 true] = Some h ∧
    exec h [MarkComplete 1; UpdateProgress 0; ResetTasks 0] = Some h' ∧
    notifications 0 (effects h') = notifications 0 (effects h).
Proof.
  run_events empty_heap [NewLoader 0; NewManual 1; AddTask 0 1; SetError 0 true] h.
  run_events h [MarkComplete 1; UpdateProgress 0; ResetTasks 0] h'.
  exists h, h'. split; [vm_compute; reflexivity|]. split; [vm_compute; reflexivity|].
  refine (proj1 (loader_error_silences_hook
                   [MarkComplete 1; UpdateProgress 0; ResetTasks 0] h h' 0
                   (mkLoader [1] false true) _ _ _ _)).
  - vm_compute. reflexivity.
  - vm_compute. reflexivity.
  - reflexivity.
  - intros Hin. repeat (apply elem_of_cons in Hin as [Hin|Hin]; [discriminate|]).
    inversion Hin.
Defined.

End HookProperties.

Section AbortCalls.
Local Open Scope nat_scope.

Lemma xhr_aborts_app es1 es2 :
  xhr_aborts (es1 ++ es2) = xhr_aborts es1 ++ xhr_aborts es2.
Proof.
  induction es1 as [|[l' p|t|t] es1 IH]; simpl; rewrite ?IH; reflexivity.
Qed.

Lemma task_abort_xhr t h h' :
  task_abort t h = Some h' →
  xhr_aborts (effects h') =
    xhr_aborts (effects h) ++ (if transfer_in_flight h t then [t] else []) ∧
  ∀ t', transfer_in_flight h' t' = transfer_in_flight h t'.
Proof.
  intros Habort.
  destruct (task_abort_tasks _ _ _ Habort) as (T & HT & Ht).
  split.
  - unfold task_abort in Habort. rewrite HT in Habort. injection Habort as <-.
    unfold transfer_in_flight. rewrite HT.
    destruct T as [r|i|m]; simpl; rewrite ?xhr_aborts_app; simpl;
      rewrite ?app_nil_r; try reflexivity.
    destruct (Request.xhr r); simpl; rewrite ?xhr_aborts_app; simpl;
      rewrite ?app_nil_r; reflexivity.
  - intros t'. unfold transfer_in_flight. rewrite Ht.
    destruct (decide (t = t')) as [<-|Hne].
    + rewrite lookup_insert_eq, HT. destruct T; reflexivity.
    + rewrite lookup_insert_ne by assumption. reflexivity.
Qed.

Lemma updateProgress_enabled l h :
  is_Some (loaders h !! l) → is_Some (Loader.updateProgress l h).
Proof.
  intros [L HL]. unfold Loader.updateProgress. rewrite HL.
  destruct (error L); eauto.
Qed.

Lemma updateLoaderProgress_calls s h h' :
  updateLoaderProgress s h = Some h' →
  abort_calls (effects h') = abort_calls (effects h) ∧
  xhr_aborts (effects h') = xhr_aborts (effects h).
Proof.
  unfold updateLoaderProgress, Loader.updateProgress.
  destruct (truthy s) as [l|]; [|by intros [= <-]].
  destruct (loaders h !! l) as [L|]; [|done].
  destruct (error L); intros [= <-]; [done|].
  cbn [emit effects]. rewrite abort_calls_app, xhr_aborts_app. cbn.
  by rewrite !app_nil_r.
Qed.

Lemma aborted_task_getLoader fires T :
  Task.getLoader (aborted_task fires T) = Task.getLoader T.
Proof. destruct T as [r|i|m], fires; cbn; try done. by destruct (Request.xhr r). Qed.

Lemma aborted_task_aborted fires T : task_aborted (aborted_task fires T) = true.
Proof. destruct T as [r|i|m], fires; cbn; try done. by destruct (Request.xhr r). Qed.

Lemma aborted_task_idem fires T :
  aborted_task fires (aborted_task fires T) = aborted_task fires T.
Proof.
  destruct T as [r|i|m], fires as [e|]; cbn; try done.
  destruct (Request.xhr r) eqn:Hx; cbn; done.
Qed.

(** What a request holds in [this.xhr] once [abort()] has returned. *)
Lemma aborted_task_xhr fires T :
  match aborted_task fires T with
  | TRequest r' => Request.xhr r'
  | _ => false
  end =
  match T with
  | TRequest r => Request.xhr r && negb (fired fires)
  | _ => false
  end.
Proof.
  destruct T as [r|i|m], fires as [e|]; cbn; try done.
  - destruct (Request.xhr r) eqn:Hx; cbn; done.
  - by rewrite andb_true_r.
Qed.

Lemma abort_call_inv fires t h h' :
  abort_call fires t h = Some h' →
  ∃ T, tasks h !! t = Some T ∧
    tasks h' = <[t := aborted_task fires T]> (tasks h) ∧
    loaders h' = loaders h ∧
    abort_calls (effects h') = abort_calls (effects h) ++ [t] ∧
    xhr_aborts (effects h') =
      xhr_aborts (effects h) ++ (if transfer_in_flight h t then [t] else []) ∧
    ∀ l, notifications l (effects h') =
         notifications l (effects h) ++
         (if transfer_in_flight h t && fired fires
          then if decide (truthy (Task.getLoader T) = Some l) then report h' l else []
          else []).
Proof.
  unfold abort_call. cbn [step].
  destruct (task_abort t h) as [h1|] eqn:H1; [|done].
  destruct (task_abort_tasks _ _ _ H1) as (T & HT & Ht1).
  destruct (task_abort_spec _ _ _ H1) as (Hl1 & Hc1 & Hn1 & _).
  destruct (task_abort_xhr _ _ _ H1) as (Hx1 & _).
  assert (Hplain : aborted_task None T = (Task.abort T).1) by by destruct T.
  destruct fires as [e|]; cbn [fired]; rewrite ?andb_false_r, ?andb_true_r.
  2:{ intros [= <-]. exists T. rewrite Hplain. split_and!; try done.
      intros l. by rewrite Hn1, app_nil_r. }
  destruct (transfer_in_flight h t) eqn:Hfl.
  2:{ intros [= <-]. exists T. split_and!; try done.
      - rewrite Ht1. f_equal. unfold transfer_in_flight in Hfl. rewrite HT in Hfl.
        destruct T as [r|i|m]; cbn; try done. by rewrite Hfl.
      - intros l. by rewrite Hn1, app_nil_r. }
  unfold transfer_in_flight in Hfl. rewrite HT in Hfl.
  destruct T as [r|i|m]; try done.
  unfold with_request. rewrite Ht1, lookup_insert_eq. cbn [Task.abort fst].
  cbn [set_task tasks]. rewrite Ht1, lookup_insert_eq. intros Hup.
  exists (TRequest r). split; [done|].
  destruct (updateLoaderProgress_frame _ _ _ Hup) as [Ht Hl].
  destruct (updateLoaderProgress_calls _ _ _ Hup) as [Hc Hx].
  pose proof (λ l, updateLoaderProgress_notification _ _ _ l Hup) as Hn.
  cbn [set_task tasks loaders effects] in Ht, Hl, Hc, Hx, Hn.
  split_and!.
  - rewrite Ht, Ht1, !insert_insert_eq. cbn. by rewrite Hfl.
  - by rewrite Hl.
  - by rewrite Hc, Hc1.
  - by rewrite Hx, Hx1.
  - intros l. rewrite (Hn l), Hn1. done.
Qed.

Lemma abort_call_total fires t h T :
  tasks h !! t = Some T →
  (∀ l, Task.getLoader T = LRef l → is_Some (loaders h !! l)) →
  is_Some (abort_call fires t h).
Proof.
  intros HT Hbound. unfold abort_call. cbn [step].
  destruct (task_abort t h) as [h1|] eqn:H1;
    [|unfold task_abort in H1; by rewrite HT in H1].
  destruct (task_abort_tasks _ _ _ H1) as (T' & HT' & Ht1).
  assert (T' = T) as -> by congruence.
  destruct (task_abort_spec _ _ _ H1) as (Hl1 & _).
  destruct fires as [e|]; [|done].
  destruct (transfer_in_flight h t) eqn:Hfl; [|done].
  unfold transfer_in_flight in Hfl. rewrite HT in Hfl.
  destruct T as [r|i|m]; try done.
  unfold with_request. rewrite Ht1, lookup_insert_eq. cbn [Task.abort fst].
  cbn [set_task tasks]. rewrite Ht1, lookup_insert_eq.
  unfold updateLoaderProgress. cbn [Request.onloadend Request.updateProgress
    Request.onabort Request.abort Request.loader fst].
  destruct (Request.loader r) as [| |l] eqn:Hld; cbn [truthy]; try done.
  apply updateProgress_enabled. cbn [set_task loaders]. rewrite Hl1.
  apply Hbound. done.
Qed.

(** A reference that holds no task holds none after a step, or a task
    just allocated. *)
Lemma step_fresh_task h ev h' t T' :
  step h ev = Some h' → tasks h !! t = None → tasks h' !! t = Some T' →
  Task.getLoader T' = LUndefined.
Proof.
  intros Hstep HN HT'.
  destruct ev; simpl in Hstep;
    unfold alloc_task, with_request, Loader.addTask, Loader.resetTasks,
           Loader.abort, Loader.cleanup in Hstep;
    repeat case_match; simplify_eq;
    try (match goal with H : updateLoaderProgress _ _ = Some _ |- _ =>
           apply updateLoaderProgress_frame in H as (Ht & _) end);
    try (match goal with H : Loader.updateProgress _ _ = Some _ |- _ =>
           apply updateProgress_frame in H as (Ht & _) end);
    try (rewrite Ht in HT'); simpl in HT'; try congruence;
    try (match type of HT' with
         | <[?t0 := _]> _ !! _ = _ =>
             destruct (decide (t0 = t)) as [->|Hne];
             [rewrite lookup_insert_eq in HT'; by simplify_eq
             |rewrite lookup_insert_ne in HT' by done; congruence]
         end).
  - apply task_setLoader_spec in Hstep as (_ & _ & [T0 HT0] & Ht & _).
    cbn in HT0. rewrite Ht in HT'. cbn in HT'.
    destruct (decide (t0 = t)) as [->|Hne]; [congruence|].
    rewrite lookup_insert_ne in HT' by done. congruence.
  - rewrite (for_each_task_abort_tasks _ _ _ Hstep t) in HT'. cbn in HT'.
    rewrite HN in HT'. by case_match.
  - match goal with H : for_each _ _ _ = Some _ |- _ =>
      apply for_each_setLoader_spec in H as (_ & _ & _ & Ht) end.
    rewrite Ht, HN in HT'. by case_match.
  - apply task_abort_tasks in Hstep as (T0 & HT0 & Ht). rewrite Ht in HT'.
    destruct (decide (t0 = t)) as [->|Hne]; [congruence|].
    rewrite lookup_insert_ne in HT' by done. congruence.
Qed.

Lemma task_after_getLoader h ev t T l :
  Task.getLoader (task_after h ev t T) = LRef l →
  Task.getLoader T = LRef l ∨ ev = AddTask l t.
Proof.
  destruct ev; cbn [task_after]; repeat case_match; subst;
    rewrite ?getLoader_setLoader; auto; try congruence;
    destruct T; cbn; unfold Request._load, Request.onload;
    repeat case_match; auto; intros [= ->]; auto.
Qed.

Lemma bound_loaders_step h ev h' :
  step h ev = Some h' → bound_loaders h → bound_loaders h'.
Proof.
  intros Hstep Hb t T' l HT' Hl.
  assert (Hkeep : ∀ l0, is_Some (loaders h !! l0) → is_Some (loaders h' !! l0)).
  { intros l0 [L0 HL0]. destruct (step_loader _ _ _ _ _ Hstep HL0) as (? & ? & _).
    eauto. }
  destruct (tasks h !! t) as [T|] eqn:HT.
  - rewrite (step_task _ _ _ _ _ Hstep HT) in HT'. injection HT' as <-.
    apply task_after_getLoader in Hl as [Hl| ->].
    + apply Hkeep. eapply Hb; eassumption.
    + apply Hkeep. cbn in Hstep. unfold Loader.addTask in Hstep.
      destruct (loaders h !! l); [eauto|done].
  - rewrite (step_fresh_task _ _ _ _ _ Hstep HT HT') in Hl. done.
Qed.

Lemma bound_loaders_exec evs : ∀ h h',
  exec h evs = Some h' → bound_loaders h → bound_loaders h'.
Proof.
  induction evs as [|ev evs IH]; intros h h' Hex Hb; simpl in Hex.
  - by injection Hex as <-.
  - destruct (step h ev) as [h1|] eqn:Hstep; [|done].
    eapply IH; [eassumption|]. eapply bound_loaders_step; eassumption.
Qed.

Lemma bound_loaders_empty : bound_loaders empty_heap.
Proof. intros t T l HT. done. Qed.

End AbortCalls.

Section TaskCallbacks.
Local Open Scope nat_scope.

Lemma isComplete_at_lookup h t T :
  tasks h !! t = Some T → isComplete_at h t = Task.isComplete T.
Proof. intros HT. unfold isComplete_at. rewrite HT. reflexivity. Qed.

Lemma isComplete_on_request f T :
  (∀ r, Request.complete (f r) = Request.complete r) →
  Task.isComplete (on_request f T) = Task.isComplete T.
Proof. intros Hf. destruct T; simpl; [apply Hf|reflexivity|reflexivity]. Qed.

(** X9. The [complete] flag of a task is written by the callback of its
    own class and by nothing else: [markComplete()] for a [Manual], the
    [load] event for an [Img], [loadend] for a [Request]; an image that
    only fails never counts as complete.  A call of [abort()] therefore
    completes a task in one case only, that of a request whose transfer
    it ends: [xhr.abort()] then dispatches [loadend], and [onloadend]
    runs before [abort()] returns.  On any other task, and on a request
    without a transfer or with one that has already ended, [abort()]
    leaves the task as incomplete as it was. *)
Theorem task_completes_only_by_its_callback
    (h : heap) (t : ref) (T : task) :
  tasks h !! t = Some T → Task.isComplete T = false →
  (∀ ev h', step h ev = Some h' →
     (isComplete_at h' t = true ↔ ∃ e, ev = completion_event t T e)) ∧
  (∀ fires t0 h', abort_call fires t0 h = Some h' →
     (isComplete_at h' t = true ↔
      t0 = t ∧ transfer_in_flight h t = true ∧ fired fires = true)).
Proof.
  intros HT Hc. split.
  { intros ev h' Hstep.
    rewrite (isComplete_at_lookup _ _ _ (step_task _ _ _ _ _ Hstep HT)).
    destruct ev; cbn [task_after];
      try solve
        [ split;
          [ intros Hc'; exfalso; revert Hc';
            repeat case_match;
            rewrite ?isComplete_setLoader, ?isComplete_abort;
            rewrite ?isComplete_on_request
              by (intros; unfold Request._load, Request.onload;
                  repeat case_match; reflexivity);
            congruence
          | intros [e' He']; destruct T; discriminate He' ] ].
    - (* MarkComplete *)
      simpl in Hstep. destruct (decide (t0 = t)) as [->|Hne].
      + rewrite HT in Hstep. destruct T as [r|i|m]; try discriminate.
        split; [intros _; exists (mkProgressEvent false 0 0)|]; reflexivity.
      + rewrite Hc. split; [discriminate|].
        intros [e' He']. destruct T; simpl in He'; congruence.
    - (* ImgOnload *)
      simpl in Hstep. destruct (decide (t0 = t)) as [->|Hne].
      + rewrite HT in Hstep. destruct T as [r|i|m]; try discriminate.
        split; [intros _; exists (mkProgressEvent false 0 0)|]; reflexivity.
      + rewrite Hc. split; [discriminate|].
        intros [e' He']. destruct T; simpl in He'; congruence.
    - (* XhrLoadEnd *)
      simpl in Hstep. unfold with_request in Hstep.
      destruct (decide (t0 = t)) as [->|Hne].
      + rewrite HT in Hstep. destruct T as [r|i|m]; try discriminate.
        split; [intros _; eexists|]; reflexivity.
      + rewrite Hc. split; [discriminate|].
        intros [e' He']. destruct T; simpl in He'; congruence.
  }
  intros fires t0 h' Hcall.
  destruct (abort_call_inv _ _ _ _ Hcall) as (T0 & HT0 & Ht & _).
  unfold isComplete_at. rewrite Ht.
  destruct (decide (t0 = t)) as [->|Hne].
  - rewrite lookup_insert_eq. assert (T0 = T) as -> by congruence.
    unfold transfer_in_flight. rewrite HT.
    destruct T as [r|i|m], fires as [e|]; cbn in *;
      unfold Request.isComplete, Img.isComplete, Manual.isComplete in *;
      try (split; [congruence|intros (_ & ? & ?); congruence]).
    destruct (Request.xhr r); cbn; [done|].
    split; [congruence|intros (_ & ? & ?); congruence].
  - rewrite lookup_insert_ne, HT, Hc by done.
    split; [done|]. by intros [? _].
Qed.

Lemma task_completes_only_by_its_callback_witness :
  ∃ h h1 h2,
    exec empty_heap [NewLoader 0; NewRequest 1; AddTask 0 1; StartLoad 1] = Some h ∧
    isComplete_at h 1 = false ∧
    abort_call (Some (mkProgressEvent false 0 0)) 1 h = Some h1 ∧
    isComplete_at h1 1 = true ∧
    abort_call None 1 h = Some h2 ∧
    isComplete_at h2 1 = false.
Proof.
  run_events empty_heap [NewLoader 0; NewRequest 1; AddTask 0 1; StartLoad 1] h.
  pose (T := TRequest (Request.mk (LRef 0) false false false 0 0 false 0 true)).
  assert (HT : tasks h !! 1 = Some T) by (vm_compute; reflexivity).
  destruct (task_completes_only_by_its_callback h 1 T HT eq_refl) as [_ Hcall].
  destruct (abort_call (Some (mkProgressEvent false 0 0)) 1 h) as [h1|] eqn:H1;
    [|vm_compute in H1; discriminate].
  destruct (abort_call None 1 h) as [h2|] eqn:H2;
    [|vm_compute in H2; discriminate].
  exists h, h1, h2. split; [vm_compute; reflexivity|]. split; [reflexivity|].
  split; [exact H1|]. split.
  - apply (Hcall _ _ _ H1). repeat split; vm_compute; reflexivity.
  - split; [exact H2|].
    destruct (isComplete_at h2 1) eqn:Hc; [|reflexivity].
    destruct (proj1 (Hcall _ _ _ H2) Hc) as (_ & _ & Hf). discriminate Hf.
Defined.

(** The progress callbacks of a task bound to an allocated loader can
    always run, and they notify that loader. *)
Lemma progress_event_enabled h t T e ev l :
  tasks h !! t = Some T → Task.getLoader T = LRef l →
  is_Some (loaders h !! l) →
  ev ∈ progress_events t T e →
  is_Some (step h ev) ∧ notified h ev = Some l.
Proof.
  intros HT Hl HL Hin.
  destruct T as [r|i|m]; simpl in Hin, Hl;
    repeat (apply elem_of_cons in Hin as [->|Hin]); try (inversion Hin; fail);
    simpl; unfold with_request; rewrite HT; simpl; rewrite Hl; simpl;
    (split; [apply updateProgress_enabled; assumption|reflexivity]).
Qed.

Lemma completion_event_is_progress_event t T e :
  completion_event t T e ∈ progress_events t T e.
Proof. destruct T; simpl; [right; left|left|left]. Qed.

(** X10. A completion callback tells the loader in the task's [loader] field
    about a store in which the task already counts: the flag is set
    before [updateLoaderProgress] runs, so the hook receives the progress
    computed with this task complete, a positive value whenever the
    loader lists the task and is not aborted. *)
Theorem completion_reports_updated_progress
    (h h' : heap) (t l : ref) (T : task) (L : loader) (e : ProgressEvent) :
  step h (completion_event t T e) = Some h' →
  tasks h !! t = Some T → Task.getLoader T = LRef l →
  loaders h !! l = Some L → error L = false →
  isComplete_at h' t = true ∧
  loaders h' !! l = Some L ∧
  notifications l (effects h') =
    notifications l (effects h) ++ [Loader.calculateProgress h' L] ∧
  (t ∈ _tasks L → aborted L = false → Qlt 0 (Loader.calculateProgress h' L)).
Proof.
  intros Hstep HT Hl HL He.
  assert (isComplete_at h' t = true) as Hc.
  { rewrite (isComplete_at_lookup _ _ _ (step_task _ _ _ _ _ Hstep HT)).
    destruct T; simpl; rewrite decide_True by reflexivity; reflexivity. }
  assert (loaders h' !! l = Some L) as HL'.
  { rewrite (step_loader_exact _ _ _ _ _ Hstep HL). destruct T; reflexivity. }
  split; [assumption|]. split; [assumption|]. split.
  - rewrite (step_notification _ _ _ l Hstep).
    destruct (progress_event_enabled h t T e _ l HT Hl ltac:(eauto)
                (completion_event_is_progress_event t T e)) as [_ ->].
    rewrite decide_True by reflexivity. unfold report. rewrite HL', He. reflexivity.
  - intros Hin Ha. unfold Loader.calculateProgress. rewrite Ha.
    destruct (_tasks L) as [|t0 ts] eqn:Hts; [inversion Hin|].
    cbn [length Nat.eqb]. rewrite finishedTasks_filter, Hts.
    apply ratio_pos; [|lia].
    apply (filter_In_length _ _ t). apply filter_In.
    split; [apply list_elem_of_In; assumption|assumption].
Qed.

Lemma completion_reports_updated_progress_witness :
  ∃ h h',
    exec empty_heap [NewLoader 0; NewManual 1; NewManual 2; AddTask 0 1; AddTask 0 2]
      = Some h ∧
    step h (MarkComplete 1) = Some h' ∧
    Qred <$> notifications 0 (effects h') = [1 # 2]%Q.
Proof.
  run_events empty_heap
    [NewLoader 0; NewManual 1; NewManual 2; AddTask 0 1; AddTask 0 2] h.
  run_events h [MarkComplete 1] h'.
  exists h, h'. split; [vm_compute; reflexivity|]. split; [vm_compute; reflexivity|].
  destruct (completion_reports_updated_progress h h' 1 0
              (TManual (Manual.mk (LRef 0) false false))
              (mkLoader [1; 2] false false) (mkProgressEvent false 0 0)
              ltac:(vm_compute; reflexivity) ltac:(vm_compute; reflexivity)
              eq_refl ltac:(vm_compute; reflexivity) eq_refl)
    as (_ & _ & Hn & _).
  rewrite Hn. vm_compute. reflexivity.
Defined.



(** X12. [resetTasks] empties the list without unbinding the tasks: a task it
    dropped still reaches the loader, and its next progress callback
    makes the loader report again, the progress of the empty list. *)
Theorem resetTasks_keeps_back_references
    (h : heap) (l t : ref) (L : loader) (T : task) (e : ProgressEvent) (ev : event) :
  loaders h !! l = Some L → error L = false → aborted L = false →
  tasks h !! t = Some T → Task.getLoader T = LRef l →
  ev ∈ progress_events t T e →
  ∃ h1 h2,
    step h (ResetTasks l) = Some h1 ∧
    loaders h1 !! l = Some (mkLoader [] false false) ∧
    tasks h1 !! t = Some T ∧
    step h1 ev = Some h2 ∧
    notifications l (effects h2) = notifications l (effects h) ++ [0; 0]%Q.
Proof.
  intros HL He Ha HT Hl Hin.
  destruct (updateProgress_enabled l (set_loader l (mkLoader [] (aborted L) (error L)) h))
    as [h1 H1].
  { simpl. rewrite lookup_insert_eq. eauto. }
  assert (step h (ResetTasks l) = Some h1) as Hreset.
  { simpl. unfold Loader.resetTasks. rewrite HL. exact H1. }
  pose proof (step_loader_exact _ _ _ _ _ Hreset HL) as HL1.
  cbn [loader_after] in HL1. rewrite decide_True, Ha, He in HL1 by reflexivity.
  pose proof (step_task _ _ _ _ _ Hreset HT) as HT1. cbn [task_after] in HT1.
  destruct (progress_event_enabled h1 t T e ev l HT1 Hl ltac:(eauto) Hin)
    as [[h2 H2] Hwho].
  exists h1, h2. split; [assumption|]. split; [assumption|].
  split; [assumption|]. split; [assumption|].
  pose proof (step_loader_exact _ _ _ _ _ H2 HL1) as HL2.
  assert (loader_after ev l (mkLoader [] false false) = mkLoader [] false false) as Hsame.
  { destruct T; simpl in Hin;
      repeat (apply elem_of_cons in Hin as [->|Hin]); try (inversion Hin; fail);
      reflexivity. }
  rewrite Hsame in HL2.
  rewrite (step_notification _ _ _ l H2), (step_notification _ _ _ l Hreset).
  cbn [notified]. rewrite Hwho.
  repeat case_decide; try congruence.
  unfold report. rewrite HL1, HL2. simpl. rewrite <- app_assoc. reflexivity.
Qed.

Lemma resetTasks_keeps_back_references_witness :
  ∃ h h1 h2,
    exec empty_heap [NewLoader 0; NewManual 1; AddTask 0 1] = Some h ∧
    step h (ResetTasks 0) = Some h1 ∧ step h1 (MarkComplete 1) = Some h2 ∧
    notifications 0 (effects h2) = [0; 0]%Q.
Proof.
  run_events empty_heap [NewLoader 0; NewManual 1; AddTask 0 1] h.
  destruct (resetTasks_keeps_back_references h 0 1 (mkLoader [1] false false)
              (TManual (Manual.mk (LRef 0) false false)) (mkProgressEvent false 0 0)
              (MarkComplete 1)
              ltac:(vm_compute; reflexivity) eq_refl eq_refl
              ltac:(vm_compute; reflexivity) eq_refl ltac:(left))
    as (h1 & h2 & H1 & _ & _ & H2 & Hn).
  exists h, h1, h2. split; [vm_compute; reflexivity|].
  split; [exact H1|]. split; [exact H2|]. exact Hn.
Defined.

End TaskCallbacks.

Section AbortProperties.
Local Open Scope nat_scope.

Lemma task_after_keeps_aborted h ev t T :
  task_aborted T = true → task_aborted (task_after h ev t T) = true.
Proof.
  intros Ha. destruct ev; cbn [task_after]; repeat case_match; try assumption;
    destruct T; simpl in *; try assumption; try reflexivity;
    unfold Request._load, Request.onload; repeat case_match; assumption.
Qed.

Lemma exec_keeps_aborted evs : ∀ h h' t T,
  exec h evs = Some h' → tasks h !! t = Some T → task_aborted T = true →
  ∃ T', tasks h' !! t = Some T' ∧ task_aborted T' = true.
Proof.
  induction evs as [|ev evs IH]; intros h h' t T Hex HT Ha; simpl in Hex.
  - injection Hex as <-. eauto.
  - destruct (step h ev) as [h1|] eqn:Hstep; [|discriminate].
    eapply IH; [eassumption|eapply step_task; eassumption|].
    apply task_after_keeps_aborted. assumption.
Qed.

(** X13. [abort()] is final.  It raises the [aborted] flag of the task, no
    method or callback ever lowers it, and an aborted request opens no
    further transfer: each later [_load] rejects before sending and
    leaves the request as it is. *)
Theorem task_abort_is_permanent
    (h h1 h' : heap) (t : ref) (evs : list event) :
  step h (AbortTask t) = Some h1 →
  exec h1 evs = Some h' →
  ∃ T', tasks h' !! t = Some T' ∧ task_aborted T' = true ∧
    ∀ r, T' = TRequest r →
      Request._load r = (r, Some (Request.Reject Request.AbortedBeforeSend)).
Proof.
  intros Habort Hex.
  assert (∃ T, tasks h !! t = Some T) as [T HT].
  { simpl in Habort. unfold task_abort in Habort.
    destruct (tasks h !! t); [eauto|discriminate]. }
  pose proof (step_task _ _ _ _ _ Habort HT) as HT1.
  cbn [task_after] in HT1. rewrite decide_True in HT1 by reflexivity.
  destruct (exec_keeps_aborted _ _ _ _ _ Hex HT1) as (T' & HT' & Ha).
  { destruct T; reflexivity. }
  exists T'. split; [assumption|]. split; [assumption|].
  intros r ->. simpl in Ha. unfold Request._load. rewrite Ha. reflexivity.
Qed.

Lemma task_abort_is_permanent_witness :
  ∃ h h1 h',
    exec empty_heap [NewLoader 0; NewRequest 1; AddTask 0 1; StartLoad 1] = Some h ∧
    step h (AbortTask 1) = Some h1 ∧
    exec h1 [XhrAbort 1; XhrLoadEnd 1 (mkProgressEvent false 0 0); StartLoad 1;
             Cleanup 0; StartLoad 1] = Some h' ∧
    transfer_in_flight h' 1 = false ∧
    ∃ T', tasks h' !! 1 = Some T' ∧ task_aborted T' = true.
Proof.
  run_events empty_heap [NewLoader 0; NewRequest 1; AddTask 0 1; StartLoad 1] h.
  run_events h [AbortTask 1] h1.
  run_events h1 [XhrAbort 1; XhrLoadEnd 1 (mkProgressEvent false 0 0); StartLoad 1;
                 Cleanup 0; StartLoad 1] h'.
  exists h, h1, h'.
  split; [vm_compute; reflexivity|]. split; [vm_compute; reflexivity|].
  split; [vm_compute; reflexivity|]. split; [vm_compute; reflexivity|].
  destruct (task_abort_is_permanent h h1 h' 1
              [XhrAbort 1; XhrLoadEnd 1 (mkProgressEvent false 0 0); StartLoad 1;
               Cleanup 0; StartLoad 1]
              ltac:(vm_compute; reflexivity) ltac:(vm_compute; reflexivity))
    as (T' & HT' & Ha & _).
  exists T'. split; assumption.
Defined.

Lemma xhr_abort_targets_nodup fires h : ∀ ts seen,
  NoDup ts → (∀ t, t ∈ ts → t ∉ seen) →
  xhr_abort_targets fires h seen ts = List.filter (transfer_in_flight h) ts.
Proof.
  induction ts as [|t ts IH]; intros seen Hnd Hfresh; [done|].
  apply NoDup_cons in Hnd as [Hnin Hnd]. cbn [xhr_abort_targets List.filter].
  rewrite bool_decide_eq_false_2 by (apply Hfresh; left).
  cbn [andb negb]. rewrite andb_true_r, IH; [by destruct (transfer_in_flight h t)|done|].
  intros t' Hin [->|Hs]%elem_of_cons; [done|].
  by apply (Hfresh t'); [right|].
Qed.

(** The loop of [Loader.abort], entered in store [hc] when the entries
    [seen] of a list begun in store [h0] have been gone through. *)
Lemma abort_each_spec fires h0 : ∀ ts seen hc,
  (∀ t, tasks hc !! t =
        if bool_decide (t ∈ seen) then aborted_task (fires t) <$> tasks h0 !! t
        else tasks h0 !! t) →
  (∀ t, t ∈ ts → is_Some (tasks h0 !! t)) →
  (∀ t T l, tasks h0 !! t = Some T → Task.getLoader T = LRef l →
     is_Some (loaders hc !! l)) →
  ∃ h',
    for_each (λ t, abort_call (fires t) t) ts hc = Some h' ∧
    loaders h' = loaders hc ∧
    (∀ t, tasks h' !! t =
          if bool_decide (t ∈ seen ∨ t ∈ ts)
          then aborted_task (fires t) <$> tasks h0 !! t
          else tasks h0 !! t) ∧
    abort_calls (effects h') = abort_calls (effects hc) ++ ts ∧
    xhr_aborts (effects h') =
      xhr_aborts (effects hc) ++ xhr_abort_targets fires h0 seen ts ∧
    ∀ l L, loaders hc !! l = Some L → aborted L = true →
      ∃ k, notifications l (effects h') =
           notifications l (effects hc) ++ replicate k 1%Q.
Proof.
  induction ts as [|t ts IH]; intros seen hc Hinv Hvalid Hbound.
  { exists hc. cbn. rewrite !app_nil_r. split_and!; try done.
    - intros t. rewrite Hinv. apply (f_equal (λ b : bool, if b then _ else _)).
      apply bool_decide_ext. rewrite elem_of_nil. tauto.
    - intros l L _ _. exists 0. by rewrite app_nil_r. }
  destruct (Hvalid t ltac:(left)) as [T0 HT0].
  set (Tc := if bool_decide (t ∈ seen) then aborted_task (fires t) T0 else T0).
  assert (HTc : tasks hc !! t = Some Tc).
  { rewrite Hinv, HT0. subst Tc. by case_bool_decide. }
  assert (Hld : Task.getLoader Tc = Task.getLoader T0).
  { subst Tc. case_bool_decide; [apply aborted_task_getLoader|done]. }
  destruct (abort_call_total (fires t) t hc Tc HTc) as [h1 H1].
  { intros l Hl. rewrite Hld in Hl. eapply Hbound; eassumption. }
  destruct (abort_call_inv _ _ _ _ H1) as (T' & HT' & Ht1 & Hl1 & Hc1 & Hx1 & Hn1).
  assert (T' = Tc) as -> by congruence.
  assert (Hidem : aborted_task (fires t) Tc = aborted_task (fires t) T0).
  { subst Tc. case_bool_decide; [apply aborted_task_idem|done]. }
  rewrite Hidem in Ht1.
  assert (Hfl : transfer_in_flight hc t =
                transfer_in_flight h0 t
                && negb (bool_decide (t ∈ seen) && fired (fires t))).
  { unfold transfer_in_flight. rewrite HTc, HT0. subst Tc.
    case_bool_decide; cbn [andb negb].
    - pose proof (aborted_task_xhr (fires t) T0) as Hx.
      destruct (aborted_task (fires t) T0) as [r'|i'|m'], T0 as [r|i|m];
        try done; by rewrite ?Hx.
    - destruct T0; by rewrite ?andb_true_r. }
  destruct (IH (t :: seen) h1) as (h' & Hfe & Hl & Ht & Hc & Hx & Hn).
  { intros t'. rewrite Ht1. destruct (decide (t = t')) as [<-|Hne].
    - rewrite lookup_insert_eq, bool_decide_eq_true_2, HT0 by left. done.
    - rewrite lookup_insert_ne, Hinv by done.
      apply (f_equal (λ b : bool, if b then _ else _)).
      apply bool_decide_ext. rewrite elem_of_cons.
      split; [auto|intros [?|?]; [congruence|done]]. }
  { intros t' Hin. apply Hvalid. by right. }
  { intros t' T l HT Hl'. rewrite Hl1. eapply Hbound; eassumption. }
  exists h'. cbn [for_each]. rewrite H1. split_and!.
  - exact Hfe.
  - by rewrite Hl.
  - intros t'. rewrite Ht. apply (f_equal (λ b : bool, if b then _ else _)).
    apply bool_decide_ext. rewrite !elem_of_cons. tauto.
  - rewrite Hc, Hc1, <- app_assoc. done.
  - rewrite Hx, Hx1, <- app_assoc. cbn [xhr_abort_targets]. by rewrite Hfl.
  - intros l L HL Ha.
    destruct (Hn l L) as [k Hk]; [by rewrite Hl1|done|].
    specialize (Hn1 l).
    set (told := if transfer_in_flight hc t && fired (fires t)
                 then if decide (truthy (Task.getLoader Tc) = Some l)
                      then report h1 l else []
                 else []) in Hn1.
    assert (∃ k0, told = replicate k0 1%Q) as [k0 Hk0].
    { subst told. destruct (_ && _); [|by exists 0].
      case_decide; [|by exists 0].
      unfold report. rewrite Hl1, HL.
      destruct (error L); [by exists 0|]. exists 1.
      by rewrite (calculateProgress_aborted _ _ Ha). }
    exists (k0 + k). by rewrite Hk, Hn1, Hk0, <- app_assoc, replicate_add.
Qed.

(** X14. [Loader.abort()], from call to return, reaches every task it
    lists and no other.  Each listed task has gone through its own
    [abort()] and carries the [aborted] flag; a listed request whose
    transfer [xhr.abort()] ended has also gone through [onabort] and
    [onloadend], so it comes back complete and with [this.xhr] null; the
    tasks that are not listed are untouched.  [abort()] is called once
    for each entry of the list, and [xhr.abort()] for the entries whose
    request holds a transfer when its turn comes: once for each listed
    request with a transfer when the list names no task twice, and only
    at the first entry of a request listed twice when that call ends the
    transfer.  Whatever the loader itself is told during the call is the
    progress 1. *)
Theorem loader_abort_reaches_every_task
    (evs : list event) (h : heap) (l : ref) (L : loader)
    (fires : ref → option ProgressEvent) :
  exec empty_heap evs = Some h →
  loaders h !! l = Some L →
  ∃ h', loader_abort_call fires l h = Some h' ∧
    loaders h' !! l = Some (mkLoader (_tasks L) true (error L)) ∧
    (∀ t, t ∈ _tasks L →
       ∃ T, tasks h !! t = Some T ∧
            tasks h' !! t = Some (aborted_task (fires t) T) ∧
            task_aborted (aborted_task (fires t) T) = true) ∧
    (∀ t, t ∈ _tasks L → transfer_in_flight h t = true → fired (fires t) = true →
       isComplete_at h' t = true ∧ transfer_in_flight h' t = false) ∧
    (∀ t, t ∉ _tasks L → tasks h' !! t = tasks h !! t) ∧
    abort_calls (effects h') = abort_calls (effects h) ++ _tasks L ∧
    xhr_aborts (effects h') =
      xhr_aborts (effects h) ++ xhr_abort_targets fires h [] (_tasks L) ∧
    (NoDup (_tasks L) →
     xhr_abort_targets fires h [] (_tasks L) =
       List.filter (transfer_in_flight h) (_tasks L)) ∧
    ∃ k, notifications l (effects h') = notifications l (effects h) ++ replicate k 1%Q.
Proof.
  intros Hex HL.
  pose proof (valid_refs_exec _ _ _ Hex valid_refs_empty) as Hvalid.
  pose proof (bound_loaders_exec _ _ _ Hex bound_loaders_empty) as Hbound.
  unfold loader_abort_call. rewrite HL.
  set (hc := set_loader l (mkLoader (_tasks L) true (error L)) h).
  destruct (abort_each_spec fires h (_tasks L) [] hc)
    as (h' & Hfe & Hl & Ht & Hc & Hx & Hn).
  { intros t. by rewrite bool_decide_eq_false_2 by apply not_elem_of_nil. }
  { intros t Hin. eapply Hvalid; eassumption. }
  { intros t T l0 HT Hl0. subst hc. cbn [set_loader loaders].
    destruct (decide (l = l0)) as [<-|Hne];
      [rewrite lookup_insert_eq; eauto|rewrite lookup_insert_ne by done].
    eapply Hbound; eassumption. }
  assert (Hin : ∀ t, t ∈ _tasks L →
            ∃ T, tasks h !! t = Some T ∧
                 tasks h' !! t = Some (aborted_task (fires t) T)).
  { intros t Hin. destruct (Hvalid _ _ _ HL Hin) as [T HT]. exists T.
    split; [done|]. rewrite Ht, bool_decide_eq_true_2, HT by (by right). done. }
  exists h'. split; [exact Hfe|]. split_and!.
  - rewrite Hl. subst hc. cbn. apply lookup_insert_eq.
  - intros t Hint. destruct (Hin t Hint) as (T & HT & HT').
    exists T. split_and!; [done|done|apply aborted_task_aborted].
  - intros t Hint Hfl Hf. destruct (Hin t Hint) as (T & HT & HT').
    unfold isComplete_at, transfer_in_flight in *. rewrite HT'. rewrite HT in Hfl.
    destruct T as [r|i|m]; try done. destruct (fires t); [|done].
    cbn. rewrite Hfl. done.
  - intros t Hnin. rewrite Ht, bool_decide_eq_false_2; [done|].
    rewrite elem_of_nil. tauto.
  - exact Hc.
  - exact Hx.
  - intros Hnd. apply xhr_abort_targets_nodup; [done|].
    intros t _. apply not_elem_of_nil.
  - destruct (Hn l (mkLoader (_tasks L) true (error L))) as [k Hk]; [|done|by exists k].
    subst hc. cbn. apply lookup_insert_eq.
Qed.

Lemma loader_abort_reaches_every_task_witness :
  ∃ h h',
    exec empty_heap [NewLoader 0; NewRequest 1; NewImg 2; NewManual 3;
                     AddTask 0 1; AddTask 0 2; AddTask 0 1; StartLoad 1] = Some h ∧
    loaders h !! 0 = Some (mkLoader [1; 2; 1] false false) ∧
    transfer_in_flight h 1 = true ∧
    loader_abort_call (λ _, Some (mkProgressEvent false 0 0)) 0 h = Some h' ∧
    xhr_aborts (effects h') = [1] ∧
    abort_calls (effects h') = [1; 2; 1] ∧
    isComplete_at h' 1 = true ∧ transfer_in_flight h' 1 = false ∧
    tasks h' !! 3 = tasks h !! 3.
Proof.
  run_events empty_heap
    [NewLoader 0; NewRequest 1; NewImg 2; NewManual 3;
     AddTask 0 1; AddTask 0 2; AddTask 0 1; StartLoad 1] h.
  destruct (loader_abort_reaches_every_task
              [NewLoader 0; NewRequest 1; NewImg 2; NewManual 3;
               AddTask 0 1; AddTask 0 2; AddTask 0 1; StartLoad 1]
              h 0 (mkLoader [1; 2; 1] false false)
              (λ _, Some (mkProgressEvent false 0 0))
              ltac:(vm_compute; reflexivity) ltac:(vm_compute; reflexivity))
    as (h' & Hcall & _ & _ & Hdone & Hother & Hc & Hx & _).
  exists h, h'. split; [vm_compute; reflexivity|].
  split; [vm_compute; reflexivity|]. split; [vm_compute; reflexivity|].
  split; [exact Hcall|]. split; [rewrite Hx; vm_compute; reflexivity|].
  split; [rewrite Hc; vm_compute; reflexivity|].
  destruct (Hdone 1) as [Hcomp Hnull]; [left|vm_compute; reflexivity|reflexivity|].
  split; [exact Hcomp|]. split; [exact Hnull|].
  apply Hother. intros Hin.
  repeat (apply elem_of_cons in Hin as [Hin|Hin]; [discriminate|]). inversion Hin.
Defined.

End AbortProperties.

Section RequestFields.
Local Open Scope nat_scope.

(** X15. The work getters of a request move on [loadstart] and [loadend]
    only, the two events whose handlers call [updateProgress], and then
    return what the event carries: [lengthComputable], [total] and
    [loaded].  Nothing else changes them, not a response, an error, an
    abort or a new attempt. *)
Theorem request_work_follows_loadstart_and_loadend
    (h h' : heap) (ev : event) (t : ref) (r : Request.t) :
  step h ev = Some h' →
  tasks h !! t = Some (TRequest r) →
  ∃ r', tasks h' !! t = Some (TRequest r') ∧
    work r' =
      match ev with
      | XhrLoadStart t0 e | XhrLoadEnd t0 e =>
          if decide (t0 = t) then (lengthComputable e, total e, loaded e) else work r
      | _ => work r
      end.
Proof.
  intros Hstep HT. rewrite (step_task _ _ _ _ _ Hstep HT).
  destruct ev; cbn [task_after]; repeat case_match;
    simpl; unfold Request._load, Request.onload; repeat case_match;
    eexists; (split; [reflexivity|reflexivity]).
Qed.

Lemma request_work_follows_loadstart_and_loadend_witness :
  ∃ h h' r',
    exec empty_heap [NewRequest 1; StartLoad 1;
                     XhrLoadStart 1 (mkProgressEvent true 900 0)] = Some h ∧
    step h (XhrLoad 1 404%Z 7%Z) = Some h' ∧
    tasks h' !! 1 = Some (TRequest r') ∧
    work r' = (true, 900%Z, 0%Z).
Proof.
  run_events empty_heap [NewRequest 1; StartLoad 1;
                         XhrLoadStart 1 (mkProgressEvent true 900 0)] h.
  run_events h [XhrLoad 1 404%Z 7%Z] h'.
  destruct (request_work_follows_loadstart_and_loadend h h' (XhrLoad 1 404%Z 7%Z) 1
              (Request.mk LUndefined false false true 900 0 false 0 true)
              ltac:(vm_compute; reflexivity) ltac:(vm_compute; reflexivity))
    as (r' & HT' & Hw).
  exists h, h', r'. split; [vm_compute; reflexivity|].
  split; [vm_compute; reflexivity|]. split; [exact HT'|exact Hw].
Defined.

(** X16. [getStatus()] returns the status of the last response that reached
    [onload]: only that handler writes [status].  A transfer that ends in
    an error or an abort, a new attempt and [abort()] leave the status of
    the previous response in place, 0 if there was none. *)
Theorem request_status_is_last_response
    (h h' : heap) (ev : event) (t : ref) (r : Request.t) :
  step h ev = Some h' →
  tasks h !! t = Some (TRequest r) →
  ∃ r', tasks h' !! t = Some (TRequest r') ∧
    Request.getStatus r' =
      match ev with
      | XhrLoad t0 xhr_status _ =>
          if decide (t0 = t) then xhr_status else Request.getStatus r
      | _ => Request.getStatus r
      end.
Proof.
  intros Hstep HT. rewrite (step_task _ _ _ _ _ Hstep HT).
  destruct ev; cbn [task_after]; repeat case_match;
    simpl; unfold Request._load, Request.onload; repeat case_match;
    eexists; (split; [reflexivity|reflexivity]).
Qed.

Lemma request_status_is_last_response_witness :
  ∃ h h' r',
    exec empty_heap [NewRequest 1; StartLoad 1; XhrLoad 1 503%Z 0%Z;
                     XhrLoadEnd 1 (mkProgressEvent false 0 0); StartLoad 1] = Some h ∧
    step h (XhrError 1) = Some h' ∧
    tasks h' !! 1 = Some (TRequest r') ∧
    Request.getStatus r' = 503%Z.
Proof.
  run_events empty_heap [NewRequest 1; StartLoad 1; XhrLoad 1 503%Z 0%Z;
                         XhrLoadEnd 1 (mkProgressEvent false 0 0); StartLoad 1] h.
  run_events h [XhrError 1] h'.
  destruct (request_status_is_last_response h h' (XhrError 1) 1
              (Request.mk LUndefined false false false 0 0 true 503 true)
              ltac:(vm_compute; reflexivity) ltac:(vm_compute; reflexivity))
    as (r' & HT' & Hs).
  exists h, h', r'. split; [vm_compute; reflexivity|].
  split; [vm_compute; reflexivity|]. split; [exact HT'|exact Hs].
Defined.

End RequestFields.

Section LoadProperties.
Import Load.
Local Open Scope nat_scope.

Lemma handle_aborted (r : Request.t) c e0 e1 :
  Request.aborted r = true →
  handle r c e0 e1 = (r, Reject (Rejected Request.AbortedBeforeSend)).
Proof. intros Ha. unfold handle, Request._load. by rewrite Ha. Qed.

Lemma handle_open_throws (r : Request.t) e0 e1 :
  Request.aborted r = false →
  handle r OpenThrows e0 e1 = (r, Reject OpenError).
Proof. intros Ha. unfold handle, Request._load. by rewrite Ha. Qed.

Lemma onload_cases (r : Request.t) (s p : Z) :
  (accepted r s ∧ (Request.onload r s p).2 = Request.Resolve p) ∨
  (¬ accepted r s ∧ (Request.onload r s p).2 = Request.Reject (Request.HttpError s)).
Proof.
  unfold Request.onload, accepted, Request.indexOf, Request.acceptableResponseCodes.
  cbn [Request.indexOf_from Request.shouldIgnoreErrors].
  destruct (Z.eqb_spec 0 s) as [<-|H0]; [left; split; [by left|done]|].
  destruct (Z.eqb_spec 200 s) as [<-|H200]; [left; split; [by right; left|done]|].
  cbn [Z.eqb negb orb].
  destruct (Request.shouldIgnoreErrors r) eqn:Hi.
  - left. split; [by right; right|done].
  - right. split; [|done]. intros [?|[?|?]]; congruence.
Qed.

Lemma handle_sent (r : Request.t) x e0 e1 :
  Request.aborted r = false →
  let r' := (handle r (Sent x) e0 e1).1 in
  let a := (handle r (Sent x) e0 e1).2 in
  Request.shouldIgnoreErrors r' = Request.shouldIgnoreErrors r ∧
  Request.complete r' = true ∧ Request.xhr r' = false ∧
  match x with
  | Loaded s p =>
      Request.aborted r' = false ∧
      ((accepted r s ∧ a = Resolve p) ∨
       (¬ accepted r s ∧ a = Reject (Rejected (Request.HttpError s))))
  | Errored =>
      Request.aborted r' = false ∧ a = Reject (Rejected Request.TransferError)
  | Aborted =>
      Request.aborted r' = true ∧ a = Reject (Rejected Request.TransferAborted)
  end.
Proof.
  intros Ha. unfold handle, Request._load. rewrite Ha.
  destruct x as [s p| |].
  - set (r1 := Request.onloadstart _ e0).
    pose proof (onload_cases r1 s p) as Hc.
    assert (Hi : accepted r1 s ↔ accepted r s) by done.
    destruct (Request.onload r1 s p) as [r2 a] eqn:Hl. cbn [fst snd] in *.
    assert (Request.shouldIgnoreErrors r2 = Request.shouldIgnoreErrors r ∧
            Request.aborted r2 = false) as [H1 H2].
    { unfold Request.onload in Hl. case_match; simplify_eq; done. }
    split_and!; try done.
    destruct Hc as [[? ->]|[? ->]]; [left|right]; (split; [tauto|done]).
  - cbn. done.
  - cbn. done.
Qed.

Lemma load_sends_app (l1 l2 : list effect) : sends (l1 ++ l2) = sends l1 ++ sends l2.
Proof. induction l1 as [|[]]; cbn; congruence. Qed.





Lemma attempts_sent (e : env) (n : nat) : ∀ i lastErr r log,
  ∃ new,
    sends (attempts e n i lastErr r log).2 = sends log ++ new ∧
    (Request.aborted r = true → new = []) ∧
    (Request.aborted r = false → 0 < n → sent (courses e i) = true → new ≠ []) ∧
    (new = [] →
     (attempts e n i lastErr r log).1.2 = r ∨
     (attempts e n i lastErr r log).1.2 = (Request.abort r).1) ∧
    (new ≠ [] ∨ (Request.complete r = true ∧ Request.xhr r = false) →
     Request.complete (attempts e n i lastErr r log).1.2 = true ∧
     Request.xhr (attempts e n i lastErr r log).1.2 = false).
Proof.
  induction n as [|n IH]; intros i lastErr r log.
  { exists []. cbn. rewrite app_nil_r. split_and!; try done; [lia|by left|].
    by intros [?|?]. }
  cbn [attempts].
  destruct (Request.aborted r) eqn:Ha.
  { rewrite (handle_aborted r _ _ _ Ha), Ha. exists []. cbn.
    rewrite app_nil_r. split_and!; try done; [by left|]. by intros [?|?]. }
  cbn [negb andb].
  destruct (courses e i) as [|x] eqn:Hc.
  { rewrite (handle_open_throws r _ _ Ha), Ha. cbn [sent].
    set (r2 := if abort_during_sleep e i then (Request.abort r).1 else r).
    set (log2 := log ++ [Sleep (Retry.retryIn i (random e i))]).
    destruct (IH (S i) (Some OpenError) r2 log2) as (new & Hse & _ & _ & Hsame & Hdone).
    exists new. split_and!; try done.
    - rewrite Hse. subst log2. rewrite load_sends_app. cbn. by rewrite app_nil_r.
    - intros Hnil. destruct (Hsame Hnil) as [->| ->]; subst r2;
        destruct (abort_during_sleep e i); auto.
    - intros Hor. apply Hdone. destruct Hor as [?|[? ?]]; [by left|right].
      subst r2. by destruct (abort_during_sleep e i). }
  pose proof (handle_sent r x (at_loadstart e i) (at_loadend e i) Ha) as Hs.
  cbn zeta in Hs.
  destruct (handle r (Sent x) (at_loadstart e i) (at_loadend e i)) as [r1 a].
  cbn [fst snd] in Hs. destruct Hs as (_ & Hcomp & Hx & _). cbn [sent].
  assert (Hone : sends (log ++ [Send i]) = sends log ++ [i]) by by rewrite load_sends_app.
  destruct a as [p|f]; [by exists [i]|].
  destruct (Request.aborted r1); [by exists [i]|].
  set (r2 := if abort_during_sleep e i then (Request.abort r1).1 else r1).
  set (log2 := (log ++ [Send i]) ++ [Sleep (Retry.retryIn i (random e i))]).
  destruct (IH (S i) (Some f) r2 log2) as (new & Hse & _ & _ & _ & Hdone).
  exists (i :: new). split_and!; try done.
  - rewrite Hse. subst log2. rewrite load_sends_app, Hone. cbn.
    by rewrite app_nil_r, <- app_assoc.
  - intros _. apply Hdone. right. subst r2. by destruct (abort_during_sleep e i).
Qed.

(** X18. Once the last transfer of a [load] has ended, a [load] that
    sent at least one transfer leaves the request complete and without a
    transfer in [this.xhr], however it settled.  A [load] that sent none
    leaves the request as it was, but for the [aborted] flag when
    [abort()] was called during a backoff sleep: it does not make the
    request complete.  A [load] on an aborted request sends nothing; a
    [load] on a request that is not aborted sends a transfer when its
    first [xhr.open] does not throw. *)
Theorem load_completes_iff_sent (e : env) (r r' : Request.t) (o : outcome)
    (log : list effect) :
  load e r = (o, r', log) →
  (sends log = [] →
   (r' = r ∨ r' = (Request.abort r).1) ∧
   Request.isComplete r' = Request.isComplete r) ∧
  (sends log ≠ [] →
   Request.aborted r = false ∧ Request.isComplete r' = true ∧ Request.xhr r' = false) ∧
  (Request.aborted r = true → sends log = []) ∧
  (Request.aborted r = false → sent (courses e 0) = true → sends log ≠ []).
Proof.
  intros H. unfold load in H.
  destruct (attempts_sent e Retry.MAX_ATTEMPST 0 None r [])
    as (new & Hse & Hab & Hfirst & Hsame & Hdone).
  rewrite H in Hse, Hsame, Hdone. cbn [fst snd sends app] in Hse, Hsame, Hdone.
  rewrite Hse. split_and!.
  - intros ->. split; [by apply Hsame|].
    by destruct (Hsame eq_refl) as [->| ->].
  - intros Hne. split; [|by apply Hdone; left].
    destruct (Request.aborted r); [|done]. by destruct Hne; apply Hab.
  - exact Hab.
  - intros Ha Hs. apply Hfirst; [done|unfold Retry.MAX_ATTEMPST; lia|done].
Qed.

Lemma load_completes_iff_sent_witness :
  Request.isComplete Request.new = false ∧
  Request.isComplete
    (load (Build_env (λ _, Sent Errored) (λ _, mkProgressEvent false 0 0)
             (λ _, mkProgressEvent false 0 0) (λ _, false) (λ _, 0%Q))
       Request.new).1.2 = true.
Proof.
  split; [reflexivity|].
  set (e := Build_env (λ _, Sent Errored) (λ _, mkProgressEvent false 0 0)
             (λ _, mkProgressEvent false 0 0) (λ _, false) (λ _, 0%Q)).
  destruct (load e Request.new) as [[o r'] log] eqn:H.
  refine (proj1 (proj2 (proj1 (proj2 (load_completes_iff_sent e Request.new r' o log H)) _))).
  assert (log = (load e Request.new).2) as -> by by rewrite H.
  vm_compute. discriminate.
Defined.

End LoadProperties.

Section ImgLoadProperties.
Import ImgLoad.
Local Open Scope nat_scope.

Lemma img_fetches_app (l1 l2 : list effect) :
  fetches (l1 ++ l2) = fetches l1 ++ fetches l2.
Proof. induction l1 as [|[]]; cbn; congruence. Qed.

Lemma img_attempts_outcomes (e : env) (n : nat) : ∀ i lastErr im log,
  ∃ j, j ≤ n ∧ (0 < n → 0 < j) ∧
    fetches (attempts e n i lastErr im log).2 = fetches log ++ seq i j ∧
    (∀ k, k < j - 1 → loads e (i + k) = false) ∧
    match (attempts e n i lastErr im log).1.1 with
    | Resolved =>
        0 < j ∧ loads e (i + j - 1) = true ∧
        Img.isComplete (attempts e n i lastErr im log).1.2 = true
    | Thrown f =>
        (0 < j → loads e (i + j - 1) = false) ∧
        (f = if decide (j = 0) then lastErr else Some ImageError) ∧
        (j < n → Img.aborted (attempts e n i lastErr im log).1.2 = true) ∧
        Img.isComplete (attempts e n i lastErr im log).1.2 = Img.isComplete im
    end.
Proof.
  induction n as [|n IH]; intros i lastErr im log.
  { exists 0. cbn. rewrite app_nil_r. split_and!; try done; lia. }
  cbn [attempts handle].
  set (im0 := if abort_during_attempt e i then Img.abort im else im).
  assert (Hc0 : Img.isComplete im0 = Img.isComplete im).
  { subst im0. by destruct (abort_during_attempt e i). }
  assert (Hone : fetches (log ++ [Fetch i]) = fetches log ++ seq i 1).
  { by rewrite img_fetches_app. }
  destruct (loads e i) eqn:Hl; unfold handle; cbn iota.
  { exists 1. cbn [fst snd]. replace (i + 1 - 1) with i by lia.
    split_and!; try done; try lia; intros; lia. }
  destruct (Img.aborted im0) eqn:Hab.
  { exists 1. cbn [fst snd]. replace (i + 1 - 1) with i by lia.
    split_and!; try done; try lia; intros; lia. }
  set (im2 := if abort_during_sleep e i then Img.abort im0 else im0).
  assert (Hc2 : Img.isComplete im2 = Img.isComplete im).
  { subst im2. by destruct (abort_during_sleep e i). }
  set (log2 := (log ++ [Fetch i]) ++ [Sleep (Retry.retryIn i (random e i))]).
  destruct (IH (S i) (Some ImageError) im2 log2) as (j & Hj & _ & Hf & Hprev & Ho).
  exists (S j).
  assert (Hidx : ∀ k, 0 < k → S i + k - 1 = i + S k - 1) by (intros; lia).
  split_and!; [lia|lia| | |].
  - rewrite Hf. subst log2. rewrite img_fetches_app, Hone. cbn.
    by rewrite app_nil_r, <- app_assoc.
  - intros k Hk. destruct k as [|k]; [by rewrite Nat.add_0_r|].
    replace (i + S k) with (S i + k) by lia. apply Hprev. lia.
  - destruct ((attempts e n (S i) (Some ImageError) im2 log2).1.1) as [|f].
    + destruct Ho as (Hpos & Hl' & Hc). split_and!; [lia| |done].
      by rewrite <- Hidx.
    + destruct Ho as (Hl' & Hf' & Hab' & Hc). split_and!.
      * intros _. destruct j as [|j]; [by replace (i + 1 - 1) with i by lia|].
        rewrite <- Hidx by lia. apply Hl'. lia.
      * rewrite Hf'. by repeat case_decide.
      * intros Hlt. apply Hab'. lia.
      * by rewrite Hc.
Qed.

(** X20. [Img.load] resolves exactly when one of at most four requested
    images fires [load], the first that does, and then the task is
    complete; every image before it failed.  When it throws, the error
    is the image error, never [undefined], every requested image failed,
    and the task is as complete as it was: a failed image never counts
    as complete.  Fewer than four requests on a throw mean the task was
    aborted. *)
Theorem img_load_outcomes (e : env) (im im' : Img.t) (o : outcome) (log : list effect) :
  load e im = (o, im', log) →
  ∃ j, 0 < j ≤ 4 ∧ fetches log = seq 0 j ∧
    (∀ k, k < j - 1 → loads e k = false) ∧
    match o with
    | Resolved => loads e (j - 1) = true ∧ Img.isComplete im' = true
    | Thrown f =>
        f = Some ImageError ∧ loads e (j - 1) = false ∧
        (j < 4 → Img.aborted im' = true) ∧
        Img.isComplete im' = Img.isComplete im
    end.
Proof.
  intros H.
  destruct (img_attempts_outcomes e Retry.MAX_ATTEMPST 0 None im [])
    as (j & Hj & Hpos & Hf & Hprev & Ho).
  unfold load in H. rewrite H in Hf, Ho. cbn [fst snd fetches app] in Hf, Ho.
  unfold Retry.MAX_ATTEMPST in *. specialize (Hpos ltac:(lia)).
  exists j. split_and!; [lia|lia|done|done|].
  destruct o as [|f].
  - by destruct Ho as (_ & ? & ?).
  - destruct Ho as (Hl & Hfe & Hab & Hc). split_and!; [|auto|done|done].
    rewrite Hfe. case_decide; [lia|done].
Qed.

Lemma img_load_outcomes_witness :
  ∃ j, 0 < j ≤ 4 ∧ [0; 1] = seq 0 j ∧
    (∀ k, k < j - 1 → (λ i, 0 <? i) k = false) ∧
    (λ i, 0 <? i) (j - 1) = true ∧
    Img.isComplete (Img.mk LUndefined false true) = true.
Proof.
  exact (img_load_outcomes
           (Build_env (λ i, 0 <? i) (λ _, false) (λ _, false) (λ _, 0%Q))
           Img.new (Img.mk LUndefined false true) Resolved
           [Fetch 0; Sleep (Retry.retryIn 0 0); Fetch 1]
           ltac:(vm_compute; reflexivity)).
Defined.

(** X21. [abort()] does not stop an [Img] from loading: its [_load]
    never reads the flag, so a [load] on an aborted image still requests
    the image once.  If that image loads, [load] resolves and the task
    becomes complete; if it fails, [load] throws at once, without
    sleeping or trying again. *)
Theorem img_load_ignores_abort (e : env) (im : Img.t) :
  Img.aborted im = true →
  fetches (load e im).2 = [0] ∧ sleeps (load e im).2 = [] ∧
  Img.aborted (load e im).1.2 = true ∧
  if loads e 0
  then (load e im).1.1 = Resolved ∧ Img.isComplete (load e im).1.2 = true
  else (load e im).1.1 = Thrown (Some ImageError) ∧
       Img.isComplete (load e im).1.2 = Img.isComplete im.
Proof.
  intros Ha. unfold load, Retry.MAX_ATTEMPST. cbn [attempts handle].
  assert (Ha0 : Img.aborted (if abort_during_attempt e 0 then Img.abort im else im) = true).
  { by destruct (abort_during_attempt e 0). }
  assert (Hc0 : Img.isComplete (if abort_during_attempt e 0 then Img.abort im else im)
                = Img.isComplete im).
  { by destruct (abort_during_attempt e 0). }
  destruct (loads e 0); unfold handle; cbn iota.
  - cbn. done.
  - rewrite Ha0. cbn. done.
Qed.

Lemma img_load_ignores_abort_witness :
  (load (Build_env (λ _, true) (λ _, false) (λ _, false) (λ _, 0%Q))
     (Img.abort Img.new)).1.1 = Resolved ∧
  Img.isComplete
    (load (Build_env (λ _, true) (λ _, false) (λ _, false) (λ _, 0%Q))
       (Img.abort Img.new)).1.2 = true.
Proof.
  exact (proj2 (proj2 (proj2
    (img_load_ignores_abort
       (Build_env (λ _, true) (λ _, false) (λ _, false) (λ _, 0%Q))
       (Img.abort Img.new) eq_refl)))).
Defined.

End ImgLoadProperties.
